(** * SATNet mixing-method core (src/satnet_cpu.cpp): model and properties

    The C++ source works on flat [float] buffers with SSE intrinsics and a
    handful of [math.h] calls.  The model below keeps that shape:

    - the arithmetic is taken through an interface, [FloatOps], with one
      carrier for C [float] and one for C [double] and the conversions the
      usual arithmetic conversions insert; the control flow of the source is
      proved once, for every implementation of the interface;
    - two implementations are given: IEEE-754 binary32/binary64 on the
      Standard Library's [SpecFloat] (what the compiled code computes), and
      exact real arithmetic (what the algebraic invariants of the mixing
      method are stated in);
    - a buffer is a function from cell number to value, a pointer [p + off]
      is the buffer together with the offset [off], and every function
      returns the buffers it writes;
    - the three launchers spread the per-instance functions over the batch,
      on disjoint slices of every written buffer; their OpenMP loops are
      modelled with the iterations taken one at a time, in an order that is
      a parameter, and shown not to depend on it. *)

From Stdlib Require Import ZArith List Bool Lia.
From Stdlib Require Import Reals Lra.
From Stdlib Require Import Floats.SpecFloat.
Import ListNotations.

Local Open Scope Z_scope.

(** ** Arithmetic interface *)

(** The operations the source applies to [float] and [double] values.
    [math.h] is not part of the repository: its functions and [M_PI] enter
    here as fields; the SSE intrinsics are written out lane by lane from the
    scalar operations.  [int] values are [Z]: every [int] of the source is a
    loop counter or a cell number bounded by a buffer size, and signed
    overflow is undefined in C, so there is no wrap-around to model. *)
Class FloatOps := {
  float : Type;
  double : Type;
  (* single precision *)
  fadd : float -> float -> float;
  fsub : float -> float -> float;
  fmul : float -> float -> float;
  fdiv : float -> float -> float;
  fneg : float -> float;
  sqrt_f : float -> float;
  flt : float -> float -> bool;
  float_of_int : Z -> float;
  isnan : float -> bool;
  isinf : float -> bool;
  (* double precision *)
  dadd : double -> double -> double;
  dsub : double -> double -> double;
  dmul : double -> double -> double;
  ddiv : double -> double -> double;
  dneg : double -> double;
  dlt : double -> double -> bool;
  double_of_int : Z -> double;
  (* conversions *)
  double_of_float : float -> double;
  float_of_double : double -> float;
  (* math.h *)
  M_PI : double;
  sin_d : double -> double;
  cos_d : double -> double;
  copysign_d : double -> double -> double;
  acos_f : float -> float;
  (* the literal 1e-24 of type double *)
  lit_1em24 : double
}.

Declare Scope cfloat_scope.
Delimit Scope cfloat_scope with cf.
Infix "+f" := fadd (at level 50, left associativity) : cfloat_scope.
Infix "-f" := fsub (at level 50, left associativity) : cfloat_scope.
Infix "*f" := fmul (at level 40, left associativity) : cfloat_scope.
Infix "/f" := fdiv (at level 40, left associativity) : cfloat_scope.
Infix "<f" := flt (at level 70, no associativity) : cfloat_scope.
Infix "+d" := dadd (at level 50, left associativity) : cfloat_scope.
Infix "-d" := dsub (at level 50, left associativity) : cfloat_scope.
Infix "*d" := dmul (at level 40, left associativity) : cfloat_scope.
Infix "/d" := ddiv (at level 40, left associativity) : cfloat_scope.
Infix "<d" := dlt (at level 70, no associativity) : cfloat_scope.
Local Open Scope cfloat_scope.

(** ** Buffers and loops *)

(** A flat array seen from its base pointer.  Cells outside the allocated
    extent exist in the model; the source has undefined behaviour there, and
    the theorems state the bounds they need. *)
Definition buf (T : Type) : Type := Z -> T.

Definition store {T : Type} (b : buf T) (i : Z) (v : T) : buf T :=
  fun j => if j =? i then v else b j.

(** [for (c = i; <n more rounds>; c++) a = body c a]. *)
Fixpoint for_range {A : Type} (n : nat) (i : Z) (body : Z -> A -> A) (a : A) : A :=
  match n with
  | O => a
  | S n' => for_range n' (i + 1) body (body i a)
  end.

(** [for (c = lo; c < hi; c++) a = body c a]. *)
Definition for_upto {A : Type} (lo hi : Z) (body : Z -> A -> A) (a : A) : A :=
  for_range (Z.to_nat (hi - lo)) lo body a.

(** Rounds of a loop [for (i = 0; i < l; i += 4)]. *)
Definition simd_rounds (l : Z) : nat := Z.to_nat ((l + 3) / 4).

(** The ids a sweep visits: the entries of the index array before the first
    0.  The list is the allocated array; the source reads on until it meets
    a 0, so an array without one is read past its end (undefined), where the
    model stops. *)
Fixpoint visited (index : list Z) : list Z :=
  match index with
  | [] => []
  | i :: rest => if i =? 0 then [] else i :: visited rest
  end.

Section Model.
Context {ops : FloatOps}.

(** The [int] literals 0 and 1 where the source uses them as [float]; [f0]
    is also the all-zero bit pattern that [memset] writes. *)
Definition f0 : float := float_of_int 0.
Definition f1 : float := float_of_int 1.

(** [const double MEPS = 1e-24;] *)
Definition MEPS : double := lit_1em24.

(** ** Vector primitives *)

(** One round of [saxpy]: [y_ = _mm_add_ps(_mm_mul_ps(a_, x_), y_)] on the
    four lanes at [y + yo] and [x + xo]. *)
Definition saxpy4 (y : buf float) (yo : Z) (a : float) (x : buf float) (xo : Z)
  : buf float :=
  fun j =>
    if (yo <=? j) && (j <? yo + 4)
    then (a *f x (xo + (j - yo))) +f y j
    else y j.

Fixpoint saxpy_loop (n : nat) (y : buf float) (yo : Z) (a : float)
    (x : buf float) (xo : Z) : buf float :=
  match n with
  | O => y
  | S n' => saxpy_loop n' (saxpy4 y yo a x xo) (yo + 4) a x (xo + 4)
  end.

(** [saxpy(y + yo, a, x + xo, l)]: y = a*x + y, four lanes a round. *)
Definition saxpy (y : buf float) (yo : Z) (a : float) (x : buf float) (xo : Z)
    (l : Z) : buf float :=
  saxpy_loop (simd_rounds l) y yo a x xo.

(** [scopy(x + xo, y + yo, l)]: memcpy of l floats from x to y. *)
Definition scopy (x : buf float) (xo : Z) (y : buf float) (yo : Z) (l : Z)
  : buf float :=
  fun j => if (yo <=? j) && (j <? yo + l) then x (xo + (j - yo)) else y j.

(** [_mm_dp_ps(x_, y_, 0xf1)]: the four products, summed pairwise into
    lane 0 (the order of Intel's reference pseudo-code for DPPS). *)
Definition dp_ps (x : buf float) (xo : Z) (y : buf float) (yo : Z) : float :=
  ((x xo *f y yo) +f (x (xo + 1) *f y (yo + 1)))
  +f ((x (xo + 2) *f y (yo + 2)) +f (x (xo + 3) *f y (yo + 3))).

Fixpoint sdot_loop (n : nat) (s : float) (x : buf float) (xo : Z)
    (y : buf float) (yo : Z) : float :=
  match n with
  | O => s
  | S n' => sdot_loop n' (s +f dp_ps x xo y yo) x (xo + 4) y (yo + 4)
  end.

(** [sdot(x + xo, y + yo, l)]. *)
Definition sdot (x : buf float) (xo : Z) (y : buf float) (yo : Z) (l : Z)
  : float :=
  sdot_loop (simd_rounds l) f0 x xo y yo.

(** [x[i] *= a] at [x + xo]. *)
Definition scale1 (x : buf float) (xo : Z) (a : float) (i : Z) : buf float :=
  store x (xo + i) (x (xo + i) *f a).

(** The loop of [sscal] unrolled five times: returns the buffer and [i]. *)
Fixpoint sscal_main (n : nat) (x : buf float) (xo : Z) (a : float) (i : Z)
  : buf float * Z :=
  match n with
  | O => (x, i)
  | S n' =>
      let x := scale1 x xo a i in
      let x := scale1 x xo a (i + 1) in
      let x := scale1 x xo a (i + 2) in
      let x := scale1 x xo a (i + 3) in
      let x := scale1 x xo a (i + 4) in
      sscal_main n' x xo a (i + 5)
  end.

(** [sscal(x + xo, a, l)]: the unrolled loop over [i < l - 4], then the
    clean-up loop up to [l]. *)
Definition sscal (x : buf float) (xo : Z) (a : float) (l : Z) : buf float :=
  let m := l - 4 in
  let '(x1, i) := sscal_main (Z.to_nat ((m + 4) / 5)) x xo a 0 in
  for_upto i l (fun c x => scale1 x xo a c) x1.

(** [snrm2(x + xo, l)]. *)
Definition snrm2 (x : buf float) (xo : Z) (l : Z) : float :=
  let xx := sdot x xo x xo l in
  sqrt_f xx.

(** [szero(v + vo, l)]: memset of l floats to the all-zero pattern, +0. *)
Definition szero (v : buf float) (vo : Z) (l : Z) : buf float :=
  fun j => if (vo <=? j) && (j <? vo + l) then f0 else v j.

(** The [int] value of a C comparison, converted to [float]. *)
Definition float_of_bool (b : bool) : float :=
  float_of_int (if b then 1 else 0).

(** [saturate(x) = x - (x < 0) * x + (x > 1) * (1 - x)]. *)
Definition saturate (x : float) : float :=
  (x -f float_of_bool (x <f f0) *f x) +f float_of_bool (f1 <f x) *f (f1 -f x).

(** ** Variable initializer *)

(** The index array of [n] entries, as the sweeps read it. *)
Definition index_array (n : Z) (index : buf Z) : list Z :=
  map (fun c => index (Z.of_nat c)) (seq 0 (Z.to_nat n)).

(** The body of the first loop of [mix_init], for variable [i]. *)
Definition mix_init_row (k : Z) (is_input : buf Z) (z : buf float) (i : Z)
    (V : buf float) : buf float :=
  if negb (is_input i =? 0) then
    let Vi1 := V (i * k + 1) in
    let V := szero V (i * k) k in
    let V := store V (i * k)
               (float_of_double (dneg (cos_d (double_of_float (z i) *d M_PI)))) in
    store V (i * k + 1)
      (float_of_double
         (copysign_d (sin_d (double_of_float (z i) *d M_PI)) (double_of_float Vi1)))
  else
    let s := sdot V (i * k) V (i * k) k in
    let s := f1 /f sqrt_f s in
    sscal V (i * k) s k.

(** [mix_init(perm, n, k, is_input, index, z, V)]: returns [V] and [index]. *)
Definition mix_init (perm : buf Z) (n k : Z) (is_input : buf Z) (index : buf Z)
    (z : buf float) (V : buf float) : buf float * buf Z :=
  let V := for_upto 0 n (mix_init_row k is_input z) V in
  let '(index, j) :=
    for_upto 0 (n - 1)
      (fun i_ '(index, j) =>
         let i := perm i_ + 1 in
         if is_input i =? 0 then (store index j i, j + 1) else (index, j))
      (index, 0) in
  let index := for_upto j n (fun j index => store index j 0) index in
  (V, index).

(** ** Coordinate-update kernel *)

(** The buffers [mix_kernel] writes: its parameters [V], [W], [gnrm], [g]. *)
Record kernel_bufs := {
  kV : buf float;
  kW : buf float;
  kgnrm : buf float;
  kg : buf float
}.

(** The body of the sweep of [mix_kernel] for variable [i]; [delta] is the
    running sum.  [is_forward] is the [int] flag of the source, which its
    two callers pass as the literals 1 and 0. *)
Definition mix_kernel_step (is_forward : bool) (prox_lam : float) (m k : Z)
    (Smat dz Vproj Snrms : buf float) (i : Z) (acc : kernel_bufs * float)
  : kernel_bufs * float :=
  let '(b, delta) := acc in
  let V := kV b in
  let W := kW b in
  let gnrm := kgnrm b in
  let g := kg b in
  let Sii := Snrms i in
  let g := for_upto 0 k (fun kk g => store g kk (sdot Smat (i * m) W (kk * m) m)) g in
  let g := saxpy g 0 (fneg Sii) V (i * k) k in
  let '(gnrmi, g) :=
    if is_forward then
      let gnrmi := snrm2 g 0 k in
      (gnrmi, sscal g 0 (float_of_int (-1)) k)
    else
      let gnrmi := gnrm i +f prox_lam in
      let c := sdot Vproj (i * k) g 0 k +f dz i *f Vproj (i * k) in
      let g := sscal g 0 (float_of_int (-1)) k in
      let g := saxpy g 0 c Vproj (i * k) k in
      (gnrmi, store g 0 (g 0 -f dz i)) in
  let g := sscal g 0 (f1 /f gnrmi) k in
  let '(g, V) :=
    for_upto 0 k
      (fun kk '(g, V) =>
         let t := g kk in
         (store g kk (g kk -f V (i * k + kk)), store V (i * k + kk) t))
      (g, V) in
  let W := for_upto 0 k (fun kk W => saxpy W (kk * m) (g kk) Smat (i * m) m) W in
  if is_forward then
    ({| kV := V; kW := W; kgnrm := store gnrm i gnrmi; kg := g |},
     delta +f gnrmi *f sdot g 0 g 0 k)
  else
    ({| kV := V; kW := W; kgnrm := gnrm; kg := g |}, delta).

(** [mix_kernel(is_forward, prox_lam, m, k, index, S, dz, V, Vproj, W, gnrm,
    Snrms, g)]: one sweep over the visited ids; returns the buffers written
    and [delta]. *)
Definition mix_kernel (is_forward : bool) (prox_lam : float) (m k : Z)
    (index : list Z) (Smat dz Vproj Snrms : buf float) (b : kernel_bufs)
  : kernel_bufs * float :=
  fold_left
    (fun acc i => mix_kernel_step is_forward prox_lam m k Smat dz Vproj Snrms i acc)
    (visited index) (b, f0).

(** What stands for the [NULL] pointers the forward pass hands to the kernel
    for [dz] and [Vproj]; forward mode reads neither. *)
Definition null_buf : buf float := fun _ => f0.

(** ** Forward solver *)

(** The iteration of [mix_forward], from loop counter [iter] with [fuel]
    rounds left before [iter] reaches [max_iter].  [calls] logs every
    [mix_kernel] invocation with the mode flag it was given (it is not a
    variable of the source).  Returns [iter], the buffers and the log when the
    loop is left. *)
Fixpoint forward_loop (m k : Z) (index : list Z) (Smat Snrms : buf float)
    (fuel : nat) (iter : Z) (eps : float) (b : kernel_bufs) (calls : list bool)
  : Z * kernel_bufs * list bool :=
  match fuel with
  | O => (iter, b, calls)
  | S fuel' =>
      let '(b, delta) :=
        mix_kernel true f0 m k index Smat null_buf null_buf Snrms b in
      let calls := calls ++ [true] in
      if negb (iter =? 0) && (delta <f eps) then (iter, b, calls)
      else
        let eps := if iter =? 0 then delta *f eps else eps in
        forward_loop m k index Smat Snrms fuel' (iter + 1) eps b calls
  end.

(** The decoding loop of [mix_forward]. *)
Definition decode (k : Z) (index : list Z) (V : buf float) (z : buf float)
  : buf float :=
  fold_left
    (fun z i =>
       let zi := V (i * k) in
       let zi := saturate ((zi +f f1) /f float_of_int 2) *f float_of_int 2 -f f1 in
       let zi :=
         saturate
           (float_of_double
              (double_of_int 1 -d double_of_float (acos_f zi) /d M_PI)) in
       store z i zi)
    (visited index) z.

Record forward_result := {
  fw_niter : Z;
  fw_z : buf float;
  fw_bufs : kernel_bufs;
  fw_calls : list bool
}.

(** [mix_forward(max_iter, eps, n, m, k, index, niter, S, z, V, W, gnrm,
    Snrms, cache)]; [V], [W], [gnrm] and [cache] are the kernel buffers. *)
Definition mix_forward (max_iter : Z) (eps : float) (n m k : Z) (index : list Z)
    (Smat : buf float) (z : buf float) (b : kernel_bufs) (Snrms : buf float)
  : forward_result :=
  let '(iter, b, calls) :=
    forward_loop m k index Smat Snrms (Z.to_nat max_iter) 0 eps b [] in
  {| fw_niter := iter;
     fw_z := decode k index (kV b) z;
     fw_bufs := b;
     fw_calls := calls |}.

(** ** Backward solver *)

(** The first loop of [mix_backward]: rescales [dz] at the visited ids and
    raises [invalid_flag]. *)
Definition rescale_dz (index : list Z) (z gnrm : buf float) (dz : buf float)
  : buf float * bool :=
  fold_left
    (fun '(dz, invalid_flag) i =>
       let zi := z i in
       let dzi :=
         float_of_double
           (double_of_float (dz i) /d M_PI /d sin_d (double_of_float zi *d M_PI)) in
       let invalid_flag :=
         if isnan dzi || isinf dzi || (double_of_float (gnrm i) <d MEPS)
         then true else invalid_flag in
       (store dz i dzi, invalid_flag))
    (visited index) (dz, false).

(** The sanity check of [mix_backward] over the [n * k] cells of [U]. *)
Definition nonfinite_U (n k : Z) (U : buf float) : bool :=
  for_upto 0 (n * k)
    (fun ik invalid_flag => if isnan (U ik) || isinf (U ik) then true else invalid_flag)
    false.

(** The [*niter] adjoint sweeps of [mix_backward]; the kernel's [V], [Vproj]
    and [W] are [U], [V] and [Phi]. *)
Definition adjoint_sweeps (prox_lam : float) (m k : Z) (index : list Z)
    (niter : Z) (Smat dz V Snrms : buf float) (bc : kernel_bufs * list bool)
  : kernel_bufs * list bool :=
  for_upto 0 niter
    (fun _ '(b, calls) =>
       (fst (mix_kernel false prox_lam m k index Smat dz V Snrms b),
        calls ++ [false]))
    bc.

(** [dS = U W + V Phi], accumulated onto [dS]. *)
Definition accumulate_dS (n m k : Z) (U V W Phi : buf float) (dS : buf float)
  : buf float :=
  for_upto 0 n
    (fun i dS =>
       for_upto 0 k
         (fun kk dS =>
            let dS := saxpy dS (i * m) (U (i * k + kk)) W (kk * m) m in
            saxpy dS (i * m) (V (i * k + kk)) Phi (kk * m) m)
         dS)
    dS.

(** The last loop of [mix_backward]: the gradient on the input values. *)
Definition input_gradients (n m k : Z) (is_input : buf Z)
    (Smat z V Phi : buf float) (dz : buf float) : buf float :=
  for_upto 1 n
    (fun i dz =>
       if is_input i =? 0 then store dz i f0
       else
         let val1 := sdot Smat (i * m) Phi (0 * m) m in
         let val2 := sdot Smat (i * m) Phi (1 * m) m in
         store dz i
           (float_of_double
              (double_of_float (dz i +f val1)
                 *d sin_d (double_of_float (z i) *d M_PI) *d M_PI
               +d double_of_float val2
                 *d copysign_d (cos_d (double_of_float (z i) *d M_PI) *d M_PI)
                      (double_of_float (V (i * k + 1)))
                 *d M_PI)))
    dz.

(** What [mix_backward] leaves behind.  [bw_invalid] is [invalid_flag] at the
    return and [bw_calls] the log of kernel invocations; neither is an output
    of the source. *)
Record backward_result := {
  bw_dS : buf float;
  bw_dz : buf float;
  bw_U : buf float;
  bw_Phi : buf float;
  bw_cache : buf float;
  bw_invalid : bool;
  bw_calls : list bool
}.

(** [mix_backward(prox_lam, n, m, k, is_input, index, niter, S, dS, z, dz, V,
    U, W, Phi, gnrm, Snrms, cache)]. *)
Definition mix_backward (prox_lam : float) (n m k : Z) (is_input : buf Z)
    (index : list Z) (niter : Z) (Smat : buf float) (dS : buf float)
    (z : buf float) (dz : buf float) (V : buf float) (U : buf float)
    (W : buf float) (Phi : buf float) (gnrm Snrms : buf float)
    (cache : buf float) : backward_result :=
  let '(dz, invalid_flag) := rescale_dz index z gnrm dz in
  if invalid_flag then
    {| bw_dS := dS; bw_dz := szero dz 0 n; bw_U := U; bw_Phi := Phi;
       bw_cache := cache; bw_invalid := true; bw_calls := [] |}
  else
    let '(b, calls) :=
      adjoint_sweeps prox_lam m k index niter Smat dz V Snrms
        ({| kV := U; kW := Phi; kgnrm := gnrm; kg := cache |}, []) in
    let U := kV b in
    let Phi := kW b in
    let invalid_flag := nonfinite_U n k U in
    if invalid_flag then
      {| bw_dS := dS; bw_dz := szero dz 0 n; bw_U := U; bw_Phi := Phi;
         bw_cache := kg b; bw_invalid := true; bw_calls := calls |}
    else
      let dS := accumulate_dS n m k U V W Phi dS in
      let dz := input_gradients n m k is_input Smat z V Phi dz in
      {| bw_dS := dS; bw_dz := dz; bw_U := U; bw_Phi := Phi;
         bw_cache := kg b; bw_invalid := false; bw_calls := calls |}.

End Model.

(** ** IEEE-754 arithmetic: what the compiled code computes *)

Module IEEE.

(** binary32 has [prec = 24], [emax = 128]; binary64 has [prec = 53],
    [emax = 1024].  Both are carried by [spec_float]; a finite value is kept
    in the canonical form of its format, which [SFcompare] relies on. *)
Definition round32 (x : spec_float) : spec_float :=
  match x with
  | S754_finite s m e => binary_round 24 128 s m e
  | _ => x
  end.

Definition round64 (x : spec_float) : spec_float :=
  match x with
  | S754_finite s m e => binary_round 53 1024 s m e
  | _ => x
  end.

Definition is_nan (x : spec_float) : bool :=
  match x with S754_nan => true | _ => false end.

Definition is_inf (x : spec_float) : bool :=
  match x with S754_infinity _ => true | _ => false end.

Definition is_finite (x : spec_float) : bool :=
  match x with S754_zero _ | S754_finite _ _ _ => true | _ => false end.

(** The sign bit.  [spec_float] keeps none for a NaN: [nan_sign] is the bit
    the NaN carries in the machine. *)
Definition sign_bit (nan_sign : bool) (x : spec_float) : bool :=
  match x with
  | S754_zero s | S754_infinity s | S754_finite s _ _ => s
  | S754_nan => nan_sign
  end.

(** [copysign(x, y)] of math.h: the magnitude of [x] with the sign bit of
    [y], also when [y] is a NaN. *)
Definition copysign (nan_sign : bool) (x y : spec_float) : spec_float :=
  if sign_bit nan_sign y then SFopp (SFabs x) else SFabs x.

(** [M_PI] of math.h, 0x1.921fb54442d18p+1. *)
Definition pi64 : spec_float := S754_finite false 7074237752028440 (-51).

(** The double nearest to 1e-24, 0x1.357c299a88ea7p-80. *)
Definition d1em24 : spec_float := S754_finite false 5444517870735015 (-132).

(** What the arithmetic takes from the platform: the three math.h functions
    the source calls whose values no standard fixes bit for bit, and the sign
    bit of a NaN handed to [copysign], which [spec_float] does not record
    (SSE arithmetic gives the NaN of an invalid operation the sign bit 1; a
    NaN that comes from the caller may carry either). *)
Record libm := {
  lm_sin : spec_float -> spec_float;
  lm_cos : spec_float -> spec_float;
  lm_acosf : spec_float -> spec_float;
  lm_nan_sign : bool
}.

Definition ops (lm : libm) : FloatOps := {|
  float := spec_float;
  double := spec_float;
  fadd := SFadd 24 128;
  fsub := SFsub 24 128;
  fmul := SFmul 24 128;
  fdiv := SFdiv 24 128;
  fneg := SFopp;
  sqrt_f := SFsqrt 24 128;
  flt := SFltb;
  float_of_int := fun z => binary_normalize 24 128 z 0 false;
  isnan := is_nan;
  isinf := is_inf;
  dadd := SFadd 53 1024;
  dsub := SFsub 53 1024;
  dmul := SFmul 53 1024;
  ddiv := SFdiv 53 1024;
  dneg := SFopp;
  dlt := SFltb;
  double_of_int := fun z => binary_normalize 53 1024 z 0 false;
  double_of_float := round64;
  float_of_double := round32;
  M_PI := pi64;
  sin_d := lm_sin lm;
  cos_d := lm_cos lm;
  copysign_d := copysign (lm_nan_sign lm);
  acos_f := lm_acosf lm;
  lit_1em24 := d1em24
|}.

Definition one64 : spec_float := binary_normalize 53 1024 1 0 false.
Definition one32 : spec_float := binary_normalize 24 128 1 0 false.

(** A [libm] cut down to the arguments at which ISO C (Annex F.10.1) fixes
    the result exactly: NaN in, NaN out; [sin] keeps a zero; [cos] of a zero
    is 1; [sin] and [cos] of an infinity and [acosf] outside [-1, 1] are NaN;
    [acosf(1)] is +0.  Every other argument is outside the table, which
    answers NaN there; what the closed statements below assert depends on it
    at arguments of the table only.  The sign of a NaN is that of the SSE
    default NaN; no closed statement below applies [copysign] to a NaN. *)
Definition annex_f : libm := {|
  lm_sin := fun x => match x with S754_zero _ => x | _ => S754_nan end;
  lm_cos := fun x => match x with S754_zero _ => one64 | _ => S754_nan end;
  lm_acosf := fun x => if SFeqb x one32 then S754_zero false else S754_nan;
  lm_nan_sign := true
|}.

(** The IEEE arithmetic with that table for [libm]. *)
Definition annex_ops : FloatOps := ops annex_f.

End IEEE.

(** ** Exact arithmetic: what the invariants of the method are stated in *)

Module Exact.

Definition Rltb (x y : R) : bool := if Rlt_dec x y then true else false.

(** Both C types are the reals, no value is NaN or infinite, the conversions
    are the identity and the math.h functions are the real ones. *)
Definition ops : FloatOps := {|
  float := R;
  double := R;
  fadd := Rplus;
  fsub := Rminus;
  fmul := Rmult;
  fdiv := Rdiv;
  fneg := Ropp;
  sqrt_f := sqrt;
  flt := Rltb;
  float_of_int := IZR;
  isnan := fun _ => false;
  isinf := fun _ => false;
  dadd := Rplus;
  dsub := Rminus;
  dmul := Rmult;
  ddiv := Rdiv;
  dneg := Ropp;
  dlt := Rltb;
  double_of_int := IZR;
  double_of_float := fun x => x;
  float_of_double := fun x => x;
  M_PI := PI;
  sin_d := sin;
  cos_d := cos;
  copysign_d := fun x y => if Rlt_dec y 0 then Ropp (Rabs x) else Rabs x;
  acos_f := acos;
  lit_1em24 := Rinv (IZR (10 ^ 24))
|}.

(** Sum of [f 0 .. f (n-1)]. *)
Fixpoint rsum (n : nat) (f : Z -> R) : R :=
  match n with
  | O => 0%R
  | S n' => (rsum n' f + f (Z.of_nat n'))%R
  end.

(** Squared Euclidean norm of row [i] of a matrix with [k] columns. *)
Definition row_norm2 (k : Z) (V : buf R) (i : Z) : R :=
  rsum (Z.to_nat k) (fun kk => Rmult (V (i * k + kk)) (V (i * k + kk))).

(** [W = sum_i V_i (x) S_i] over the [n] variables, cell by cell. *)
Definition accumulator_ok (n m k : Z) (Smat V W : buf R) : Prop :=
  forall kk j, 0 <= kk < k -> 0 <= j < m ->
    W (kk * m + j) = rsum (Z.to_nat n) (fun i => Rmult (V (i * k + kk)) (Smat (i * m + j))).

End Exact.

(** ** Sample instances *)

(** Small instances for the closed statements below: two variables (the
    reference variable 0 and variable 1), [m = 4] clauses, [k = 4]
    coordinates, so every row is one lane group. *)
Module Sample.

(** A buffer with the listed cells, [zero] elsewhere. *)
Fixpoint cells {T : Type} (zero : T) (l : list (Z * T)) : buf T :=
  match l with
  | [] => fun _ => zero
  | (c, v) :: rest => fun j => if j =? c then v else cells zero rest j
  end.

(** The binary32 value of an integer. *)
Definition fl (z : Z) : spec_float := binary_normalize 24 128 z 0 false.

Definition zeros : buf spec_float := cells (fl 0) [].

(** Rows of [V]: the reference direction e0, and e1 for variable 1. *)
Definition V_e0_e1 : buf spec_float := cells (fl 0) [(0, fl 1); (5, fl 1)].

(** "Pull": variables 0 and 1 both occur in clause 0 with weight 1, so row 1
    is driven to -e0.  [W] holds the accumulator for [V_e0_e1]. *)
Definition pull_S : buf spec_float := cells (fl 0) [(0, fl 1); (4, fl 1)].
Definition pull_Snrms : buf spec_float := cells (fl 0) [(0, fl 1); (1, fl 1)].
Definition pull_W : buf spec_float := cells (fl 0) [(0, fl 1); (4, fl 1)].

(** "Pull" at its fixed point: row 1 is -e0 and the accumulator is 0. *)
Definition pulled_V : buf spec_float := cells (fl 0) [(0, fl 1); (4, fl (-1))].

(** "Flat": variable 1 is alone in clause 0, so its gradient
    [W S_1 - |S_1|^2 V_1] vanishes.  [W] holds the accumulator for
    [V_e0_e1]. *)
Definition flat_S : buf spec_float := cells (fl 0) [(4, fl 1)].
Definition flat_Snrms : buf spec_float := cells (fl 0) [(1, fl 1)].
Definition flat_W : buf spec_float := cells (fl 0) [(4, fl 1)].

(** The kernel buffers [V], [W], [gnrm], [cache] the forward pass starts
    from. *)
Definition pull_start (lm : IEEE.libm) : @kernel_bufs (IEEE.ops lm) :=
  @Build_kernel_bufs (IEEE.ops lm) V_e0_e1 pull_W zeros zeros.
Definition pulled_start (lm : IEEE.libm) : @kernel_bufs (IEEE.ops lm) :=
  @Build_kernel_bufs (IEEE.ops lm) pulled_V zeros zeros zeros.
Definition flat_start (lm : IEEE.libm) : @kernel_bufs (IEEE.ops lm) :=
  @Build_kernel_bufs (IEEE.ops lm) V_e0_e1 flat_W zeros zeros.

(** Variable 1 is free: the index array visits it. *)
Definition index_free : list Z := [1; 0].

(** Variable 1 is an input: nothing is visited. *)
Definition index_none : list Z := [0; 0].

(** Input flags: variable 0 only, or both variables. *)
Definition input_0 : buf Z := cells 0 [(0, 1)].
Definition input_01 : buf Z := cells 0 [(0, 1); (1, 1)].
Definition no_input : buf Z := cells 0 [].

(** Incoming gradients on [z], and a [dS] that is 1 everywhere. *)
Definition dz_1 : buf spec_float := cells (fl 0) [(1, fl 1)].
Definition dz_7_1 : buf spec_float := cells (fl 0) [(0, fl 7); (1, fl 1)].
Definition ones : buf spec_float := cells (fl 1) [].
Definition gnrm_1 : buf spec_float := cells (fl 0) [(1, fl 1)].

(** Rows of [V] as a caller may seed them: row 0 is (3, 4, 0, 0), or
    (2, 0, 0, 0); row 1 is e1. *)
Definition V_seed34 : buf spec_float := cells (fl 0) [(0, fl 3); (1, fl 4); (5, fl 1)].
Definition V_seed2 : buf spec_float := cells (fl 0) [(0, fl 2); (5, fl 1)].

(** 2^-10. *)
Definition eps10 : spec_float := binary_normalize 24 128 1 (-10) false.

(** Does a value lie in [0, 1]? *)
Definition in_unit (x : spec_float) : bool :=
  SFleb (fl 0) x && SFleb x (fl 1).

(** The same "pull" instance over the reals. *)
Definition rV_e0_e1 : buf R := cells 0%R [(0, 1%R); (5, 1%R)].
Definition rpull_S : buf R := cells 0%R [(0, 1%R); (4, 1%R)].
Definition rpull_Snrms : buf R := cells 0%R [(0, 1%R); (1, 1%R)].
Definition rpull_W : buf R := cells 0%R [(0, 1%R); (4, 1%R)].
Definition rzeros : buf R := cells 0%R [].

(** An adjoint step from [U = 0], [Phi = 0] for variable 1 with projection
    row e1, incoming [dz[1] = 2] and stored norm [gnrm[1] = 1]. *)
Definition rproj : buf R := cells 0%R [(5, 1%R)].
Definition rdz : buf R := cells 0%R [(1, 2%R)].
Definition rgnrm : buf R := cells 0%R [(1, 1%R)].

Definition rpull_start : @kernel_bufs Exact.ops :=
  @Build_kernel_bufs Exact.ops rV_e0_e1 rpull_W rzeros rzeros.
Definition radjoint_start : @kernel_bufs Exact.ops :=
  @Build_kernel_bufs Exact.ops rzeros rzeros rgnrm rzeros.

End Sample.

(** ** The sequence of forward sweeps *)

Section Sweeps.
Context {ops : FloatOps}.
Variables (m k : Z) (index : list Z) (Smat Snrms : buf float).

(** One sweep as [mix_forward] asks for it:
    [mix_kernel(1, 0, m, k, index, S, NULL, V, NULL, W, gnrm, Snrms, cache)]. *)
Definition forward_sweep (b : kernel_bufs) : kernel_bufs * float :=
  mix_kernel true f0 m k index Smat null_buf null_buf Snrms b.

(** The buffers after [t] sweeps from [b]. *)
Fixpoint sweep_bufs (t : nat) (b : kernel_bufs) : kernel_bufs :=
  match t with
  | O => b
  | S t' => fst (forward_sweep (sweep_bufs t' b))
  end.

(** The movement returned by sweep number [t], counted from 0. *)
Definition sweep_delta (t : nat) (b : kernel_bufs) : float :=
  snd (forward_sweep (sweep_bufs t b)).

(** What the decoding loop writes for id [i], from the final [V]. *)
Definition decoded (k : Z) (V : buf float) (i : Z) : float :=
  let zi := V (i * k) in
  let zi := saturate ((zi +f f1) /f float_of_int 2) *f float_of_int 2 -f f1 in
  saturate
    (float_of_double (double_of_int 1 -d double_of_float (acos_f zi) /d M_PI)).

(** The phases of one step of the kernel, named for the proofs: the vector
    [g] after [saxpy(g, -Sii, V + i * k, k)], and the divisor [gnrmi] with
    the new row after [sscal(g, 1 / gnrmi, k)]. *)
Definition kernel_gradient (m k : Z) (Smat Snrms : buf float) (i : Z)
    (b : kernel_bufs) : buf float :=
  saxpy
    (for_upto 0 k (fun kk g => store g kk (sdot Smat (i * m) (kW b) (kk * m) m)) (kg b))
    0 (fneg (Snrms i)) (kV b) (i * k) k.

Definition kernel_direction (is_forward : bool) (prox_lam : float) (m k : Z)
    (Smat dz Vproj Snrms : buf float) (i : Z) (b : kernel_bufs)
  : float * buf float :=
  let g := kernel_gradient m k Smat Snrms i b in
  let '(gnrmi, g) :=
    if is_forward then
      let gnrmi := snrm2 g 0 k in
      (gnrmi, sscal g 0 (float_of_int (-1)) k)
    else
      let gnrmi := kgnrm b i +f prox_lam in
      let c := sdot Vproj (i * k) g 0 k +f dz i *f Vproj (i * k) in
      let g := sscal g 0 (float_of_int (-1)) k in
      let g := saxpy g 0 c Vproj (i * k) k in
      (gnrmi, store g 0 (g 0 -f dz i)) in
  (gnrmi, sscal g 0 (f1 /f gnrmi) k).

(** What the rescaling loop of [mix_backward] computes for id [i] from the
    incoming [dz], and its test for flagging the instance. *)
Definition rescaled (z dz : buf float) (i : Z) : float :=
  float_of_double
    (double_of_float (dz i) /d M_PI /d sin_d (double_of_float (z i) *d M_PI)).

Definition degenerate (z gnrm dz : buf float) (i : Z) : bool :=
  isnan (rescaled z dz i) || isinf (rescaled z dz i)
  || (double_of_float (gnrm i) <d MEPS).

End Sweeps.


(** ** Reference definitions for the initializer *)

(** The ids the first index loop of [mix_init] keeps in its first [t]
    rounds: [perm[i_] + 1] for [i_ < t], in that order, without those
    flagged as inputs. *)
Definition free_ids (perm is_input : buf Z) (t : nat) : list Z :=
  filter (fun i => is_input i =? 0)
    (map (fun i_ => perm (Z.of_nat i_) + 1) (seq 0 t)).

(** ** Reference definitions for the backward pass *)

(** What the last loop of [mix_backward] stores in [dz[i]] for an input
    variable [i], from the value [dz[i]] holds when the loop reaches it. *)
Definition input_gradient {ops : FloatOps} (m k : Z) (Smat z V Phi dz : buf float)
    (i : Z) : float :=
  let val1 := sdot Smat (i * m) Phi (0 * m) m in
  let val2 := sdot Smat (i * m) Phi (1 * m) m in
  float_of_double
    (double_of_float (dz i +f val1)
       *d sin_d (double_of_float (z i) *d M_PI) *d M_PI
     +d double_of_float val2
       *d copysign_d (cos_d (double_of_float (z i) *d M_PI) *d M_PI)
            (double_of_float (V (i * k + 1)))
       *d M_PI).

(** ** Batch launcher of the initializer *)

(** A buffer seen from the pointer [b + off], and what [b] holds once a
    callee that was handed [b + off] has left [v]. *)
Definition offset {T : Type} (b : buf T) (off : Z) : buf T := fun j => b (off + j).
Definition unoffset {T : Type} (v : buf T) (off : Z) : buf T := fun j => v (j - off).

(** Iteration [i] of the loop of [mix_init_launcher_cpu]:
    [mix_init(perm, n, k, is_input + i * n, index + i * n, z + i * n,
    V + i * n * k)]; the state is the pair of the arrays [mix.V] and
    [mix.index], the two the callee writes. *)
Definition mix_init_iteration {ops : FloatOps} (perm : buf Z) (n k : Z)
    (is_input : buf Z) (z : buf float) (i : Z) (st : buf float * buf Z)
  : buf float * buf Z :=
  let '(V, index) := st in
  let '(V', index') :=
    mix_init perm n k (offset is_input (i * n)) (offset index (i * n))
      (offset z (i * n)) (offset V (i * n * k)) in
  (unoffset V' (i * n * k), unoffset index' (i * n)).

(** [mix_init_launcher_cpu(mix, perm)], with [n], [k], [is_input], [index],
    [z], [V] the fields of [mix] it uses.  The loop over the [mix.b] batch
    elements is an OpenMP [parallel for] with a dynamic schedule: its
    iterations are taken here one at a time, in the order [schedule] in which
    the run time hands them out, [0, 1, ..., b - 1] being the order of the
    loop without the pragma. *)
Definition mix_init_launcher_cpu {ops : FloatOps} (schedule : list Z)
    (perm : buf Z) (n k : Z) (is_input index : buf Z) (z V : buf float)
  : buf float * buf Z :=
  fold_left (fun st i => mix_init_iteration perm n k is_input z i st)
    schedule (V, index).

(** ** Further sample data *)

Module Probe.

(** The identity permutation: [perm[i_] + 1] runs over the ids 1, 2, ... *)
Definition perm_id : buf Z := fun i_ => i_.

(** An index array that nothing was written to yet. *)
Definition index_blank : buf Z := fun _ => 7.

(** Binary32 and real vectors (1, 2, 3, 4, 5, ...) from cell 0 on. *)
Definition ramp : buf spec_float := fun j => Sample.fl (j + 1).
Definition rramp : buf R := fun j => IZR (j + 1).

End Probe.

(** ** Batch launchers of the two passes *)

(** Two buffers hold the same values in the cells [lo <= j < hi]. *)
Definition same_on {T : Type} (lo hi : Z) (x y : buf T) : Prop :=
  forall j, lo <= j < hi -> x j = y j.

(** Two sets of kernel buffers hold the same values in the cells of one
    instance: [n * k] of [V], [k * m] of [W], [n] of [gnrm], [k] of [g]. *)
Definition kernel_bufs_agree {ops : FloatOps} (n m k : Z) (b b' : kernel_bufs)
  : Prop :=
  same_on 0 (n * k) (kV b) (kV b')
  /\ same_on 0 (k * m) (kW b) (kW b')
  /\ same_on 0 n (kgnrm b) (kgnrm b')
  /\ same_on 0 k (kg b) (kg b').

(** The arrays of [mix] that [mix_forward_launcher_cpu] has written. *)
Record forward_arrays {ops : FloatOps} := {
  fa_niter : buf Z;
  fa_z : buf float;
  fa_V : buf float;
  fa_W : buf float;
  fa_gnrm : buf float;
  fa_cache : buf float
}.

(** [mix.index + i * n], the [n] entries of batch element [i]. *)
Definition index_slice (n : Z) (index : buf Z) (i : Z) : list Z :=
  index_array n (offset index (i * n)).

(** What iteration [i] of the loop of [mix_forward_launcher_cpu] hands to
    [mix_forward] as [V], [W], [gnrm] and [cache]. *)
Definition forward_slices {ops : FloatOps} (n m k : Z) (a : forward_arrays) (i : Z)
  : kernel_bufs :=
  {| kV := offset (fa_V a) (i * n * k);
     kW := offset (fa_W a) (i * m * k);
     kgnrm := offset (fa_gnrm a) (i * n);
     kg := offset (fa_cache a) (i * k) |}.

(** Iteration [i]: [mix_forward(max_iter, eps, n, m, k, index + i * n,
    niter + i, S, z + i * n, V + i * n * k, W + i * m * k, gnrm + i * n,
    Snrms, cache + i * k)]. *)
Definition mix_forward_iteration {ops : FloatOps} (max_iter : Z) (eps : float)
    (n m k : Z) (index : buf Z) (Smat Snrms : buf float) (i : Z)
    (a : forward_arrays) : forward_arrays :=
  let r :=
    mix_forward max_iter eps n m k (index_slice n index i) Smat
      (offset (fa_z a) (i * n)) (forward_slices n m k a i) Snrms in
  {| fa_niter := store (fa_niter a) i (fw_niter r);
     fa_z := unoffset (fw_z r) (i * n);
     fa_V := unoffset (kV (fw_bufs r)) (i * n * k);
     fa_W := unoffset (kW (fw_bufs r)) (i * m * k);
     fa_gnrm := unoffset (kgnrm (fw_bufs r)) (i * n);
     fa_cache := unoffset (kg (fw_bufs r)) (i * k) |}.

(** [mix_forward_launcher_cpu(mix, max_iter, eps)], the iterations of its
    parallel loop taken one at a time in the order [schedule], as for
    [mix_init_launcher_cpu]. *)
Definition mix_forward_launcher_cpu {ops : FloatOps} (schedule : list Z)
    (max_iter : Z) (eps : float) (n m k : Z) (index : buf Z)
    (Smat Snrms : buf float) (a : forward_arrays) : forward_arrays :=
  fold_left
    (fun a i => mix_forward_iteration max_iter eps n m k index Smat Snrms i a)
    schedule a.

(** Two states of the arrays hold the same values in the cells of batch
    element [i]. *)
Definition forward_slice_same {ops : FloatOps} (n m k i : Z) (a a' : forward_arrays)
  : Prop :=
  fa_niter a i = fa_niter a' i
  /\ same_on (i * n) (i * n + n) (fa_z a) (fa_z a')
  /\ same_on (i * n * k) (i * n * k + n * k) (fa_V a) (fa_V a')
  /\ same_on (i * m * k) (i * m * k + k * m) (fa_W a) (fa_W a')
  /\ same_on (i * n) (i * n + n) (fa_gnrm a) (fa_gnrm a')
  /\ same_on (i * k) (i * k + k) (fa_cache a) (fa_cache a').

(** The arrays of [mix] that [mix_backward_launcher_cpu] has written. *)
Record backward_arrays {ops : FloatOps} := {
  ba_dS : buf float;
  ba_dz : buf float;
  ba_U : buf float;
  ba_Phi : buf float;
  ba_cache : buf float
}.

(** Iteration [i]: [mix_backward(prox_lam, n, m, k, is_input + i * n,
    index + i * n, niter + i, S, dS + i * n * m, z + i * n, dz + i * n,
    V + i * n * k, U + i * n * k, W + i * m * k, Phi + i * m * k,
    gnrm + i * n, Snrms, cache + i * k)]; the callee reads [*niter], which is
    [niter[i]]. *)
Definition mix_backward_iteration {ops : FloatOps} (prox_lam : float) (n m k : Z)
    (is_input index niter : buf Z) (Smat z V W gnrm Snrms : buf float) (i : Z)
    (a : backward_arrays) : backward_arrays :=
  let rb :=
    mix_backward prox_lam n m k (offset is_input (i * n)) (index_slice n index i)
      (niter i) Smat (offset (ba_dS a) (i * n * m)) (offset z (i * n))
      (offset (ba_dz a) (i * n)) (offset V (i * n * k)) (offset (ba_U a) (i * n * k))
      (offset W (i * m * k)) (offset (ba_Phi a) (i * m * k)) (offset gnrm (i * n))
      Snrms (offset (ba_cache a) (i * k)) in
  {| ba_dS := unoffset (bw_dS rb) (i * n * m);
     ba_dz := unoffset (bw_dz rb) (i * n);
     ba_U := unoffset (bw_U rb) (i * n * k);
     ba_Phi := unoffset (bw_Phi rb) (i * m * k);
     ba_cache := unoffset (bw_cache rb) (i * k) |}.

(** [mix_backward_launcher_cpu(mix, prox_lam)], the iterations of its
    parallel loop taken one at a time in the order [schedule]. *)
Definition mix_backward_launcher_cpu {ops : FloatOps} (schedule : list Z)
    (prox_lam : float) (n m k : Z) (is_input index niter : buf Z)
    (Smat z V W gnrm Snrms : buf float) (a : backward_arrays) : backward_arrays :=
  fold_left
    (fun a i =>
       mix_backward_iteration prox_lam n m k is_input index niter Smat z V W gnrm
         Snrms i a)
    schedule a.

Definition backward_slice_same {ops : FloatOps} (n m k i : Z)
    (a a' : backward_arrays) : Prop :=
  same_on (i * n * m) (i * n * m + n * m) (ba_dS a) (ba_dS a')
  /\ same_on (i * n) (i * n + n) (ba_dz a) (ba_dz a')
  /\ same_on (i * n * k) (i * n * k + n * k) (ba_U a) (ba_U a')
  /\ same_on (i * m * k) (i * m * k + k * m) (ba_Phi a) (ba_Phi a')
  /\ same_on (i * k) (i * k + k) (ba_cache a) (ba_cache a').

(** ** A sample batch *)

(** Two batch elements of two variables each, [m = 4], [k = 4]; in both
    elements variable 1 is free, so each slice of the index array is
    (1, 0). *)
Module Batch.

Definition index2 : buf Z := Sample.cells 0 [(0, 1); (2, 1)].

Definition niter2 : buf Z := fun _ => 1.

Definition forward_start : @forward_arrays IEEE.annex_ops :=
  @Build_forward_arrays IEEE.annex_ops (fun _ => 0) Sample.zeros Sample.V_e0_e1
    Sample.pull_W Sample.zeros Sample.zeros.

Definition backward_start : @backward_arrays IEEE.annex_ops :=
  @Build_backward_arrays IEEE.annex_ops Sample.ones Sample.dz_1 Sample.zeros
    Sample.zeros Sample.zeros.

End Batch.

(** * Properties *)

(** ** Buffers, loops and the visited ids *)

Lemma store_same {T : Type} (b : buf T) (i : Z) (v : T) : store b i v i = v.
Proof. unfold store. now rewrite Z.eqb_refl. Qed.

Lemma store_other {T : Type} (b : buf T) (i j : Z) (v : T) :
  j <> i -> store b i v j = b j.
Proof. intros H. unfold store. now apply Z.eqb_neq in H as ->. Qed.

(** An invariant that every round keeps holds when the loop is left. *)
Lemma for_range_inv {A : Type} (P : Z -> A -> Prop) (body : Z -> A -> A) :
  forall n i a,
    P i a ->
    (forall c x, i <= c < i + Z.of_nat n -> P c x -> P (c + 1) (body c x)) ->
    P (i + Z.of_nat n) (for_range n i body a).
Proof.
  induction n as [|n IH]; intros i a Ha Hstep.
  - simpl. now rewrite Z.add_0_r.
  - cbn [for_range].
    replace (i + Z.of_nat (S n)) with ((i + 1) + Z.of_nat n) by lia.
    apply IH.
    + apply Hstep; [lia | exact Ha].
    + intros c x Hc. apply Hstep. lia.
Qed.

Lemma for_upto_inv {A : Type} (P : Z -> A -> Prop) (body : Z -> A -> A) :
  forall lo hi a,
    lo <= hi ->
    P lo a ->
    (forall c x, lo <= c < hi -> P c x -> P (c + 1) (body c x)) ->
    P hi (for_upto lo hi body a).
Proof.
  intros lo hi a Hle Ha Hstep. unfold for_upto.
  replace hi with (lo + Z.of_nat (Z.to_nat (hi - lo))) at 1 by lia.
  apply for_range_inv; [exact Ha|].
  intros c x Hc. apply Hstep. lia.
Qed.

Lemma for_upto_empty {A : Type} (body : Z -> A -> A) lo hi a :
  hi <= lo -> for_upto lo hi body a = a.
Proof.
  intros H. unfold for_upto.
  replace (Z.to_nat (hi - lo)) with O by lia. reflexivity.
Qed.

Lemma visited_nonzero (index : list Z) (i : Z) :
  In i (visited index) -> i <> 0.
Proof.
  induction index as [|a rest IH]; simpl; [tauto|].
  destruct (Z.eqb_spec a 0) as [->|Ha]; simpl; [tauto|].
  intros [<-|H]; auto.
Qed.

Lemma visited_incl (index : list Z) (i : Z) :
  In i (visited index) -> In i index.
Proof.
  induction index as [|a rest IH]; simpl; [tauto|].
  destruct (Z.eqb_spec a 0) as [->|Ha]; simpl; [tauto|].
  intros [<-|H]; auto.
Qed.

(** A row other than row 0 shares no cell with row 0. *)
Lemma row0_disjoint (i k j : Z) :
  i <> 0 -> 0 <= j < k -> ~ (i * k <= j < i * k + k).
Proof. intros Hi Hj. nia. Qed.

Section Properties.
Context {ops : FloatOps}.

(** ** Frame of the coordinate-update kernel *)

(** The exchange loop of the kernel writes [V] only inside row [i]. *)
Lemma exchange_loop_V_frame (i k : Z) :
  forall n c (g V : buf float) j,
    j < i * k + c \/ i * k + c + Z.of_nat n <= j ->
    snd (for_range n c
           (fun kk '(g, V) =>
              let t := g kk in
              (store g kk (g kk -f V (i * k + kk)), store V (i * k + kk) t))
           (g, V)) j = V j.
Proof.
  induction n as [|n IH]; intros c g V j Hj; [reflexivity|].
  cbn [for_range]. rewrite IH by lia.
  apply store_other. lia.
Qed.

Lemma mix_kernel_step_V_frame is_forward prox_lam m k Smat dz Vproj Snrms i b delta j :
  ~ (i * k <= j < i * k + k) ->
  kV (fst (mix_kernel_step is_forward prox_lam m k Smat dz Vproj Snrms i (b, delta))) j
  = kV b j.
Proof.
  intros Hj. unfold mix_kernel_step.
  destruct is_forward; cbv zeta;
    match goal with
    | |- context [for_upto 0 k ?body (?g0, kV b)] =>
        destruct (for_upto 0 k body (g0, kV b)) as [g' V'] eqn:EL
    end;
    apply (f_equal snd) in EL; cbn [snd] in EL; cbn [fst kV]; rewrite <- EL;
    unfold for_upto; apply exchange_loop_V_frame; lia.
Qed.

(** A sweep writes [V] only inside the rows of the visited ids. *)
Lemma mix_kernel_V_frame is_forward prox_lam m k index Smat dz Vproj Snrms b j :
  (forall i, In i (visited index) -> ~ (i * k <= j < i * k + k)) ->
  kV (fst (mix_kernel is_forward prox_lam m k index Smat dz Vproj Snrms b)) j = kV b j.
Proof.
  unfold mix_kernel. generalize f0 as delta. revert b.
  induction (visited index) as [|i l IH]; intros b delta Hj; [reflexivity|].
  cbn [fold_left].
  destruct (mix_kernel_step is_forward prox_lam m k Smat dz Vproj Snrms i (b, delta))
    as [b1 d1] eqn:E.
  rewrite IH by (intros i' Hi'; apply Hj; now right).
  change b1 with (fst (b1, d1)). rewrite <- E.
  apply mix_kernel_step_V_frame. apply Hj. now left.
Qed.

Lemma mix_kernel_row0 is_forward prox_lam m k index Smat dz Vproj Snrms b j :
  0 <= j < k ->
  kV (fst (mix_kernel is_forward prox_lam m k index Smat dz Vproj Snrms b)) j = kV b j.
Proof.
  intros Hj. apply mix_kernel_V_frame.
  intros i Hi. apply row0_disjoint; [|exact Hj].
  now apply visited_nonzero in Hi.
Qed.

(** ** The forward iteration *)

Section ForwardLoop.
Variables (m k : Z) (index : list Z) (Smat Snrms : buf float).

Let sweep := forward_sweep m k index Smat Snrms.
Let bufs_after := sweep_bufs m k index Smat Snrms.
Let delta_of := sweep_delta m k index Smat Snrms.

Lemma sweep_bufs_shift t b :
  bufs_after (S t) b = bufs_after t (fst (sweep b)).
Proof.
  induction t as [|t IH]; [reflexivity|].
  unfold bufs_after in *. cbn [sweep_bufs] in *. now rewrite IH.
Qed.

Lemma sweep_delta_shift t b :
  delta_of (S t) b = delta_of t (fst (sweep b)).
Proof.
  unfold delta_of, sweep_delta.
  change (sweep_bufs m k index Smat Snrms) with bufs_after.
  now rewrite sweep_bufs_shift.
Qed.

(** The loop from its second round on ([iter > 0], tolerance settled):
    it makes [s] sweeps and leaves either through the test ([conv]) after
    the first sweep below the tolerance, or with the fuel used up. *)
Lemma forward_loop_tail :
  forall fuel iter eps b calls,
    0 < iter ->
    exists (s : nat) (conv : bool),
      forward_loop m k index Smat Snrms fuel iter eps b calls
      = (iter + Z.of_nat s - (if conv then 1 else 0), bufs_after s b,
         calls ++ repeat true s)
      /\ (s <= fuel)%nat
      /\ (forall t, (S t < s)%nat -> (delta_of t b <f eps) = false)
      /\ (conv = true -> exists t, s = S t /\ (delta_of t b <f eps) = true)
      /\ (conv = false ->
          s = fuel /\ forall t, (t < s)%nat -> (delta_of t b <f eps) = false).
Proof.
  induction fuel as [|fuel IH]; intros iter eps b calls Hiter.
  - exists O, false. cbn. rewrite Z.add_0_r, Z.sub_0_r, app_nil_r.
    repeat split; try lia; try discriminate; intros; lia.
  - cbn [forward_loop].
    change (mix_kernel true f0 m k index Smat null_buf null_buf Snrms b)
      with (sweep b).
    destruct (sweep b) as [b1 d0] eqn:Esw.
    assert (Hd0 : delta_of O b = d0).
    { unfold delta_of, sweep_delta. cbn [sweep_bufs].
      change (forward_sweep m k index Smat Snrms b) with (sweep b).
      now rewrite Esw. }
    assert (Hb1 : fst (sweep b) = b1) by now rewrite Esw.
    assert (Hz : (iter =? 0) = false) by (apply Z.eqb_neq; lia).
    rewrite Hz. cbn [negb andb].
    destruct (d0 <f eps) eqn:Hlt.
    + exists 1%nat, true. cbn [repeat].
      unfold bufs_after. cbn [sweep_bufs].
      change (forward_sweep m k index Smat Snrms b) with (sweep b).
      rewrite Hb1. repeat split.
      * f_equal. f_equal. lia.
      * lia.
      * intros t Ht. lia.
      * intros _. exists O. now rewrite Hd0.
      * discriminate.
      * discriminate.
    + destruct (IH (iter + 1) eps b1 (calls ++ [true])) as (s & conv & E & Hle & Hno & Hc & Hx);
        [lia|].
      exists (S s), conv. rewrite E.
      rewrite sweep_bufs_shift, Hb1. repeat split.
      * f_equal; [f_equal; lia|].
        rewrite <- app_assoc. reflexivity.
      * lia.
      * intros [|t] Ht; [now rewrite Hd0|].
        rewrite sweep_delta_shift, Hb1. apply Hno. lia.
      * intros Hconv. destruct (Hc Hconv) as (t & -> & Ht).
        exists (S t). split; [reflexivity|].
        now rewrite sweep_delta_shift, Hb1.
      * apply Hx in H. lia.
      * intros [|t] Ht; [now rewrite Hd0|].
        rewrite sweep_delta_shift, Hb1.
        apply Hx; [assumption|]. apply Hx in H. lia.
Qed.

(** The whole loop, entered with [iter = 0]: the first sweep only rescales
    the tolerance. *)
Lemma forward_loop_from_0 :
  forall N eps b,
    exists (s : nat) (conv : bool),
      forward_loop m k index Smat Snrms N 0 eps b []
      = (Z.of_nat s - (if conv then 1 else 0), bufs_after s b, repeat true s)
      /\ (s <= N)%nat
      /\ (N <> O -> s <> O)
      /\ (forall t, (1 <= t)%nat -> (S t < s)%nat ->
            (delta_of t b <f delta_of O b *f eps) = false)
      /\ (conv = true ->
          exists t, s = S t /\ (1 <= t)%nat
                    /\ (delta_of t b <f delta_of O b *f eps) = true)
      /\ (conv = false ->
          s = N /\ forall t, (1 <= t)%nat -> (t < s)%nat ->
                     (delta_of t b <f delta_of O b *f eps) = false).
Proof.
  intros [|N] eps b.
  - exists O, false. cbn. repeat split; try lia; try discriminate; intros; lia.
  - cbn [forward_loop].
    change (mix_kernel true f0 m k index Smat null_buf null_buf Snrms b)
      with (sweep b).
    destruct (sweep b) as [b1 d0] eqn:Esw.
    assert (Hd0 : delta_of O b = d0).
    { unfold delta_of, sweep_delta. cbn [sweep_bufs].
      change (forward_sweep m k index Smat Snrms b) with (sweep b).
      now rewrite Esw. }
    assert (Hb1 : fst (sweep b) = b1) by now rewrite Esw.
    rewrite Z.eqb_refl. cbn [negb andb app].
    destruct (forward_loop_tail N (0 + 1) (d0 *f eps) b1 [true])
      as (s & conv & E & Hle & Hno & Hc & Hx); [lia|].
    exists (S s), conv. rewrite E, Hd0.
    rewrite sweep_bufs_shift, Hb1. repeat split.
    + f_equal. f_equal. lia.
    + lia.
    + intros _. lia.
    + intros [|t] H1 Ht; [lia|].
      rewrite sweep_delta_shift, Hb1. apply Hno. lia.
    + intros Hconv. destruct (Hc Hconv) as (t & -> & Ht).
      exists (S t). repeat split; [lia|].
      now rewrite sweep_delta_shift, Hb1.
    + apply Hx in H. lia.
    + intros [|t] H1 Ht; [lia|].
      rewrite sweep_delta_shift, Hb1.
      apply Hx; [assumption|]. apply Hx in H. lia.
Qed.

End ForwardLoop.

(** ** The forward solver *)

Lemma mix_forward_unfold max_iter eps n m k index Smat z b Snrms :
  mix_forward max_iter eps n m k index Smat z b Snrms
  = let r := forward_loop m k index Smat Snrms (Z.to_nat max_iter) 0 eps b [] in
    {| fw_niter := fst (fst r);
       fw_z := decode k index (kV (snd (fst r))) z;
       fw_bufs := snd (fst r);
       fw_calls := snd r |}.
Proof.
  unfold mix_forward.
  now destruct (forward_loop m k index Smat Snrms (Z.to_nat max_iter) 0 eps b [])
    as [[iter b'] calls].
Qed.

Lemma decode_fold k V :
  forall (l : list Z) (z : buf float) (j : Z),
    fold_left (fun z i => store z i (decoded k V i)) l z j
    = if in_dec Z.eq_dec j l then decoded k V j else z j.
Proof.
  induction l as [|a l IH]; intros z j; [reflexivity|].
  cbn [fold_left]. rewrite IH.
  destruct (in_dec Z.eq_dec j l) as [Hin|Hnin];
    destruct (in_dec Z.eq_dec j (a :: l)) as [Hin'|Hnin']; try reflexivity.
  - exfalso. apply Hnin'. now right.
  - destruct Hin' as [->|Hin]; [apply store_same | contradiction].
  - apply store_other. intros ->. apply Hnin'. now left.
Qed.

Lemma decode_spec k index V z j :
  decode k index V z j
  = if in_dec Z.eq_dec j (visited index) then decoded k V j else z j.
Proof. unfold decode. apply (decode_fold k V). Qed.

Lemma sweep_bufs_row0 m k index Smat Snrms t b j :
  0 <= j < k ->
  kV (sweep_bufs m k index Smat Snrms t b) j = kV b j.
Proof.
  intros Hj. induction t as [|t IH]; [reflexivity|].
  cbn [sweep_bufs]. unfold forward_sweep.
  now rewrite mix_kernel_row0.
Qed.

(** ** The backward solver *)

(** The rescaling loop writes [dz] only at the visited ids. *)
Lemma rescale_dz_frame index z gnrm dz j :
  ~ In j (visited index) ->
  fst (rescale_dz index z gnrm dz) j = dz j.
Proof.
  unfold rescale_dz. generalize false as flag. revert dz.
  induction (visited index) as [|i l IH]; intros dz flag Hj; [reflexivity|].
  cbn [fold_left]. rewrite IH by (intros H; apply Hj; now right).
  apply store_other. intros ->. apply Hj. now left.
Qed.

(** Once raised, [invalid_flag] stays raised. *)
Lemma rescale_dz_flag_sticky z gnrm :
  forall (l : list Z) (dz : buf float),
    snd (fold_left
           (fun '(dz, invalid_flag) i =>
              let zi := z i in
              let dzi :=
                float_of_double
                  (double_of_float (dz i) /d M_PI /d sin_d (double_of_float zi *d M_PI)) in
              let invalid_flag :=
                if isnan dzi || isinf dzi || (double_of_float (gnrm i) <d MEPS)
                then true else invalid_flag in
              (store dz i dzi, invalid_flag))
           l (dz, true)) = true.
Proof.
  induction l as [|i l IH]; intros dz; [reflexivity|].
  cbn [fold_left]. cbv zeta.
  match goal with |- context [if ?c then true else true] =>
    replace (if c then true else true) with true by now destruct c end.
  apply IH.
Qed.

(** A stored gradient norm below [MEPS] at a visited id raises the flag. *)
Lemma rescale_dz_flags_small_gnrm index z gnrm dz i :
  In i (visited index) ->
  (double_of_float (gnrm i) <d MEPS) = true ->
  snd (rescale_dz index z gnrm dz) = true.
Proof.
  unfold rescale_dz. generalize false as flag. revert dz.
  induction (visited index) as [|a l IH]; intros dz flag Hin Hlt; [destruct Hin|].
  cbn [fold_left]. cbv zeta.
  destruct Hin as [->|Hin].
  - rewrite Hlt, !orb_true_r. apply rescale_dz_flag_sticky.
  - now apply IH.
Qed.

(** With every id visited once, the rescaling loop flags the instance
    exactly when the test fires for the incoming gradient of some visited
    id, and it leaves the rescaled gradients in [dz]. *)
Lemma rescale_dz_fold z gnrm dz :
  forall (l : list Z) (dz' : buf float) (flag : bool),
    NoDup l ->
    (forall i, In i l -> dz' i = dz i) ->
    snd (fold_left
           (fun '(dz, invalid_flag) i =>
              let zi := z i in
              let dzi :=
                float_of_double
                  (double_of_float (dz i) /d M_PI /d sin_d (double_of_float zi *d M_PI)) in
              let invalid_flag :=
                if isnan dzi || isinf dzi || (double_of_float (gnrm i) <d MEPS)
                then true else invalid_flag in
              (store dz i dzi, invalid_flag))
           l (dz', flag))
    = flag || existsb (degenerate z gnrm dz) l.
Proof.
  induction l as [|a l IH]; intros dz' flag Hnd Hdz.
  - cbn. now rewrite orb_false_r.
  - cbn [fold_left existsb]. cbv zeta.
    inversion Hnd as [|a' l' Hnotin Hnd']; subst.
    rewrite IH; [| exact Hnd' |].
    + unfold degenerate at 2, rescaled. rewrite (Hdz a) by now left.
      destruct (isnan _ || isinf _ || (_ <d MEPS)); [|reflexivity].
      now rewrite orb_true_r.
    + intros i Hi. rewrite store_other; [apply Hdz; now right|].
      intros ->. contradiction.
Qed.

Lemma rescale_dz_flag_spec index z gnrm dz :
  NoDup (visited index) ->
  snd (rescale_dz index z gnrm dz) = true
  <-> exists i, In i (visited index) /\ degenerate z gnrm dz i = true.
Proof.
  intros Hnd. rewrite <- existsb_exists.
  pose proof (rescale_dz_fold z gnrm dz (visited index) dz false Hnd
                (fun i _ => eq_refl)) as E.
  cbn [orb] in E. rewrite <- E. reflexivity.
Qed.

Lemma adjoint_sweeps_calls prox_lam m k index niter Smat dz V Snrms b calls :
  snd (adjoint_sweeps prox_lam m k index niter Smat dz V Snrms (b, calls))
  = calls ++ repeat false (Z.to_nat niter).
Proof.
  unfold adjoint_sweeps, for_upto. rewrite Z.sub_0_r.
  generalize 0 as c. revert b calls.
  induction (Z.to_nat niter) as [|t IH]; intros b calls c.
  - cbn. now rewrite app_nil_r.
  - cbn [for_range repeat]. rewrite IH, <- app_assoc. reflexivity.
Qed.

(** The adjoint sweeps leave row 0 of [U] alone. *)
Lemma adjoint_sweeps_row0 prox_lam m k index niter Smat dz V Snrms b calls j :
  0 <= j < k ->
  kV (fst (adjoint_sweeps prox_lam m k index niter Smat dz V Snrms (b, calls))) j
  = kV b j.
Proof.
  intros Hj. unfold adjoint_sweeps, for_upto.
  generalize (Z.to_nat (niter - 0)) as t. generalize 0 as c. intros c t.
  revert b calls c.
  induction t as [|t IH]; intros b calls c; [reflexivity|].
  cbn [for_range]. rewrite IH. now apply mix_kernel_row0.
Qed.

(** The adjoint sweeps do not write [gnrm]. *)
Lemma mix_kernel_adjoint_gnrm prox_lam m k index Smat dz Vproj Snrms b :
  kgnrm (fst (mix_kernel false prox_lam m k index Smat dz Vproj Snrms b)) = kgnrm b.
Proof.
  unfold mix_kernel. generalize f0 as delta. revert b.
  induction (visited index) as [|i l IH]; intros b delta; [reflexivity|].
  cbn [fold_left].
  destruct (mix_kernel_step false prox_lam m k Smat dz Vproj Snrms i (b, delta))
    as [b1 d1] eqn:E.
  rewrite IH. apply (f_equal fst) in E. cbn [fst] in E. subst b1.
  unfold mix_kernel_step. cbv zeta.
  match goal with
  | |- context [for_upto 0 k ?body (?g0, kV b)] =>
      destruct (for_upto 0 k body (g0, kV b)) as [g' V']
  end.
  reflexivity.
Qed.

(** The last loop writes [dz] only at the cells 1 .. n-1. *)
Lemma input_gradients_frame n m k is_input Smat z V Phi dz j :
  j < 1 \/ n <= j ->
  input_gradients n m k is_input Smat z V Phi dz j = dz j.
Proof.
  intros Hj. unfold input_gradients.
  destruct (Z_le_gt_dec 1 n) as [Hn|Hn]; [|now rewrite for_upto_empty by lia].
  apply (for_upto_inv (fun _ d => d j = dz j)); [exact Hn | reflexivity |].
  intros c d Hc Hd.
  destruct (is_input c =? 0); (rewrite store_other by lia); exact Hd.
Qed.

Lemma szero_inside (v : buf float) (vo l j : Z) :
  vo <= j < vo + l -> szero v vo l j = f0.
Proof.
  intros H. unfold szero.
  replace ((vo <=? j) && (j <? vo + l)) with true; [reflexivity|].
  symmetry. apply andb_true_iff. split; [apply Z.leb_le | apply Z.ltb_lt]; lia.
Qed.

(** [invalid_flag] at the return: raised by the rescaling loop, or else by
    the sanity check over [U] after the adjoint sweeps. *)
Lemma bw_invalid_spec prox_lam n m k is_input index niter Smat dS z dz V U W Phi
    gnrm Snrms cache :
  bw_invalid
    (mix_backward prox_lam n m k is_input index niter Smat dS z dz V U W Phi gnrm
       Snrms cache)
  = snd (rescale_dz index z gnrm dz)
    || nonfinite_U n k
         (kV (fst (adjoint_sweeps prox_lam m k index niter Smat
                     (fst (rescale_dz index z gnrm dz)) V Snrms
                     ({| kV := U; kW := Phi; kgnrm := gnrm; kg := cache |}, [])))).
Proof.
  unfold mix_backward.
  destruct (rescale_dz index z gnrm dz) as [dz1 flag1]. cbn [fst snd].
  destruct flag1; [reflexivity|].
  destruct (adjoint_sweeps prox_lam m k index niter Smat dz1 V Snrms
              ({| kV := U; kW := Phi; kgnrm := gnrm; kg := cache |}, []))
    as [b1 calls1]. cbn [fst orb].
  now destruct (nonfinite_U n k (kV b1)).
Qed.

(** The sanity check is raised exactly by a NaN or an infinity among the
    [n * k] cells of [U]. *)
Lemma nonfinite_U_spec n k (U : buf float) :
  nonfinite_U n k U = true
  <-> exists ik, 0 <= ik < n * k /\ (isnan (U ik) || isinf (U ik)) = true.
Proof.
  unfold nonfinite_U.
  destruct (Z_le_gt_dec 0 (n * k)) as [Hn|Hn].
  - apply (for_upto_inv
             (fun c flag => flag = true
                <-> exists ik, 0 <= ik < c /\ (isnan (U ik) || isinf (U ik)) = true));
      [exact Hn | |].
    + split; [discriminate|]. intros (ik & H & _). lia.
    + intros c flag Hc [IH1 IH2]. split.
      * destruct (isnan (U c) || isinf (U c)) eqn:E.
        -- intros _. exists c. split; [lia | exact E].
        -- intros Hf. destruct (IH1 Hf) as (ik & Hik & Hv).
           exists ik. split; [lia | exact Hv].
      * intros (ik & Hik & Hv).
        destruct (Z.eq_dec ik c) as [->|Hne]; [now rewrite Hv|].
        destruct (isnan (U c) || isinf (U c)); [reflexivity|].
        apply IH2. exists ik. split; [lia | exact Hv].
  - rewrite for_upto_empty by lia. split; [discriminate|].
    intros (ik & H & _). lia.
Qed.

(** ** The vector primitives, cell by cell *)

(** Decide every integer test of the goal, then close what arithmetic
    closes. *)
Ltac zbool :=
  repeat
    (let Hz := fresh "Hz" in
     match goal with
     | |- context [?a =? ?b] => destruct (Z.eqb_spec a b) as [Hz|Hz]
     | |- context [?a <? ?b] => destruct (Z.ltb_spec0 a b) as [Hz|Hz]
     | |- context [?a <=? ?b] => destruct (Z.leb_spec0 a b) as [Hz|Hz]
     end);
  cbn [andb orb negb]; try reflexivity; try lia.

Lemma scale1_spec (x : buf float) xo a i j :
  scale1 x xo a i j = if j =? xo + i then x j *f a else x j.
Proof. unfold scale1, store. destruct (Z.eqb_spec j (xo + i)); now subst. Qed.

Lemma sscal_main_spec xo a :
  forall n (x : buf float) i,
    snd (sscal_main n x xo a i) = i + 5 * Z.of_nat n
    /\ forall j,
         fst (sscal_main n x xo a i) j
         = if (xo + i <=? j) && (j <? xo + i + 5 * Z.of_nat n)
           then x j *f a else x j.
Proof.
  induction n as [|n IH]; intros x i.
  - cbn [sscal_main fst snd]. split; [lia|]. intros j. zbool.
  - cbn [sscal_main].
    destruct (IH (scale1 (scale1 (scale1 (scale1 (scale1 x xo a i) xo a (i + 1))
                xo a (i + 2)) xo a (i + 3)) xo a (i + 4)) (i + 5)) as [Hi Hx].
    split; [lia|]. intros j. rewrite Hx, !scale1_spec. zbool.
Qed.

Lemma scale_range_spec xo a :
  forall n c (x : buf float) j,
    for_range n c (fun c x => scale1 x xo a c) x j
    = if (xo + c <=? j) && (j <? xo + c + Z.of_nat n) then x j *f a else x j.
Proof.
  induction n as [|n IH]; intros c x j.
  - cbn [for_range]. zbool.
  - cbn [for_range]. rewrite IH, scale1_spec. zbool.
Qed.

(** [sscal] multiplies the [l] cells from [xo] on by [a], whatever [l]. *)
Lemma sscal_spec (x : buf float) xo a l j :
  sscal x xo a l j
  = if (xo <=? j) && (j <? xo + l) then x j *f a else x j.
Proof.
  unfold sscal. cbv zeta.
  destruct (sscal_main_spec xo a (Z.to_nat ((l - 4 + 4) / 5)) x 0) as [Hi Hx].
  destruct (sscal_main (Z.to_nat ((l - 4 + 4) / 5)) x xo a 0) as [x1 i].
  cbn [fst snd] in Hi, Hx. unfold for_upto.
  rewrite scale_range_spec, !Hx. subst i.
  replace ((l - 4 + 4) / 5) with (l / 5) by (f_equal; lia).
  destruct (Z_lt_le_dec l 0) as [Hl|Hl].
  - assert (l / 5 < 0) by (apply Z.div_lt_upper_bound; lia).
    replace (Z.to_nat (l / 5)) with O by lia.
    replace (Z.to_nat (l - (0 + 5 * Z.of_nat 0))) with O by lia.
    zbool.
  - assert (0 <= l / 5) by (apply Z.div_pos; lia).
    assert (5 * (l / 5) <= l) by (apply Z.mul_div_le; lia).
    rewrite !Z2Nat.id by lia. zbool.
Qed.

Lemma saxpy_loop_spec a (x : buf float) :
  forall n (y : buf float) yo xo j,
    saxpy_loop n y yo a x xo j
    = if (yo <=? j) && (j <? yo + 4 * Z.of_nat n)
      then (a *f x (xo + (j - yo))) +f y j else y j.
Proof.
  induction n as [|n IH]; intros y yo xo j.
  - cbn [saxpy_loop]. zbool.
  - cbn [saxpy_loop]. rewrite IH. unfold saxpy4.
    zbool. do 2 f_equal. f_equal. lia.
Qed.

(** [saxpy] updates whole groups of four cells: [l] rounded up. *)
Lemma saxpy_spec (y : buf float) yo a (x : buf float) xo l j :
  saxpy y yo a x xo l j
  = if (yo <=? j) && (j <? yo + 4 * Z.of_nat (simd_rounds l))
    then (a *f x (xo + (j - yo))) +f y j else y j.
Proof. apply saxpy_loop_spec. Qed.

Lemma simd_rounds_exact l :
  0 <= l -> l mod 4 = 0 -> 4 * Z.of_nat (simd_rounds l) = l.
Proof.
  intros Hl Hm. unfold simd_rounds.
  assert (E : l = 4 * (l / 4)) by (rewrite (Z.div_mod l 4) at 1; lia).
  assert (0 <= l / 4) by (apply Z.div_pos; lia).
  replace ((l + 3) / 4) with (l / 4).
  - rewrite Z2Nat.id by lia. lia.
  - apply Z.div_unique with (r := 3); lia.
Qed.

Lemma simd_rounds_nonpos l : l <= 0 -> simd_rounds l = O.
Proof.
  intros Hl. unfold simd_rounds.
  assert ((l + 3) / 4 <= 0); [|lia].
  apply Z.lt_succ_r. apply Z.div_lt_upper_bound; lia.
Qed.

(** The exchange loop of the kernel: [g] gets new - old, row [i] of [V]
    gets the new vector. *)
Lemma exchange_loop_spec (i k : Z) :
  forall n c (g V : buf float),
    let r :=
      for_range n c
        (fun kk '(g, V) =>
           let t := g kk in
           (store g kk (g kk -f V (i * k + kk)), store V (i * k + kk) t))
        (g, V) in
    (forall kk,
       fst r kk = if (c <=? kk) && (kk <? c + Z.of_nat n)
                  then g kk -f V (i * k + kk) else g kk)
    /\ (forall j,
          snd r j = if (i * k + c <=? j) && (j <? i * k + c + Z.of_nat n)
                    then g (j - i * k) else V j).
Proof.
  induction n as [|n IH]; intros c g V.
  - cbn [for_range fst snd]. split; intros; zbool.
  - cbn [for_range]. cbv zeta.
    destruct (IH (c + 1) (store g c (g c -f V (i * k + c)))
                (store V (i * k + c) (g c))) as [Hg HV].
    cbv zeta in Hg, HV. split.
    + intros kk. rewrite Hg. unfold store. zbool.
      all: try (subst; reflexivity); try (f_equal; f_equal; lia).
    + intros j. rewrite HV. unfold store. zbool.
      all: try (subst; reflexivity); try (f_equal; lia).
Qed.

(** The accumulator loop of the kernel, for rows of a whole number of
    lane groups. *)
Lemma accumulate_loop_spec (i m : Z) (Smat g : buf float) :
  0 <= m -> m mod 4 = 0 ->
  forall n c (W : buf float) kk j,
    0 <= j < m ->
    for_range n c (fun kk W => saxpy W (kk * m) (g kk) Smat (i * m) m) W (kk * m + j)
    = if (c <=? kk) && (kk <? c + Z.of_nat n)
      then (g kk *f Smat (i * m + j)) +f W (kk * m + j)
      else W (kk * m + j).
Proof.
  intros Hm H4.
  induction n as [|n IH]; intros c W kk j Hj.
  - cbn [for_range]. zbool.
  - cbn [for_range]. rewrite IH by exact Hj.
    rewrite saxpy_spec, simd_rounds_exact by assumption.
    zbool; try nia.
    assert (kk = c) by lia. subst kk.
    do 2 f_equal. f_equal. lia.
Qed.

Lemma exchange_upto_spec (i k : Z) (g V : buf float) :
  let r :=
    for_upto 0 k
      (fun kk '(g, V) =>
         let t := g kk in
         (store g kk (g kk -f V (i * k + kk)), store V (i * k + kk) t))
      (g, V) in
  (forall kk,
     fst r kk = if (0 <=? kk) && (kk <? k) then g kk -f V (i * k + kk) else g kk)
  /\ (forall j,
        snd r j = if (i * k <=? j) && (j <? i * k + k) then g (j - i * k) else V j).
Proof.
  cbv zeta. unfold for_upto.
  destruct (exchange_loop_spec i k (Z.to_nat (k - 0)) 0 g V) as [Hg HV].
  cbv zeta in Hg, HV. split.
  - intros kk. rewrite Hg. zbool.
  - intros j. rewrite HV. zbool.
Qed.

Lemma accumulate_upto_spec (i m k : Z) (Smat g W : buf float) kk j :
  0 <= m -> m mod 4 = 0 -> 0 <= j < m ->
  for_upto 0 k (fun kk W => saxpy W (kk * m) (g kk) Smat (i * m) m) W (kk * m + j)
  = if (0 <=? kk) && (kk <? k)
    then (g kk *f Smat (i * m + j)) +f W (kk * m + j)
    else W (kk * m + j).
Proof.
  intros Hm H4 Hj. unfold for_upto.
  rewrite accumulate_loop_spec by assumption. zbool.
Qed.

(** ** One step of the kernel *)

Section KernelStep.
Variables (is_forward : bool) (prox_lam : float) (m k : Z).
Variables (Smat dz Vproj Snrms : buf float) (i : Z) (b : kernel_bufs) (delta : float).

Let step := mix_kernel_step is_forward prox_lam m k Smat dz Vproj Snrms i (b, delta).
Let dir := kernel_direction is_forward prox_lam m k Smat dz Vproj Snrms i b.

(** Row [i] of [V] becomes the new row; the rest of [V] stays. *)
Lemma mix_kernel_step_V j :
  kV (fst step) j
  = if (i * k <=? j) && (j <? i * k + k) then snd dir (j - i * k) else kV b j.
Proof.
  unfold step, dir, mix_kernel_step, kernel_direction, kernel_gradient.
  destruct is_forward; cbv zeta;
    match goal with
    | |- context [for_upto 0 k ?body (?g0, kV b)] =>
        destruct (exchange_upto_spec i k g0 (kV b)) as [_ HV];
        cbv zeta in HV; specialize (HV j);
        destruct (for_upto 0 k body (g0, kV b)) as [g' V'] eqn:EL
    end;
    cbn [snd] in HV; cbn [fst snd kV]; rewrite HV; reflexivity.
Qed.

(** [W] gets (new row - old row) (x) S_i added, cell by cell. *)
Lemma mix_kernel_step_W kk j :
  0 <= m -> m mod 4 = 0 -> 0 <= j < m ->
  kW (fst step) (kk * m + j)
  = if (0 <=? kk) && (kk <? k)
    then ((snd dir kk -f kV b (i * k + kk)) *f Smat (i * m + j)) +f kW b (kk * m + j)
    else kW b (kk * m + j).
Proof.
  intros Hm H4 Hj.
  unfold step, dir, mix_kernel_step, kernel_direction, kernel_gradient.
  destruct is_forward; cbv zeta;
    match goal with
    | |- context [for_upto 0 k ?body (?g0, kV b)] =>
        destruct (exchange_upto_spec i k g0 (kV b)) as [Hg _];
        cbv zeta in Hg; specialize (Hg kk);
        destruct (for_upto 0 k body (g0, kV b)) as [g' V'] eqn:EL
    end;
    cbn [fst] in Hg; cbn [fst snd kW];
    rewrite accumulate_upto_spec by assumption; rewrite Hg; zbool.
Qed.

(** In forward mode the divisor is stored in [gnrm[i]]; in adjoint mode
    [gnrm] is not written. *)
Lemma mix_kernel_step_gnrm :
  kgnrm (fst step)
  = if is_forward then store (kgnrm b) i (fst dir) else kgnrm b.
Proof.
  unfold step, dir, mix_kernel_step, kernel_direction, kernel_gradient.
  destruct is_forward; cbv zeta;
    match goal with
    | |- context [for_upto 0 k ?body (?g0, kV b)] =>
        destruct (for_upto 0 k body (g0, kV b)) as [g' V']
    end; reflexivity.
Qed.

End KernelStep.

(** The forward pass makes [s] sweeps, all in forward mode, and leaves
    its loop through the test ([conv]) or with [max_iter] sweeps made. *)
Lemma mix_forward_sweeps max_iter eps n m k index Smat z b Snrms :
  let r := mix_forward max_iter eps n m k index Smat z b Snrms in
  exists (s : nat) (conv : bool),
    fw_calls r = repeat true s
    /\ fw_bufs r = sweep_bufs m k index Smat Snrms s b
    /\ fw_niter r = Z.of_nat s - (if conv then 1 else 0)
    /\ (s <= Z.to_nat max_iter)%nat
    /\ (conv = true ->
        exists t, s = S t /\ (1 <= t)%nat
                  /\ (sweep_delta m k index Smat Snrms t b
                      <f sweep_delta m k index Smat Snrms O b *f eps) = true)
    /\ (conv = false -> s = Z.to_nat max_iter).
Proof.
  cbv zeta. rewrite mix_forward_unfold. cbv zeta.
  destruct (forward_loop_from_0 m k index Smat Snrms (Z.to_nat max_iter) eps b)
    as (s & conv & E & Hle & Hpos & Hno & Hc & Hx).
  exists s, conv. rewrite E. cbn [fst snd fw_calls fw_bufs fw_niter].
  repeat split; auto. intros Hf. now apply Hx.
Qed.

(** ** The index array built by [mix_init] *)

(** Every entry of the index array is 0 or the id of a variable that is
    not an input. *)
Lemma mix_init_index_cells perm n k is_input index z V c :
  0 <= c < n ->
  snd (mix_init perm n k is_input index z V) c = 0
  \/ is_input (snd (mix_init perm n k is_input index z V) c) = 0.
Proof.
  intros Hc. unfold mix_init. cbv zeta.
  pose proof
    (for_upto_inv
       (fun i_ (st : buf Z * Z) =>
          0 <= snd st <= i_
          /\ forall c, 0 <= c < snd st -> is_input (fst st c) = 0)
       (fun i_ '(index, j) =>
          let i := perm i_ + 1 in
          if is_input i =? 0 then (store index j i, j + 1) else (index, j))
       0 (n - 1) (index, 0)) as Inv.
  cbv zeta in Inv.
  destruct (for_upto 0 (n - 1)
              (fun i_ '(index, j) =>
                 if is_input (perm i_ + 1) =? 0
                 then (store index j (perm i_ + 1), j + 1) else (index, j))
              (index, 0)) as [index1 j] eqn:E1.
  cbn [fst snd] in Inv.
  destruct Inv as [Hj Hfree]; [lia | split; [lia | intros; lia] | |].
  { intros i_ [idx j'] Hi [Hj' Hfree']. cbn [fst snd] in *.
    destruct (Z.eqb_spec (is_input (perm i_ + 1)) 0) as [Hin|Hin]; cbn [fst snd].
    - split; [lia|]. intros c' Hc'.
      destruct (Z.eq_dec c' j') as [->|Hne].
      + now rewrite store_same.
      + rewrite store_other by exact Hne. apply Hfree'. lia.
    - split; [lia|]. exact Hfree'. }
  cbn [snd].
  assert (Hfill : forall c', for_upto j n (fun j index => store index j 0) index1 c'
                             = if (j <=? c') && (c' <? n) then 0 else index1 c').
  { intros c'.
    apply (for_upto_inv
             (fun hi (idx : buf Z) =>
                idx c' = if (j <=? c') && (c' <? hi) then 0 else index1 c'));
      [lia | zbool |].
    intros c0 idx Hc0 Hidx. unfold store. rewrite Hidx. zbool. }
  rewrite Hfill.
  destruct ((j <=? c) && (c <? n)) eqn:Ein; [now left | right].
  apply Hfree. apply andb_false_iff in Ein as [Ein|Ein];
    [apply Z.leb_gt in Ein | apply Z.ltb_ge in Ein]; lia.
Qed.

(** The sweeps over an index array built by [mix_init] visit no input
    variable. *)
Lemma mix_init_visits_free perm n k is_input index z V i :
  In i (visited (index_array n (snd (mix_init perm n k is_input index z V)))) ->
  is_input i = 0.
Proof.
  intros Hi. pose proof (visited_nonzero _ _ Hi) as Hnz.
  apply visited_incl in Hi. unfold index_array in Hi.
  apply in_map_iff in Hi as (c & <- & Hc). apply in_seq in Hc.
  destruct (mix_init_index_cells perm n k is_input index z V (Z.of_nat c))
    as [H0|Hfree]; [lia | contradiction | exact Hfree].
Qed.

(** ** Claims that hold for every arithmetic *)

(** C5.  The stopping rule of [mix_forward].  With [d t] the movement
    returned by sweep [t] (from 0) and [tol = d 0 * eps] the tolerance
    rescaled by the first sweep, the pass makes [s] sweeps, all in forward
    mode, where: [s] never exceeds [max_iter]; no sweep [t >= 1] before the
    last one was below [tol] (the loop is left as soon as one is); when the
    loop is left through the test ([conv]) the last sweep is a sweep
    [t >= 1] with [d t < tol], so the first sweep is never tested; and
    otherwise all [max_iter] sweeps are made.  The pass returns a result in
    both cases, with [niter] the loop counter. *)
Theorem mix_forward_stopping_rule max_iter eps n m k index Smat z b Snrms :
  let r := mix_forward max_iter eps n m k index Smat z b Snrms in
  let d := fun t => sweep_delta m k index Smat Snrms t b in
  let tol := d O *f eps in
  exists (s : nat) (conv : bool),
    fw_calls r = repeat true s
    /\ fw_bufs r = sweep_bufs m k index Smat Snrms s b
    /\ fw_niter r = Z.of_nat s - (if conv then 1 else 0)
    /\ (s <= Z.to_nat max_iter)%nat
    /\ (forall t, (1 <= t)%nat -> (S t < s)%nat -> (d t <f tol) = false)
    /\ (conv = true ->
        exists t, s = S t /\ (1 <= t)%nat /\ (d t <f tol) = true)
    /\ (conv = false ->
        s = Z.to_nat max_iter
        /\ forall t, (1 <= t)%nat -> (t < s)%nat -> (d t <f tol) = false).
Proof.
  cbv zeta. rewrite mix_forward_unfold. cbv zeta.
  destruct (forward_loop_from_0 m k index Smat Snrms (Z.to_nat max_iter) eps b)
    as (s & conv & E & Hle & Hpos & Hno & Hc & Hx).
  exists s, conv. rewrite E. cbn [fst snd fw_calls fw_bufs fw_niter].
  repeat split; auto; apply Hx; assumption.
Qed.

(** C9.  [mix_forward] writes [z] only at the visited ids: the entry of
    every other id is the one it had at the call.  Variable 0 is never
    visited, and neither is an input variable when the index array is the
    one [mix_init] built from the input flags. *)
Theorem mix_forward_z_frame max_iter eps n m k index Smat z b Snrms :
  let r := mix_forward max_iter eps n m k index Smat z b Snrms in
  (forall j, ~ In j (visited index) -> fw_z r j = z j)
  /\ fw_z r 0 = z 0
  /\ (forall perm k0 is_input index0 z0 V0 i,
        index = index_array n (snd (mix_init perm n k0 is_input index0 z0 V0)) ->
        is_input i <> 0 ->
        fw_z r i = z i).
Proof.
  cbv zeta.
  assert (Hframe : forall j, ~ In j (visited index) ->
            fw_z (mix_forward max_iter eps n m k index Smat z b Snrms) j = z j).
  { intros j Hj. rewrite mix_forward_unfold. cbv zeta. cbn [fw_z].
    rewrite decode_spec.
    destruct (in_dec Z.eq_dec j (visited index)); [contradiction | reflexivity]. }
  split; [exact Hframe | split].
  - apply Hframe. intros H. now apply visited_nonzero in H.
  - intros perm k0 is_input index0 z0 V0 i -> Hi.
    apply Hframe. intros H. apply mix_init_visits_free in H. contradiction.
Qed.

(** At a visited id the entry of [z] is the decoding of the first
    coordinate of the final embedding. *)
Lemma mix_forward_decodes max_iter eps n m k index Smat z b Snrms i :
  In i (visited index) ->
  let r := mix_forward max_iter eps n m k index Smat z b Snrms in
  fw_z r i = decoded k (kV (fw_bufs r)) i.
Proof.
  intros Hi. cbv zeta. rewrite mix_forward_unfold. cbv zeta. cbn [fw_z fw_bufs].
  rewrite decode_spec.
  destruct (in_dec Z.eq_dec i (visited index)); [reflexivity | contradiction].
Qed.

(** C7, as amended.  The cells of row 0 of the embedding matrix are the
    same after a sweep of the kernel in either mode and after the forward
    pass as before, and so are those of row 0 of [U], the matrix the
    backward pass hands to the kernel as its embedding ([V] itself is
    read-only there). *)
Theorem embedding_row0_fixed is_forward prox_lam max_iter eps n m k is_input index
    niter Smat dS z dz Vproj V U W Phi gnrm Snrms cache b j :
  0 <= j < k ->
  kV (fst (mix_kernel is_forward prox_lam m k index Smat dz Vproj Snrms b)) j = kV b j
  /\ kV (fw_bufs (mix_forward max_iter eps n m k index Smat z b Snrms)) j = kV b j
  /\ bw_U (mix_backward prox_lam n m k is_input index niter Smat dS z dz V U W Phi
             gnrm Snrms cache) j = U j.
Proof.
  intros Hj. split; [|split].
  - now apply mix_kernel_row0.
  - destruct (mix_forward_sweeps max_iter eps n m k index Smat z b Snrms)
      as (s & conv & _ & E & _).
    rewrite E. now apply sweep_bufs_row0.
  - unfold mix_backward.
    destruct (rescale_dz index z gnrm dz) as [dz1 flag1].
    destruct flag1; [reflexivity|].
    pose proof (adjoint_sweeps_row0 prox_lam m k index niter Smat dz1 V Snrms
                  {| kV := U; kW := Phi; kgnrm := gnrm; kg := cache |} [] j Hj) as E.
    destruct (adjoint_sweeps prox_lam m k index niter Smat dz1 V Snrms
                ({| kV := U; kW := Phi; kgnrm := gnrm; kg := cache |}, []))
      as [b1 calls1].
    cbn [fst kV] in E.
    destruct (nonfinite_U n k (kV b1)); exact E.
Qed.

(** C1, as amended.  When the forward loop runs out of [max_iter], which
    is when [niter] is [max_iter] (0 for a negative [max_iter]), [niter] is
    the number of kernel invocations the pass made, all in forward mode.
    The backward pass, run on what the forward pass left, invokes the kernel
    in adjoint mode exactly [niter] times when its rescaling loop does not
    flag the instance, and not at all when it does. *)
Theorem niter_and_adjoint_sweeps max_iter eps prox_lam n m k is_input index Smat
    Snrms z b dS dz U Phi :
  let r := mix_forward max_iter eps n m k index Smat z b Snrms in
  let rb :=
    mix_backward prox_lam n m k is_input index (fw_niter r) Smat dS (fw_z r) dz
      (kV (fw_bufs r)) U (kW (fw_bufs r)) Phi (kgnrm (fw_bufs r)) Snrms
      (kg (fw_bufs r)) in
  let flagged := snd (rescale_dz index (fw_z r) (kgnrm (fw_bufs r)) dz) in
  (fw_niter r = Z.max 0 max_iter ->
   fw_calls r = repeat true (Z.to_nat (fw_niter r)))
  /\ (flagged = false -> bw_calls rb = repeat false (Z.to_nat (fw_niter r)))
  /\ (flagged = true -> bw_calls rb = []).
Proof.
  cbv zeta.
  set (r := mix_forward max_iter eps n m k index Smat z b Snrms).
  split; [|split].
  - destruct (mix_forward_sweeps max_iter eps n m k index Smat z b Snrms)
      as (s & conv & Ec & _ & En & Hle & Hc & Hx).
    fold r in Ec, En. intros Hn. rewrite Ec.
    destruct conv.
    + destruct (Hc eq_refl) as (t & -> & Ht & _). lia.
    + rewrite (Hx eq_refl). f_equal. lia.
  - intros Hf. unfold mix_backward.
    destruct (rescale_dz index (fw_z r) (kgnrm (fw_bufs r)) dz) as [dz1 flag1].
    cbn [snd] in Hf. subst flag1.
    pose proof (adjoint_sweeps_calls prox_lam m k index (fw_niter r) Smat dz1
                  (kV (fw_bufs r)) Snrms
                  {| kV := U; kW := Phi; kgnrm := kgnrm (fw_bufs r);
                     kg := kg (fw_bufs r) |} []) as E.
    destruct (adjoint_sweeps prox_lam m k index (fw_niter r) Smat dz1
                (kV (fw_bufs r)) Snrms
                ({| kV := U; kW := Phi; kgnrm := kgnrm (fw_bufs r);
                    kg := kg (fw_bufs r) |}, []))
      as [b1 calls1].
    cbn [snd app] in E.
    destruct (nonfinite_U n k (kV b1)); exact E.
  - intros Hf. unfold mix_backward.
    destruct (rescale_dz index (fw_z r) (kgnrm (fw_bufs r)) dz) as [dz1 flag1].
    cbn [snd] in Hf. subst flag1. reflexivity.
Qed.

(** C2, as amended.  Whenever [mix_backward] flags the instance invalid, in
    its rescaling loop or in its sanity check over [U], the [n] entries of
    [dz] are zeroed and [dS] is left as it was at the call; the function
    returns its result like on any other input. *)
Theorem mix_backward_invalid_fallback prox_lam n m k is_input index niter Smat dS z
    dz V U W Phi gnrm Snrms cache :
  let rb :=
    mix_backward prox_lam n m k is_input index niter Smat dS z dz V U W Phi gnrm
      Snrms cache in
  bw_invalid rb = true ->
  (forall j, 0 <= j < n -> bw_dz rb j = f0) /\ (forall j, bw_dS rb j = dS j).
Proof.
  cbv zeta. unfold mix_backward.
  destruct (rescale_dz index z gnrm dz) as [dz1 flag1].
  destruct flag1.
  - intros _. cbn [bw_dz bw_dS]. split; [|reflexivity].
    intros j Hj. apply szero_inside. lia.
  - destruct (adjoint_sweeps prox_lam m k index niter Smat dz1 V Snrms
                ({| kV := U; kW := Phi; kgnrm := gnrm; kg := cache |}, []))
      as [b1 calls1].
    destruct (nonfinite_U n k (kV b1)).
    + intros _. cbn [bw_dz bw_dS]. split; [|reflexivity].
      intros j Hj. apply szero_inside. lia.
    + discriminate.
Qed.

(** C10.  When [mix_backward] does not flag the instance, [dz[0]] keeps the
    value it had at the call; when it does, all [n] entries of [dz], the one
    of variable 0 among them, are +0. *)
Theorem mix_backward_dz0 prox_lam n m k is_input index niter Smat dS z dz V U W Phi
    gnrm Snrms cache :
  let rb :=
    mix_backward prox_lam n m k is_input index niter Smat dS z dz V U W Phi gnrm
      Snrms cache in
  (bw_invalid rb = false -> bw_dz rb 0 = dz 0)
  /\ (bw_invalid rb = true -> forall j, 0 <= j < n -> bw_dz rb j = f0).
Proof.
  cbv zeta. split.
  - unfold mix_backward.
    pose proof (rescale_dz_frame index z gnrm dz 0) as E0.
    destruct (rescale_dz index z gnrm dz) as [dz1 flag1].
    destruct flag1; [discriminate|].
    destruct (adjoint_sweeps prox_lam m k index niter Smat dz1 V Snrms
                ({| kV := U; kW := Phi; kgnrm := gnrm; kg := cache |}, []))
      as [b1 calls1].
    destruct (nonfinite_U n k (kV b1)); [discriminate|].
    intros _. cbn [bw_dz]. rewrite input_gradients_frame by lia.
    apply E0. intros H. now apply visited_nonzero in H.
  - unfold mix_backward.
    destruct (rescale_dz index z gnrm dz) as [dz1 flag1].
    destruct flag1.
    + intros _ j Hj. cbn [bw_dz]. apply szero_inside. lia.
    + destruct (adjoint_sweeps prox_lam m k index niter Smat dz1 V Snrms
                  ({| kV := U; kW := Phi; kgnrm := gnrm; kg := cache |}, []))
        as [b1 calls1].
      destruct (nonfinite_U n k (kV b1)); [|discriminate].
      intros _ j Hj. cbn [bw_dz]. apply szero_inside. lia.
Qed.

End Properties.

(** ** Exact arithmetic: the invariants of the method *)

Section ExactArithmetic.
#[local] Existing Instance Exact.ops.
Import Exact.

Local Open Scope R_scope.

Ltac exact_ops :=
  change (@fadd Exact.ops) with Rplus in *;
  change (@fsub Exact.ops) with Rminus in *;
  change (@fmul Exact.ops) with Rmult in *;
  change (@fdiv Exact.ops) with Rdiv in *;
  change (@fneg Exact.ops) with Ropp in *;
  change (@sqrt_f Exact.ops) with sqrt in *;
  change (@float_of_int Exact.ops) with IZR in *.

Lemma rsum_ext n (f g : Z -> R) :
  (forall c, (0 <= c < Z.of_nat n)%Z -> f c = g c) -> rsum n f = rsum n g.
Proof.
  induction n as [|n IH]; intros H; [reflexivity|].
  cbn [rsum]. rewrite IH by (intros c Hc; apply H; lia).
  rewrite H by lia. reflexivity.
Qed.

Lemma rsum_scal n a (f : Z -> R) :
  rsum n (fun c => a * f c) = a * rsum n f.
Proof.
  induction n as [|n IH]; cbn [rsum]; [lra|]. rewrite IH. lra.
Qed.

Lemma rsum_nonneg n (f : Z -> R) :
  (forall c, 0 <= f c) -> 0 <= rsum n f.
Proof.
  intros H. induction n as [|n IH]; cbn [rsum]; [lra|].
  specialize (H (Z.of_nat n)). lra.
Qed.

Lemma rsum_app a b (f : Z -> R) :
  rsum (a + b) f = rsum a f + rsum b (fun c => f (Z.of_nat a + c)%Z).
Proof.
  induction b as [|b IH].
  - rewrite Nat.add_0_r. cbn [rsum]. lra.
  - rewrite Nat.add_succ_r. cbn [rsum]. rewrite IH.
    replace (Z.of_nat (a + b)) with (Z.of_nat a + Z.of_nat b)%Z by lia. lra.
Qed.

(** Changing one term of a sum changes the sum by the difference. *)
Lemma rsum_update n (f g : Z -> R) i :
  (0 <= i < Z.of_nat n)%Z ->
  (forall c, c <> i -> g c = f c) ->
  rsum n g = rsum n f + (g i - f i).
Proof.
  induction n as [|n IH]; intros Hi H; [lia|].
  cbn [rsum]. destruct (Z.eq_dec i (Z.of_nat n)) as [->|Hne].
  - rewrite (rsum_ext n g f) by (intros c Hc; apply H; lia). lra.
  - rewrite IH by (auto; lia). rewrite (H (Z.of_nat n)) by auto. lra.
Qed.

Lemma sdot_loop_exact (x y : buf R) :
  forall n (s : R) xo yo,
    sdot_loop n s x xo y yo
    = s + rsum (4 * n) (fun c => x (xo + c)%Z * y (yo + c)%Z).
Proof.
  induction n as [|n IH]; intros s xo yo.
  - cbn. lra.
  - cbn [sdot_loop]. rewrite IH.
    replace (4 * S n)%nat with (4 + 4 * n)%nat by lia.
    rewrite rsum_app. unfold dp_ps. exact_ops.
    cbn [rsum Z.of_nat Pos.of_succ_nat Pos.succ].
    rewrite !Z.add_0_r.
    rewrite (rsum_ext (4 * n)
               (fun c => x (xo + 4 + c)%Z * y (yo + 4 + c)%Z)
               (fun c => x (xo + (4 + c))%Z * y (yo + (4 + c))%Z))
      by (intros c _; now rewrite !Z.add_assoc).
    lra.
Qed.

(** In exact arithmetic [sdot] is the sum of the products over the whole
    lane groups. *)
Lemma sdot_exact (x y : buf R) xo yo l :
  sdot x xo y yo l
  = rsum (4 * simd_rounds l) (fun c => x (xo + c)%Z * y (yo + c)%Z).
Proof.
  unfold sdot. rewrite sdot_loop_exact. unfold f0. exact_ops. lra.
Qed.

(** The new row of a forward step has norm 1 when its divisor is not 0. *)
Lemma forward_direction_unit prox_lam m k (Smat dz Vproj Snrms : buf R) i b :
  (k mod 4 = 0)%Z ->
  fst (kernel_direction true prox_lam m k Smat dz Vproj Snrms i b) <> 0 ->
  rsum (Z.to_nat k)
    (fun kk =>
       snd (kernel_direction true prox_lam m k Smat dz Vproj Snrms i b) kk
       * snd (kernel_direction true prox_lam m k Smat dz Vproj Snrms i b) kk)
  = 1.
Proof.
  intros H4. unfold kernel_direction. cbv zeta.
  set (g := kernel_gradient (ops := Exact.ops) m k Smat Snrms i b).
  cbn [fst snd]. unfold snrm2. cbv zeta. rewrite sdot_exact.
  set (q := rsum (4 * simd_rounds k) (fun c => g (0 + c)%Z * g (0 + c)%Z)).
  exact_ops. intros Hq.
  destruct (Z_le_gt_dec k 0) as [Hk|Hk].
  - exfalso. apply Hq. unfold q. rewrite simd_rounds_nonpos by exact Hk.
    cbn [Nat.mul rsum]. apply sqrt_0.
  - assert (Hn : (4 * simd_rounds k)%nat = Z.to_nat k).
    { pose proof (simd_rounds_exact k ltac:(lia) H4). lia. }
    assert (Hq0 : 0 <= q) by (apply rsum_nonneg; intros c; nra).
    rewrite (rsum_ext _ _ (fun c => (/ sqrt q * / sqrt q) * (g (0 + c)%Z * g (0 + c)%Z))).
    + rewrite rsum_scal. rewrite <- Hn. fold q.
      rewrite <- (sqrt_sqrt q Hq0) at 3. field. exact Hq.
    + intros c Hc. rewrite !sscal_spec. exact_ops.
      replace ((0 <=? c)%Z && (c <? 0 + k)%Z) with true
        by (symmetry; apply andb_true_iff; split;
            [apply Z.leb_le | apply Z.ltb_lt]; lia).
      unfold f1. exact_ops. rewrite Z.add_0_l. field. exact Hq.
Qed.

(** A cell [i' * k + kk] lies in row [i] exactly when [i' = i]. *)
Lemma in_row_iff (i i' k kk : Z) :
  (0 <= kk < k)%Z ->
  ((i * k <=? i' * k + kk)%Z && (i' * k + kk <? i * k + k)%Z) = (i' =? i)%Z.
Proof.
  intros Hkk.
  destruct (Z.eqb_spec i' i) as [->|Hne].
  - apply andb_true_iff. split; [apply Z.leb_le | apply Z.ltb_lt]; lia.
  - apply andb_false_iff.
    destruct (Z_lt_le_dec i' i); [left | right].
    + apply Z.leb_gt. nia.
    + apply Z.ltb_ge. nia.
Qed.

(** A forward step normalizes row [i] and keeps what was established for
    the other rows. *)
Lemma forward_step_unit_rows prox_lam m k (Smat dz Vproj Snrms : buf R) i0 b delta i :
  (k mod 4 = 0)%Z ->
  let b1 := fst (mix_kernel_step true prox_lam m k Smat dz Vproj Snrms i0 (b, delta)) in
  i = i0 \/ (kgnrm b i <> 0 -> row_norm2 k (kV b) i = 1) ->
  kgnrm b1 i <> 0 -> row_norm2 k (kV b1) i = 1.
Proof.
  intros H4 b1 Hi. subst b1. rewrite mix_kernel_step_gnrm.
  unfold row_norm2.
  destruct (Z.eq_dec i i0) as [->|Hne].
  - rewrite store_same. intros Hd.
    rewrite <- (forward_direction_unit prox_lam m k Smat dz Vproj Snrms i0 b H4 Hd).
    apply rsum_ext. intros c Hc.
    rewrite mix_kernel_step_V, in_row_iff, Z.eqb_refl by lia.
    replace (i0 * k + c - i0 * k)%Z with c by lia. reflexivity.
  - destruct Hi as [Hi|Hi]; [contradiction|].
    rewrite store_other by exact Hne. intros Hd.
    rewrite <- (Hi Hd). unfold row_norm2.
    apply rsum_ext. intros c Hc.
    rewrite mix_kernel_step_V, in_row_iff by lia.
    apply Z.eqb_neq in Hne as ->. reflexivity.
Qed.

Lemma forward_fold_unit_rows prox_lam m k (Smat dz Vproj Snrms : buf R) :
  (k mod 4 = 0)%Z ->
  forall (l : list Z) b delta i,
    In i l \/ (kgnrm b i <> 0 -> row_norm2 k (kV b) i = 1) ->
    let b' :=
      fst (fold_left
             (fun acc i => mix_kernel_step true prox_lam m k Smat dz Vproj Snrms i acc)
             l (b, delta)) in
    kgnrm b' i <> 0 -> row_norm2 k (kV b') i = 1.
Proof.
  intros H4. induction l as [|a l IH]; intros b delta i Hi; cbv zeta.
  - cbn [fold_left fst]. destruct Hi as [[]|Hi]; exact Hi.
  - cbn [fold_left].
    destruct (mix_kernel_step true prox_lam m k Smat dz Vproj Snrms a (b, delta))
      as [b1 d1] eqn:E.
    apply IH.
    destruct (in_dec Z.eq_dec i l) as [Hin|Hnin]; [now left | right].
    change b1 with (fst (b1, d1)). rewrite <- E.
    apply forward_step_unit_rows; [exact H4|].
    destruct Hi as [[->|Hin]|Hi]; [now left | contradiction | now right].
Qed.

(** A step of either mode keeps the accumulator relation. *)
Lemma step_accumulator_ok is_forward prox_lam n m k (Smat dz Vproj Snrms : buf R)
    i b delta :
  (m mod 4 = 0)%Z -> (0 <= i < n)%Z ->
  accumulator_ok n m k Smat (kV b) (kW b) ->
  let b1 :=
    fst (mix_kernel_step is_forward prox_lam m k Smat dz Vproj Snrms i (b, delta)) in
  accumulator_ok n m k Smat (kV b1) (kW b1).
Proof.
  intros H4 Hi Hok b1 kk j Hkk Hj. subst b1.
  rewrite mix_kernel_step_W by (try assumption; lia).
  replace ((0 <=? kk)%Z && (kk <? k)%Z) with true
    by (symmetry; apply andb_true_iff; split;
        [apply Z.leb_le | apply Z.ltb_lt]; lia).
  rewrite (Hok kk j Hkk Hj). exact_ops.
  set (t := snd (kernel_direction (ops := Exact.ops) is_forward prox_lam m k Smat dz
                   Vproj Snrms i b)).
  symmetry.
  rewrite rsum_update
    with (f := fun i' => kV b (i' * k + kk)%Z * Smat (i' * m + j)%Z) (i := i).
  - cbv beta. rewrite mix_kernel_step_V, in_row_iff, Z.eqb_refl by lia.
    replace (i * k + kk - i * k)%Z with kk by lia. fold t. lra.
  - lia.
  - intros c Hc. cbv beta. rewrite mix_kernel_step_V, in_row_iff by lia.
    apply Z.eqb_neq in Hc as ->. reflexivity.
Qed.

Lemma fold_accumulator_ok is_forward prox_lam n m k (Smat dz Vproj Snrms : buf R) :
  (m mod 4 = 0)%Z ->
  forall (l : list Z) b delta,
    (forall i, In i l -> (0 <= i < n)%Z) ->
    accumulator_ok n m k Smat (kV b) (kW b) ->
    let b' :=
      fst (fold_left
             (fun acc i =>
                mix_kernel_step is_forward prox_lam m k Smat dz Vproj Snrms i acc)
             l (b, delta)) in
    accumulator_ok n m k Smat (kV b') (kW b').
Proof.
  intros H4. induction l as [|a l IH]; intros b delta Hl Hok; cbv zeta.
  - exact Hok.
  - cbn [fold_left].
    destruct (mix_kernel_step is_forward prox_lam m k Smat dz Vproj Snrms a (b, delta))
      as [b1 d1] eqn:E.
    apply IH; [intros i Hi; apply Hl; now right|].
    change b1 with (fst (b1, d1)). rewrite <- E.
    apply step_accumulator_ok; [exact H4 | apply Hl; now left | exact Hok].
Qed.

(** The stopping test over the reals: nothing non-negative is below
    zero times the tolerance. *)
Lemma converged_instance_exact max_iter (eps : R) n m k index
    (Smat z Snrms : buf R) b :
  (0 <= max_iter)%Z ->
  sweep_delta m k index Smat Snrms O b = 0 ->
  (forall t, 0 <= sweep_delta m k index Smat Snrms t b) ->
  fw_niter (mix_forward max_iter eps n m k index Smat z b Snrms) = max_iter
  /\ fw_calls (mix_forward max_iter eps n m k index Smat z b Snrms)
     = repeat true (Z.to_nat max_iter).
Proof.
  intros Hmax H0 Hpos.
  destruct (mix_forward_sweeps (ops := Exact.ops) max_iter eps n m k index Smat z b
              Snrms) as (s & conv & Ec & _ & En & Hle & Hc & Hx).
  assert (conv = false) as ->.
  { destruct conv; [|reflexivity]. exfalso.
    destruct (Hc eq_refl) as (t & -> & Ht & Hlt).
    rewrite H0 in Hlt. exact_ops.
    change (@flt Exact.ops) with Rltb in Hlt. unfold Rltb in Hlt.
    specialize (Hpos t).
    destruct (Rlt_dec _ _) as [Hr|Hr] in Hlt; [lra | discriminate]. }
  rewrite (Hx eq_refl) in Ec, En. rewrite Ec, En. split; [lia | reflexivity].
Qed.

(** Over the reals [saturate] is the clamp to [0, 1], and so is every
    decoded value. *)
Lemma saturate_exact_range (x : R) : 0 <= saturate x <= 1.
Proof.
  unfold saturate, float_of_bool, f0, f1. exact_ops.
  change (@flt Exact.ops) with Rltb. unfold Rltb.
  destruct (Rlt_dec x 0); destruct (Rlt_dec 1 x); lra.
Qed.

Lemma decoded_exact_range k (V : buf R) i : 0 <= decoded k V i <= 1.
Proof. unfold decoded. cbv zeta. apply saturate_exact_range. Qed.

(** C3, as amended.  In exact arithmetic, with rows of a whole number of
    lane groups, after a sweep of the kernel in forward mode every row of
    [V] the sweep updated has Euclidean norm 1 (its squared norm is 1),
    provided the divisor of its last update, which the sweep leaves in
    [gnrm], is not 0. *)
Theorem forward_sweep_unit_rows prox_lam m k index (Smat dz Vproj Snrms : buf R) b i :
  (k mod 4 = 0)%Z ->
  In i (visited index) ->
  kgnrm (fst (mix_kernel true prox_lam m k index Smat dz Vproj Snrms b)) i <> 0 ->
  row_norm2 k (kV (fst (mix_kernel true prox_lam m k index Smat dz Vproj Snrms b))) i
  = 1.
Proof.
  intros H4 Hi. unfold mix_kernel.
  apply (forward_fold_unit_rows prox_lam m k Smat dz Vproj Snrms H4). now left.
Qed.

(** C4.  In exact arithmetic, with rows of [S] and [W] of a whole number of
    lane groups and every visited id a variable of the instance, a sweep of
    the kernel in either mode keeps the accumulator relation: if
    [W[kk][j] = sum_i V[i][kk] * S[i][j]] holds at entry, it holds at exit
    for the updated [V] and [W]. *)
Theorem accumulator_preserved is_forward prox_lam n m k index
    (Smat dz Vproj Snrms : buf R) b :
  (m mod 4 = 0)%Z ->
  (forall i, In i (visited index) -> (0 <= i < n)%Z) ->
  accumulator_ok n m k Smat (kV b) (kW b) ->
  accumulator_ok n m k Smat
    (kV (fst (mix_kernel is_forward prox_lam m k index Smat dz Vproj Snrms b)))
    (kW (fst (mix_kernel is_forward prox_lam m k index Smat dz Vproj Snrms b))).
Proof.
  intros H4 Hidx Hok. unfold mix_kernel.
  now apply (fold_accumulator_ok is_forward prox_lam n m k Smat dz Vproj Snrms H4).
Qed.

End ExactArithmetic.

(** ** IEEE arithmetic: what the float code does at the edges *)

(** The constant taken for the literal 1e-24 is within half a unit in the
    last place (2^-132) of 10^-24, and its mantissa has 53 bits. *)
Lemma d1em24_nearest :
  exists mant,
    IEEE.d1em24 = S754_finite false mant (-132)
    /\ 2 * Z.abs (Zpos mant * 10 ^ 24 - 2 ^ 132) <= 10 ^ 24
    /\ 2 ^ 52 <= Zpos mant < 2 ^ 53.
Proof.
  eexists. split; [reflexivity|]. split.
  - vm_compute. discriminate.
  - split; vm_compute; [discriminate | reflexivity].
Qed.

Section IEEEArithmetic.
Variable lm : IEEE.libm.

(** Nothing non-negative is below zero times a tolerance: the product is a
    zero, or NaN when the tolerance is infinite or NaN. *)
Lemma not_below_zero_times (d e : spec_float) (s : bool) :
  SFleb (S754_zero false) d = true ->
  SFltb d (SFmul 24 128 (S754_zero s) e) = false.
Proof.
  destruct e as [se|se| |se me ee]; destruct d as [sd|sd| |sd md ed];
    cbn; try reflexivity; try discriminate;
    destruct sd; cbn; try reflexivity; try discriminate.
Qed.

Lemma zero_times_finite (e : spec_float) (s : bool) :
  IEEE.is_finite e = true ->
  exists s', SFmul 24 128 (S754_zero s) e = S754_zero s'.
Proof.
  destruct e as [se|se| |se me ee]; cbn; try discriminate; intros _; eauto.
Qed.

Lemma zero_times_nonfinite (e : spec_float) (s : bool) :
  IEEE.is_finite e = false ->
  SFmul 24 128 (S754_zero s) e = S754_nan.
Proof.
  destruct e as [se|se| |se me ee]; cbn; try discriminate; intros _; reflexivity.
Qed.

(** C8, as amended.  If the first forward sweep returns a zero and every
    later sweep a non-negative movement, [mix_forward] makes all [max_iter]
    sweeps, leaves the buffers as they are after that many sweeps, decodes
    [z] from them and records [niter = max_iter].  The rescaled tolerance is
    zero times [eps]: a zero for a finite [eps], NaN for an infinite or NaN
    [eps]; the strict test fires against neither. *)
Theorem converged_instance_never_stops_early max_iter eps n m k index Smat z b Snrms :
  0 <= max_iter ->
  (exists s, sweep_delta (ops := IEEE.ops lm) m k index Smat Snrms O b = S754_zero s) ->
  (forall t, (1 <= t)%nat -> Z.of_nat t < max_iter ->
     SFleb (S754_zero false)
       (sweep_delta (ops := IEEE.ops lm) m k index Smat Snrms t b) = true) ->
  let r := mix_forward (ops := IEEE.ops lm) max_iter eps n m k index Smat z b Snrms in
  let tol := fmul (sweep_delta (ops := IEEE.ops lm) m k index Smat Snrms O b) eps in
  fw_niter r = max_iter
  /\ fw_calls r = repeat true (Z.to_nat max_iter)
  /\ fw_bufs r
     = sweep_bufs (ops := IEEE.ops lm) m k index Smat Snrms (Z.to_nat max_iter) b
  /\ fw_z r
     = decode (ops := IEEE.ops lm) k index
         (kV (sweep_bufs (ops := IEEE.ops lm) m k index Smat Snrms
                (Z.to_nat max_iter) b)) z
  /\ (IEEE.is_finite eps = true -> exists s', tol = S754_zero s')
  /\ (IEEE.is_finite eps = false -> tol = S754_nan)
  /\ (forall t, (1 <= t)%nat -> Z.of_nat t < max_iter ->
        SFltb (sweep_delta (ops := IEEE.ops lm) m k index Smat Snrms t b) tol = false).
Proof.
  intros Hmax [s0 H0] Hpos r tol. subst r tol.
  destruct (mix_forward_sweeps (ops := IEEE.ops lm) max_iter eps n m k index Smat z b
              Snrms) as (s & conv & Ec & Eb & En & Hle & Hc & Hx).
  assert (Htest : forall t, (1 <= t)%nat -> Z.of_nat t < max_iter ->
            SFltb (sweep_delta (ops := IEEE.ops lm) m k index Smat Snrms t b)
              (SFmul 24 128 (S754_zero s0) eps) = false).
  { intros t Ht1 Ht2. apply not_below_zero_times. now apply Hpos. }
  assert (conv = false) as ->.
  { destruct conv; [|reflexivity]. exfalso.
    destruct (Hc eq_refl) as (t & -> & Ht & Hlt).
    rewrite H0 in Hlt.
    change (SFltb (sweep_delta (ops := IEEE.ops lm) m k index Smat Snrms t b)
              (SFmul 24 128 (S754_zero s0) eps) = true) in Hlt.
    rewrite Htest in Hlt; [discriminate | exact Ht | lia]. }
  rewrite (Hx eq_refl) in Ec, Eb, En.
  assert (Ez : fw_z (mix_forward (ops := IEEE.ops lm) max_iter eps n m k index Smat z b
                       Snrms)
               = decode (ops := IEEE.ops lm) k index
                   (kV (fw_bufs (mix_forward (ops := IEEE.ops lm) max_iter eps n m k
                                   index Smat z b Snrms))) z).
  { rewrite mix_forward_unfold. reflexivity. }
  rewrite Ez, Ec, Eb, En, H0.
  change (@fmul (IEEE.ops lm)) with (SFmul 24 128).
  split; [lia|]. split; [reflexivity|]. split; [reflexivity|]. split; [reflexivity|].
  split; [now apply zero_times_finite|]. split; [now apply zero_times_nonfinite|].
  exact Htest.
Qed.

(** [saturate] is arithmetic, not a comparison-and-select: it hands a NaN
    on, and past 2^24 the rounding of [1 - x] shows, as at 2^24 + 2. *)
Lemma saturate_nan : saturate (ops := IEEE.ops lm) S754_nan = S754_nan.
Proof. vm_compute. reflexivity. Qed.

Lemma saturate_16777218 :
  saturate (ops := IEEE.ops lm) (Sample.fl 16777218) = Sample.fl 2.
Proof. vm_compute. reflexivity. Qed.

(** With an [acosf] that returns NaN for NaN, a NaN first coordinate is
    decoded to NaN. *)
Lemma decoded_nan k (V : buf spec_float) i :
  IEEE.lm_acosf lm S754_nan = S754_nan ->
  V (i * k) = S754_nan ->
  decoded (ops := IEEE.ops lm) k V i = S754_nan.
Proof.
  intros Hnan HV. unfold decoded. cbv zeta. rewrite HV.
  match goal with
  | |- context [acos_f ?c] => replace c with S754_nan by (vm_compute; reflexivity)
  end.
  change (@acos_f (IEEE.ops lm) S754_nan) with (IEEE.lm_acosf lm S754_nan).
  rewrite Hnan. vm_compute. reflexivity.
Qed.

(** C6, at the input where the code leaves the claim.  On the "flat"
    instance the gradient of variable 1 is exactly 0: the sweep stores the
    norm 0, divides by it, and row 1 of [V] becomes NaN.  [saturate] hands a
    NaN on, so with an [acosf] that returns NaN for NaN the decoded [z[1]] is
    NaN, which is not in [0, 1]. *)
Theorem zero_gradient_decodes_to_nan :
  IEEE.lm_acosf lm S754_nan = S754_nan ->
  let r :=
    mix_forward (ops := IEEE.ops lm) 1 Sample.eps10 2 4 4 Sample.index_free
      Sample.flat_S Sample.zeros (Sample.flat_start lm) Sample.flat_Snrms in
  kgnrm (fw_bufs r) 1 = S754_zero false
  /\ kV (fw_bufs r) 4 = S754_nan
  /\ saturate (ops := IEEE.ops lm) S754_nan = S754_nan
  /\ fw_z r 1 = S754_nan
  /\ Sample.in_unit (fw_z r 1) = false.
Proof.
  intros Hnan r.
  assert (Hg : kgnrm (fw_bufs r) 1 = S754_zero false) by (vm_compute; reflexivity).
  assert (HV : kV (fw_bufs r) (1 * 4) = S754_nan) by (vm_compute; reflexivity).
  assert (Hz : fw_z r 1 = S754_nan).
  { subst r. rewrite mix_forward_decodes by (cbn; auto).
    now apply decoded_nan. }
  repeat split; try assumption; try apply saturate_nan.
  rewrite Hz. reflexivity.
Qed.

End IEEEArithmetic.

(** ** Closed instances *)

Section Instances.
Import Sample.

(** C1 fails as stated, on both counts.  On "pull" the forward pass
    leaves its loop through the test at [iter = 1], after its second sweep:
    [niter] is 1 for two kernel invocations.  On "flat" it makes three sweeps
    and records [niter = 3], and the backward pass, which flags the instance
    in its rescaling loop, invokes the kernel not once. *)
Lemma niter_is_not_the_sweep_count :
  let r1 :=
    mix_forward (ops := IEEE.annex_ops) 50 eps10 2 4 4 index_free pull_S zeros
      (pull_start IEEE.annex_f) pull_Snrms in
  let r2 :=
    mix_forward (ops := IEEE.annex_ops) 3 eps10 2 4 4 index_free flat_S zeros
      (flat_start IEEE.annex_f) flat_Snrms in
  let rb2 :=
    mix_backward (ops := IEEE.annex_ops) (fl 0) 2 4 4 input_0 index_free
      (fw_niter r2) flat_S zeros (fw_z r2) dz_1 (kV (fw_bufs r2)) zeros
      (kW (fw_bufs r2)) zeros (kgnrm (fw_bufs r2)) flat_Snrms (kg (fw_bufs r2)) in
  (fw_niter r1 = 1 /\ fw_calls r1 = [true; true])
  /\ (fw_niter r2 = 3 /\ fw_calls r2 = [true; true; true]
      /\ bw_invalid rb2 = true /\ bw_calls rb2 = []).
Proof. vm_compute. repeat split; reflexivity. Qed.

(** C1, as amended, at two inputs: an instance whose only other variable is
    an input (the loop runs out, nothing is flagged), and "flat" (flagged). *)
Lemma niter_and_adjoint_sweeps_witness :
  let r1 :=
    mix_forward (ops := IEEE.annex_ops) 2 eps10 2 4 4 index_none pull_S zeros
      (pull_start IEEE.annex_f) pull_Snrms in
  let rb1 :=
    mix_backward (ops := IEEE.annex_ops) (fl 0) 2 4 4 input_01 index_none (fw_niter r1) pull_S
      zeros (fw_z r1) dz_7_1 (kV (fw_bufs r1)) zeros (kW (fw_bufs r1)) zeros
      (kgnrm (fw_bufs r1)) pull_Snrms (kg (fw_bufs r1)) in
  let r2 :=
    mix_forward (ops := IEEE.annex_ops) 3 eps10 2 4 4 index_free flat_S zeros
      (flat_start IEEE.annex_f) flat_Snrms in
  let rb2 :=
    mix_backward (ops := IEEE.annex_ops) (fl 0) 2 4 4 input_0 index_free (fw_niter r2) flat_S
      zeros (fw_z r2) dz_1 (kV (fw_bufs r2)) zeros (kW (fw_bufs r2)) zeros
      (kgnrm (fw_bufs r2)) flat_Snrms (kg (fw_bufs r2)) in
  (fw_niter r1 = Z.max 0 2 /\ fw_calls r1 = repeat true (Z.to_nat (fw_niter r1)))
  /\ (snd (rescale_dz (ops := IEEE.annex_ops) index_none (fw_z r1) (kgnrm (fw_bufs r1)) dz_7_1)
      = false
      /\ bw_calls rb1 = repeat false (Z.to_nat (fw_niter r1)))
  /\ (snd (rescale_dz (ops := IEEE.annex_ops) index_free (fw_z r2) (kgnrm (fw_bufs r2)) dz_1)
      = true
      /\ bw_calls rb2 = []).
Proof.
  cbv zeta.
  pose proof (niter_and_adjoint_sweeps (ops := IEEE.annex_ops) 2 eps10 (fl 0) 2 4 4 input_01
                index_none pull_S pull_Snrms zeros (pull_start IEEE.annex_f) zeros
                dz_7_1 zeros zeros) as [H1 [H2 _]].
  pose proof (niter_and_adjoint_sweeps (ops := IEEE.annex_ops) 3 eps10 (fl 0) 2 4 4 input_0
                index_free flat_S flat_Snrms zeros (flat_start IEEE.annex_f) zeros
                dz_1 zeros zeros) as [_ [_ H3]].
  cbv zeta in H1, H2, H3.
  assert (E1 : fw_niter
                 (mix_forward (ops := IEEE.annex_ops) 2 eps10 2 4 4 index_none pull_S zeros
                    (pull_start IEEE.annex_f) pull_Snrms) = Z.max 0 2)
    by (vm_compute; reflexivity).
  assert (E2 : snd (rescale_dz (ops := IEEE.annex_ops) index_none
                      (fw_z (mix_forward (ops := IEEE.annex_ops) 2 eps10 2 4 4 index_none pull_S
                               zeros (pull_start IEEE.annex_f) pull_Snrms))
                      (kgnrm (fw_bufs (mix_forward (ops := IEEE.annex_ops) 2 eps10 2 4 4
                                         index_none pull_S zeros
                                         (pull_start IEEE.annex_f) pull_Snrms)))
                      dz_7_1) = false)
    by (vm_compute; reflexivity).
  assert (E3 : snd (rescale_dz (ops := IEEE.annex_ops) index_free
                      (fw_z (mix_forward (ops := IEEE.annex_ops) 3 eps10 2 4 4 index_free flat_S
                               zeros (flat_start IEEE.annex_f) flat_Snrms))
                      (kgnrm (fw_bufs (mix_forward (ops := IEEE.annex_ops) 3 eps10 2 4 4
                                         index_free flat_S zeros
                                         (flat_start IEEE.annex_f) flat_Snrms)))
                      dz_1) = true)
    by (vm_compute; reflexivity).
  exact (conj (conj E1 (H1 E1)) (conj (conj E2 (H2 E2)) (conj E3 (H3 E3)))).
Defined.

(** C2 fails as stated: with [z[1] = 0] the rescaled gradient is
    [1 / pi / sin(0)], an infinity, and the instance is flagged; [dz] is
    zeroed, but a [dS] that came in as 1 everywhere goes out as 1
    everywhere. *)
Lemma invalid_pass_leaves_dS :
  let rb :=
    mix_backward (ops := IEEE.annex_ops) (fl 0) 2 4 4 input_0 index_free 3 pull_S ones zeros
      dz_1 V_e0_e1 zeros pull_W zeros gnrm_1 pull_Snrms zeros in
  bw_invalid rb = true
  /\ map (bw_dz rb) [0; 1] = [fl 0; fl 0]
  /\ map (bw_dS rb) [0; 1; 2; 3; 4; 5; 6; 7] = repeat (fl 1) 8
  /\ SFeqb (bw_dS rb 0) (fl 0) = false.
Proof. vm_compute. repeat split; reflexivity. Qed.

Lemma mix_backward_invalid_fallback_witness :
  let rb :=
    mix_backward (ops := IEEE.annex_ops) (fl 0) 2 4 4 input_0 index_free 3 pull_S ones zeros
      dz_1 V_e0_e1 zeros pull_W zeros gnrm_1 pull_Snrms zeros in
  bw_invalid rb = true
  /\ (forall j, 0 <= j < 2 -> bw_dz rb j = fl 0)
  /\ (forall j, bw_dS rb j = ones j).
Proof.
  cbv zeta.
  assert (E : bw_invalid
                (mix_backward (ops := IEEE.annex_ops) (fl 0) 2 4 4 input_0 index_free 3 pull_S
                   ones zeros dz_1 V_e0_e1 zeros pull_W zeros gnrm_1 pull_Snrms
                   zeros) = true)
    by (vm_compute; reflexivity).
  exact (conj E
           (mix_backward_invalid_fallback (ops := IEEE.annex_ops) (fl 0) 2 4 4 input_0 index_free
              3 pull_S ones zeros dz_1 V_e0_e1 zeros pull_W zeros gnrm_1 pull_Snrms
              zeros E)).
Defined.

(** C6: the table meets the hypothesis on [acosf]. *)
Lemma zero_gradient_decodes_to_nan_witness :
  IEEE.lm_acosf IEEE.annex_f S754_nan = S754_nan
  /\ fw_z (mix_forward (ops := IEEE.annex_ops) 1 eps10 2 4 4 index_free flat_S zeros
             (flat_start IEEE.annex_f) flat_Snrms) 1 = S754_nan.
Proof.
  split; [reflexivity|].
  exact (proj1 (proj2 (proj2 (proj2
           (zero_gradient_decodes_to_nan IEEE.annex_f eq_refl))))).
Defined.

(** C7 fails as stated: [mix_init] rewrites row 0 like every other row.
    Flagged as an input with [z[0] = 0], a row 0 seeded (3, 4, 0, 0) becomes
    (-cos 0, copysign(sin 0, 4), 0, 0) = (-1, 0, 0, 0); not flagged, a row 0
    seeded (2, 0, 0, 0) is scaled by [1 / sqrtf(4)] to (1, 0, 0, 0). *)
Lemma mix_init_rewrites_row0 :
  (map (fst (mix_init (ops := IEEE.annex_ops) no_input 2 4 input_0 no_input zeros V_seed34))
     [0; 1; 2; 3] = [fl (-1); fl 0; fl 0; fl 0]
   /\ map V_seed34 [0; 1; 2; 3] = [fl 3; fl 4; fl 0; fl 0])
  /\ (map (fst (mix_init (ops := IEEE.annex_ops) no_input 2 4 no_input no_input zeros V_seed2))
        [0; 1; 2; 3] = [fl 1; fl 0; fl 0; fl 0]
      /\ map V_seed2 [0; 1; 2; 3] = [fl 2; fl 0; fl 0; fl 0]).
Proof. vm_compute. repeat split; reflexivity. Qed.

Lemma embedding_row0_fixed_witness :
  0 <= 0 < 4
  /\ kV (fst (mix_kernel (ops := IEEE.annex_ops) true (fl 0) 4 4 index_free pull_S zeros zeros
                pull_Snrms (pull_start IEEE.annex_f))) 0 = fl 1
  /\ kV (fw_bufs (mix_forward (ops := IEEE.annex_ops) 50 eps10 2 4 4 index_free pull_S zeros
                    (pull_start IEEE.annex_f) pull_Snrms)) 0 = fl 1
  /\ bw_U (mix_backward (ops := IEEE.annex_ops) (fl 0) 2 4 4 input_0 index_free 3 pull_S ones
             zeros dz_1 V_e0_e1 V_e0_e1 pull_W zeros gnrm_1 pull_Snrms zeros) 0
     = fl 1.
Proof.
  assert (H : 0 <= 0 < 4) by lia.
  exact (conj H
           (embedding_row0_fixed (ops := IEEE.annex_ops) true (fl 0) 50 eps10 2 4 4 input_0
              index_free 3 pull_S ones zeros dz_1 zeros V_e0_e1 V_e0_e1 pull_W zeros
              gnrm_1 pull_Snrms zeros (pull_start IEEE.annex_f) 0 H)).
Defined.

(** C8 fails as stated where [eps] is not finite: on "pull" at its fixed
    point the first sweep returns +0, and with [eps] = +infinity the rescaled
    tolerance is [0 * inf], NaN and not 0.  The pass makes its three sweeps
    all the same. *)
Lemma infinite_eps_tolerance_is_nan :
  sweep_delta (ops := IEEE.annex_ops) 4 4 index_free pull_S pull_Snrms O
    (pulled_start IEEE.annex_f) = S754_zero false
  /\ @fmul IEEE.annex_ops
       (sweep_delta (ops := IEEE.annex_ops) 4 4 index_free pull_S pull_Snrms O
          (pulled_start IEEE.annex_f))
       (S754_infinity false) = S754_nan
  /\ SFeqb
       (@fmul IEEE.annex_ops
          (sweep_delta (ops := IEEE.annex_ops) 4 4 index_free pull_S pull_Snrms O
             (pulled_start IEEE.annex_f))
          (S754_infinity false))
       (S754_zero false) = false
  /\ fw_niter (mix_forward (ops := IEEE.annex_ops) 3 (S754_infinity false) 2 4 4
                 index_free pull_S zeros (pulled_start IEEE.annex_f) pull_Snrms) = 3
  /\ fw_calls (mix_forward (ops := IEEE.annex_ops) 3 (S754_infinity false) 2 4 4
                 index_free pull_S zeros (pulled_start IEEE.annex_f) pull_Snrms)
     = [true; true; true].
Proof.
  repeat split; vm_compute; reflexivity.
Qed.

(** C8, as amended, on "pull" at its fixed point with [eps] = 2^-10: three
    sweeps, [niter = 3], the buffers those of three sweeps (the sweeps do
    write: [gnrm[1]] goes from 0 to 1), the tolerance +0. *)
Lemma converged_instance_never_stops_early_witness :
  0 <= 3
  /\ (exists s,
        sweep_delta (ops := IEEE.annex_ops) 4 4 index_free pull_S pull_Snrms O
          (pulled_start IEEE.annex_f) = S754_zero s)
  /\ (forall t, (1 <= t)%nat -> Z.of_nat t < 3 ->
        SFleb (S754_zero false)
          (sweep_delta (ops := IEEE.annex_ops) 4 4 index_free pull_S pull_Snrms t
             (pulled_start IEEE.annex_f)) = true)
  /\ fw_niter (mix_forward (ops := IEEE.annex_ops) 3 eps10 2 4 4 index_free pull_S zeros
                 (pulled_start IEEE.annex_f) pull_Snrms) = 3
  /\ fw_calls (mix_forward (ops := IEEE.annex_ops) 3 eps10 2 4 4 index_free pull_S zeros
                 (pulled_start IEEE.annex_f) pull_Snrms) = [true; true; true]
  /\ fw_bufs (mix_forward (ops := IEEE.annex_ops) 3 eps10 2 4 4 index_free pull_S zeros
                (pulled_start IEEE.annex_f) pull_Snrms)
     = sweep_bufs (ops := IEEE.annex_ops) 4 4 index_free pull_S pull_Snrms
         (Z.to_nat 3) (pulled_start IEEE.annex_f)
  /\ kgnrm (pulled_start IEEE.annex_f) 1 = fl 0
  /\ kgnrm (fw_bufs (mix_forward (ops := IEEE.annex_ops) 3 eps10 2 4 4 index_free pull_S
                       zeros (pulled_start IEEE.annex_f) pull_Snrms)) 1 = fl 1
  /\ (exists s',
        @fmul IEEE.annex_ops
          (sweep_delta (ops := IEEE.annex_ops) 4 4 index_free pull_S pull_Snrms O
             (pulled_start IEEE.annex_f)) eps10 = S754_zero s').
Proof.
  assert (H0 : 0 <= 3) by lia.
  assert (H1 : exists s,
             sweep_delta (ops := IEEE.annex_ops) 4 4 index_free pull_S pull_Snrms O
               (pulled_start IEEE.annex_f) = S754_zero s)
    by (exists false; vm_compute; reflexivity).
  assert (H2 : forall t, (1 <= t)%nat -> Z.of_nat t < 3 ->
             SFleb (S754_zero false)
               (sweep_delta (ops := IEEE.annex_ops) 4 4 index_free pull_S pull_Snrms t
                  (pulled_start IEEE.annex_f)) = true).
  { intros [|[|[|t]]] Ht1 Ht2; try lia; vm_compute; reflexivity. }
  assert (Hfin : IEEE.is_finite eps10 = true) by reflexivity.
  assert (Hg0 : kgnrm (pulled_start IEEE.annex_f) 1 = fl 0) by reflexivity.
  assert (Hg1 : kgnrm (fw_bufs (mix_forward (ops := IEEE.annex_ops) 3 eps10 2 4 4
                                  index_free pull_S zeros (pulled_start IEEE.annex_f)
                                  pull_Snrms)) 1 = fl 1)
    by (vm_compute; reflexivity).
  pose proof (converged_instance_never_stops_early IEEE.annex_f 3 eps10 2 4 4
                index_free pull_S zeros (pulled_start IEEE.annex_f) pull_Snrms
                H0 H1 H2) as (Hn & Hc & Hb & _ & Htol & _).
  exact (conj H0 (conj H1 (conj H2 (conj Hn (conj Hc (conj Hb (conj Hg0 (conj Hg1
           (Htol Hfin))))))))).
Defined.

(** C9 at "pull", whose index array is the one [mix_init] builds when
    only variable 0 is an input: neither [z[0]] nor [z[2]] is written. *)
Lemma mix_forward_z_frame_witness :
  ~ In 2 (visited index_free)
  /\ index_free
     = index_array 2
         (snd (mix_init (ops := IEEE.annex_ops) no_input 2 4 input_0 no_input zeros
                 V_seed34))
  /\ input_0 0 <> 0
  /\ fw_z (mix_forward (ops := IEEE.annex_ops) 50 eps10 2 4 4 index_free pull_S
             dz_7_1 (pull_start IEEE.annex_f) pull_Snrms) 2 = dz_7_1 2
  /\ fw_z (mix_forward (ops := IEEE.annex_ops) 50 eps10 2 4 4 index_free pull_S
             dz_7_1 (pull_start IEEE.annex_f) pull_Snrms) 0 = fl 7.
Proof.
  assert (H2 : ~ In 2 (visited index_free)) by (cbn; intuition lia).
  assert (Hidx : index_free
                 = index_array 2
                     (snd (mix_init (ops := IEEE.annex_ops) no_input 2 4 input_0
                             no_input zeros V_seed34)))
    by (vm_compute; reflexivity).
  assert (Hin : input_0 0 <> 0) by (vm_compute; discriminate).
  pose proof (mix_forward_z_frame (ops := IEEE.annex_ops) 50 eps10 2 4 4 index_free
                pull_S dz_7_1 (pull_start IEEE.annex_f) pull_Snrms) as [Hf [_ Hi]].
  exact (conj H2 (conj Hidx (conj Hin (conj (Hf 2 H2)
           (Hi no_input 4 input_0 no_input zeros V_seed34 0 Hidx Hin))))).
Defined.

(** C10 at two inputs: an instance whose variable 1 is an input fixed at
    [z = 0], which is not flagged and keeps [dz[0] = 7]; and the flagged
    instance above, whose [dz] is zeroed. *)
Lemma mix_backward_dz0_witness :
  let rb1 :=
    mix_backward (ops := IEEE.annex_ops) (fl 0) 2 4 4 input_01 index_none 2 pull_S zeros zeros
      dz_7_1 V_e0_e1 zeros pull_W zeros gnrm_1 pull_Snrms zeros in
  let rb2 :=
    mix_backward (ops := IEEE.annex_ops) (fl 0) 2 4 4 input_0 index_free 3 pull_S ones zeros
      dz_7_1 V_e0_e1 zeros pull_W zeros gnrm_1 pull_Snrms zeros in
  (bw_invalid rb1 = false /\ bw_dz rb1 0 = fl 7)
  /\ (bw_invalid rb2 = true /\ forall j, 0 <= j < 2 -> bw_dz rb2 j = fl 0).
Proof.
  cbv zeta.
  pose proof (mix_backward_dz0 (ops := IEEE.annex_ops) (fl 0) 2 4 4 input_01 index_none 2 pull_S
                zeros zeros dz_7_1 V_e0_e1 zeros pull_W zeros gnrm_1 pull_Snrms
                zeros) as [H1 _].
  pose proof (mix_backward_dz0 (ops := IEEE.annex_ops) (fl 0) 2 4 4 input_0 index_free 3 pull_S
                ones zeros dz_7_1 V_e0_e1 zeros pull_W zeros gnrm_1 pull_Snrms
                zeros) as [_ H2].
  cbv zeta in H1, H2.
  assert (E1 : bw_invalid
                 (mix_backward (ops := IEEE.annex_ops) (fl 0) 2 4 4 input_01 index_none 2 pull_S
                    zeros zeros dz_7_1 V_e0_e1 zeros pull_W zeros gnrm_1 pull_Snrms
                    zeros) = false)
    by (vm_compute; reflexivity).
  assert (E2 : bw_invalid
                 (mix_backward (ops := IEEE.annex_ops) (fl 0) 2 4 4 input_0 index_free 3 pull_S
                    ones zeros dz_7_1 V_e0_e1 zeros pull_W zeros gnrm_1 pull_Snrms
                    zeros) = true)
    by (vm_compute; reflexivity).
  exact (conj (conj E1 (H1 E1)) (conj E2 (H2 E2))).
Defined.

Ltac exact_eval := cbv -[Rplus Rmult Rminus Ropp Rdiv Rinv sqrt IZR].

(** C3 fails as stated: an adjoint step does not normalize.  From [U = 0]
    and [Phi = 0], with projection row e1, [dz[1] = 2] and divisor
    [gnrm[1] + 0 = 1], row 1 of [U] becomes (-2, 0, 0, 0), of squared norm
    4; every value is an integer, so binary32 computes the same. *)
Lemma adjoint_row_not_unit :
  Exact.row_norm2 4
    (kV (fst (mix_kernel (ops := Exact.ops) false 0%R 4 4 index_free rzeros rdz
                rproj rzeros radjoint_start))) 1 = 4%R
  /\ @fadd Exact.ops (kgnrm radjoint_start 1) 0%R = 1%R
  /\ 4%R <> 1%R.
Proof.
  split; [|split].
  - exact_eval. field.
  - exact_eval. lra.
  - lra.
Qed.

(** The same step in binary32. *)
Lemma adjoint_row_not_unit_binary32 :
  map (kV (fst (mix_kernel (ops := IEEE.annex_ops) false (fl 0) 4 4 index_free zeros
                  (cells (fl 0) [(1, fl 2)]) (cells (fl 0) [(5, fl 1)]) zeros
                  (@Build_kernel_bufs IEEE.annex_ops zeros zeros gnrm_1 zeros))))
    [4; 5; 6; 7]
  = [fl (-2); fl 0; fl 0; fl 0].
Proof. vm_compute. reflexivity. Qed.

(** C3, as amended, at "pull" over the reals: the divisor of row 1 is 1. *)
Lemma forward_sweep_unit_rows_witness :
  (4 mod 4 = 0)
  /\ In 1 (visited index_free)
  /\ kgnrm (fst (mix_kernel (ops := Exact.ops) true 0%R 4 4 index_free rpull_S
                   rzeros rzeros rpull_Snrms rpull_start)) 1 <> 0%R
  /\ Exact.row_norm2 4
       (kV (fst (mix_kernel (ops := Exact.ops) true 0%R 4 4 index_free rpull_S
                   rzeros rzeros rpull_Snrms rpull_start))) 1 = 1%R.
Proof.
  assert (H4 : 4 mod 4 = 0) by reflexivity.
  assert (Hin : In 1 (visited index_free)) by (cbn; auto).
  assert (Hd : kgnrm (fst (mix_kernel (ops := Exact.ops) true 0%R 4 4 index_free
                             rpull_S rzeros rzeros rpull_Snrms rpull_start)) 1
               <> 0%R).
  { exact_eval.
    match goal with
    | |- sqrt ?e = _ -> False => replace e with 1%R by lra
    end.
    rewrite sqrt_1. lra. }
  exact (conj H4 (conj Hin (conj Hd
           (forward_sweep_unit_rows 0%R 4 4 index_free rpull_S rzeros rzeros
              rpull_Snrms rpull_start 1 H4 Hin Hd)))).
Defined.

Lemma rpull_accumulator_ok :
  Exact.accumulator_ok 2 4 4 rpull_S rV_e0_e1 rpull_W.
Proof.
  intros kk j Hkk Hj.
  assert (Ek : kk = 0 \/ kk = 1 \/ kk = 2 \/ kk = 3) by lia.
  assert (Ej : j = 0 \/ j = 1 \/ j = 2 \/ j = 3) by lia.
  destruct Ek as [-> | [-> | [-> | ->]]]; destruct Ej as [-> | [-> | [-> | ->]]];
    exact_eval; lra.
Qed.

(** C4 at "pull" over the reals. *)
Lemma accumulator_preserved_witness :
  (4 mod 4 = 0)
  /\ (forall i, In i (visited index_free) -> 0 <= i < 2)
  /\ Exact.accumulator_ok 2 4 4 rpull_S rV_e0_e1 rpull_W
  /\ Exact.accumulator_ok 2 4 4 rpull_S
       (kV (fst (mix_kernel (ops := Exact.ops) true 0%R 4 4 index_free rpull_S
                   rzeros rzeros rpull_Snrms rpull_start)))
       (kW (fst (mix_kernel (ops := Exact.ops) true 0%R 4 4 index_free rpull_S
                   rzeros rzeros rpull_Snrms rpull_start))).
Proof.
  assert (H4 : 4 mod 4 = 0) by reflexivity.
  assert (Hidx : forall i, In i (visited index_free) -> 0 <= i < 2)
    by (cbn; intros i [<-|[]]; lia).
  exact (conj H4 (conj Hidx (conj rpull_accumulator_ok
           (accumulator_preserved true 0%R 2 4 4 index_free rpull_S rzeros rzeros
              rpull_Snrms rpull_start H4 Hidx rpull_accumulator_ok)))).
Defined.

End Instances.

(** * Further properties of the code *)

(** Decide the integer tests of the goal; rewrite the operations of the
    exact arithmetic as operations on the reals. *)
Ltac ztests :=
  repeat
    (let Hz := fresh "Hz" in
     match goal with
     | |- context [?a =? ?b] => destruct (Z.eqb_spec a b) as [Hz|Hz]
     | |- context [?a <? ?b] => destruct (Z.ltb_spec0 a b) as [Hz|Hz]
     | |- context [?a <=? ?b] => destruct (Z.leb_spec0 a b) as [Hz|Hz]
     end);
  cbn [andb orb negb]; try reflexivity; try lia.

Ltac real_ops :=
  change (@fadd Exact.ops) with Rplus in *;
  change (@fsub Exact.ops) with Rminus in *;
  change (@fmul Exact.ops) with Rmult in *;
  change (@fdiv Exact.ops) with Rdiv in *;
  change (@fneg Exact.ops) with Ropp in *;
  change (@sqrt_f Exact.ops) with sqrt in *;
  change (@float_of_int Exact.ops) with IZR in *;
  change (@dadd Exact.ops) with Rplus in *;
  change (@dsub Exact.ops) with Rminus in *;
  change (@dmul Exact.ops) with Rmult in *;
  change (@ddiv Exact.ops) with Rdiv in *;
  change (@dneg Exact.ops) with Ropp in *;
  change (@double_of_int Exact.ops) with IZR in *;
  change (@M_PI Exact.ops) with PI in *;
  change (@sin_d Exact.ops) with sin in *;
  change (@cos_d Exact.ops) with cos in *;
  change (@flt Exact.ops) with Exact.Rltb in *.

Ltac real_eval := cbv -[Rplus Rmult Rminus Ropp Rdiv Rinv sqrt IZR].

(** ** The vector primitives *)

Section Primitives.
Context {ops : FloatOps}.

(** X1.  [sscal], with its loop unrolled five times and its clean-up loop,
    does what the plain loop [for (i = 0; i < l; i++) x[i] *= a] does, for
    every [l]: each of the [l] cells from [x + xo] on is multiplied by [a]
    once, and no other cell is written (none at all when [l <= 0]). *)
Theorem sscal_is_the_plain_loop (x : buf float) xo a l j :
  sscal x xo a l j = for_upto 0 l (fun c x => scale1 x xo a c) x j
  /\ sscal x xo a l j
     = if (xo <=? j) && (j <? xo + l) then x j *f a else x j.
Proof.
  split; [|apply sscal_spec].
  rewrite sscal_spec. unfold for_upto. rewrite scale_range_spec.
  destruct (Z_le_gt_dec 0 l).
  - rewrite Z2Nat.id by lia. ztests.
  - replace (Z.to_nat (l - 0)) with O by lia. ztests.
Qed.

(** X2.  On a length that is a multiple of four, [saxpy] sets
    [y[c] = a * x[c] + y[c]] for the [l] cells from [y + yo] on and writes
    no other cell. *)
Theorem saxpy_padded (y : buf float) yo a (x : buf float) xo l j :
  0 <= l -> l mod 4 = 0 ->
  saxpy y yo a x xo l j
  = if (yo <=? j) && (j <? yo + l)
    then (a *f x (xo + (j - yo))) +f y j else y j.
Proof.
  intros Hl H4. rewrite saxpy_spec, simd_rounds_exact by assumption. reflexivity.
Qed.

Lemma simd_rounds_overrun l :
  0 < l -> l mod 4 <> 0 -> l < 4 * Z.of_nat (simd_rounds l).
Proof.
  intros Hl H4. unfold simd_rounds.
  pose proof (Z.div_mod l 4 ltac:(lia)) as E.
  pose proof (Z.mod_pos_bound l 4 ltac:(lia)) as Hr.
  assert (0 <= l / 4) by (apply Z.div_pos; lia).
  replace ((l + 3) / 4) with (l / 4 + 1).
  - rewrite Z2Nat.id by lia. lia.
  - apply Z.div_unique with (r := l mod 4 - 1); lia.
Qed.

(** X3.  On a positive length that is not a multiple of four, [saxpy]
    runs past it: the cell [y[l]], the first one after the [l] asked for,
    is updated as well, from [x[l]]. *)
Theorem saxpy_overruns_unpadded (y : buf float) yo a (x : buf float) xo l :
  0 < l -> l mod 4 <> 0 ->
  saxpy y yo a x xo l (yo + l) = (a *f x (xo + l)) +f y (yo + l).
Proof.
  intros Hl H4. rewrite saxpy_spec.
  pose proof (simd_rounds_overrun l Hl H4).
  replace ((yo <=? yo + l) && (yo + l <? yo + 4 * Z.of_nat (simd_rounds l)))
    with true by (symmetry; apply andb_true_iff; split;
                  [apply Z.leb_le | apply Z.ltb_lt]; lia).
  do 2 f_equal. f_equal. lia.
Qed.

End Primitives.

Section ExactPrimitives.
#[local] Existing Instance Exact.ops.
Import Exact.
Local Open Scope R_scope.

Lemma rsum_squares_zero n (f : Z -> R) :
  rsum n (fun c => f c * f c) = 0
  <-> forall c, (0 <= c < Z.of_nat n)%Z -> f c = 0.
Proof.
  induction n as [|n IH]; cbn [rsum].
  - split; [intros _ c Hc; lia | reflexivity].
  - assert (Hs : 0 <= rsum n (fun c => f c * f c))
      by (apply rsum_nonneg; intros c; nra).
    split.
    + intros H c Hc.
      assert (Hn : f (Z.of_nat n) * f (Z.of_nat n) = 0) by nra.
      destruct (Z.eq_dec c (Z.of_nat n)) as [->|Hne]; [nra|].
      apply IH; [nra | lia].
    + intros H. rewrite (proj2 IH) by (intros c Hc; apply H; lia).
      rewrite (H (Z.of_nat n)) by lia. lra.
Qed.

Lemma padded_rounds l :
  (l mod 4 = 0)%Z -> (4 * simd_rounds l)%nat = Z.to_nat l.
Proof.
  intros H4. destruct (Z_le_gt_dec 0 l) as [Hl|Hl].
  - pose proof (simd_rounds_exact l Hl H4). lia.
  - rewrite simd_rounds_nonpos by lia. lia.
Qed.

(** X4.  Over the reals, on a length that is a multiple of four, [sdot] is
    the inner product of the [l] cells from [x + xo] and from [y + yo] (0
    when [l <= 0]), whatever the grouping of its SSE lanes. *)
Theorem sdot_is_the_inner_product (x y : buf R) xo yo l :
  (l mod 4 = 0)%Z ->
  sdot x xo y yo l = rsum (Z.to_nat l) (fun c => x (xo + c)%Z * y (yo + c)%Z).
Proof. intros H4. rewrite sdot_exact, padded_rounds by exact H4. reflexivity. Qed.

(** X5.  Over the reals, on a length that is a multiple of four, [snrm2] is
    the Euclidean norm: it is not negative, its square is the sum of the
    squares of the [l] cells, and it is 0 exactly when every one of them
    is. *)
Theorem snrm2_is_the_norm (x : buf R) xo l :
  (l mod 4 = 0)%Z ->
  0 <= snrm2 x xo l
  /\ snrm2 x xo l * snrm2 x xo l
     = rsum (Z.to_nat l) (fun c => x (xo + c)%Z * x (xo + c)%Z)
  /\ (snrm2 x xo l = 0 <-> forall c, (0 <= c < l)%Z -> x (xo + c)%Z = 0).
Proof.
  intros H4. unfold snrm2. cbv zeta.
  rewrite sdot_exact, padded_rounds by exact H4. real_ops.
  set (q := rsum (Z.to_nat l) (fun c => x (xo + c)%Z * x (xo + c)%Z)).
  assert (Hq : 0 <= q) by (apply rsum_nonneg; intros c; nra).
  split; [apply sqrt_pos | split; [now apply sqrt_sqrt|]].
  split.
  - intros Hs. apply sqrt_eq_0 in Hs; [|exact Hq].
    intros c Hc.
    apply (proj1 (rsum_squares_zero (Z.to_nat l) (fun c => x (xo + c)%Z)) Hs). lia.
  - intros Hz.
    replace q with 0; [apply sqrt_0|]. symmetry.
    apply (rsum_squares_zero (Z.to_nat l) (fun c => x (xo + c)%Z)).
    intros c Hc. apply Hz. lia.
Qed.

(** X6.  Over the reals [saturate] is the clamp to [0, 1]: 0 below 0, the
    identity on [0, 1], 1 above 1. *)
Theorem saturate_is_the_clamp (x : R) :
  (x < 0 -> saturate x = 0)
  /\ (0 <= x <= 1 -> saturate x = x)
  /\ (1 < x -> saturate x = 1).
Proof.
  unfold saturate, float_of_bool, f0, f1. real_ops. unfold Rltb.
  repeat split; intros Hx;
    destruct (Rlt_dec x 0); destruct (Rlt_dec 1 x); lra.
Qed.

End ExactPrimitives.

Section IEEEPrimitives.
Variable lm : IEEE.libm.

(** X7.  In binary32 [saturate] clamps no value that is not finite: for a
    NaN and for either infinity its arithmetic yields NaN (for +inf through
    [0 * inf], for -inf through [-inf - -inf]). *)
Theorem saturate_of_nonfinite (x : spec_float) :
  IEEE.is_finite x = false ->
  saturate (ops := IEEE.ops lm) x = S754_nan.
Proof.
  destruct x as [s|s| |s mx ex]; cbn [IEEE.is_finite]; try discriminate; intros _.
  - destruct s; vm_compute; reflexivity.
  - vm_compute. reflexivity.
Qed.

End IEEEPrimitives.

(** ** The initializer *)

Lemma free_ids_S perm is_input t :
  free_ids perm is_input (S t)
  = free_ids perm is_input t
    ++ (if is_input (perm (Z.of_nat t) + 1) =? 0
        then [perm (Z.of_nat t) + 1] else []).
Proof.
  unfold free_ids. rewrite seq_S, map_app, filter_app. cbn [map filter Nat.add].
  reflexivity.
Qed.

Lemma free_ids_length perm is_input t : (length (free_ids perm is_input t) <= t)%nat.
Proof.
  unfold free_ids.
  etransitivity; [apply filter_length_le|]. now rewrite length_map, length_seq.
Qed.

(** The two index loops of [mix_init], cell by cell. *)
Lemma mix_init_index_spec {ops : FloatOps} perm n k is_input index z V :
  1 <= n ->
  let ids := free_ids perm is_input (Z.to_nat (n - 1)) in
  forall c,
    snd (mix_init perm n k is_input index z V) c
    = if (0 <=? c) && (c <? Z.of_nat (length ids)) then nth (Z.to_nat c) ids 0
      else if (0 <=? c) && (c <? n) then 0
      else index c.
Proof.
  intros Hn ids. unfold mix_init. cbv zeta.
  pose proof
    (for_upto_inv
       (fun i_ (st : buf Z * Z) =>
          let l := free_ids perm is_input (Z.to_nat i_) in
          snd st = Z.of_nat (length l)
          /\ forall c, fst st c
                       = if (0 <=? c) && (c <? Z.of_nat (length l))
                         then nth (Z.to_nat c) l 0 else index c)
       (fun i_ '(index, j) =>
          let i := perm i_ + 1 in
          if is_input i =? 0 then (store index j i, j + 1) else (index, j))
       0 (n - 1) (index, 0)) as Inv.
  cbv zeta in Inv.
  destruct (for_upto 0 (n - 1)
              (fun i_ '(index, j) =>
                 if is_input (perm i_ + 1) =? 0
                 then (store index j (perm i_ + 1), j + 1) else (index, j))
              (index, 0)) as [index1 j] eqn:E1.
  cbn [fst snd] in Inv.
  destruct Inv as [Hj Hcells]; [lia | | |].
  { cbn. split; [reflexivity|]. intros c. ztests. }
  { intros i_ [idx j'] Hi [Hj' Hc']. cbn [fst snd] in *.
    replace (Z.to_nat (i_ + 1)) with (S (Z.to_nat i_)) by lia.
    rewrite free_ids_S, Z2Nat.id by lia.
    set (l := free_ids perm is_input (Z.to_nat i_)) in *.
    destruct (is_input (perm i_ + 1) =? 0); cbn [fst snd].
    - rewrite length_app. cbn [length]. split; [lia|].
      intros c. unfold store. rewrite Hc'. subst j'.
      destruct (Z.eqb_spec c (Z.of_nat (length l))) as [->|Hne].
      + replace ((0 <=? Z.of_nat (length l))
                 && (Z.of_nat (length l) <? Z.of_nat (length l + 1))) with true
          by (symmetry; apply andb_true_iff; split;
              [apply Z.leb_le | apply Z.ltb_lt]; lia).
        rewrite Nat2Z.id, nth_middle. reflexivity.
      + ztests. symmetry. apply app_nth1. lia.
    - rewrite app_nil_r. split; assumption. }
  fold ids in Hj, Hcells. cbn [snd].
  pose proof (free_ids_length perm is_input (Z.to_nat (n - 1))) as Hlen.
  fold ids in Hlen.
  intros c.
  assert (Hfill : for_upto j n (fun j index => store index j 0) index1 c
                  = if (j <=? c) && (c <? n) then 0 else index1 c).
  { apply (for_upto_inv
             (fun hi (idx : buf Z) =>
                idx c = if (j <=? c) && (c <? hi) then 0 else index1 c));
      [lia | ztests |].
    intros c0 idx Hc0 Hidx. unfold store. rewrite Hidx. ztests. }
  rewrite Hfill, Hcells. subst j. ztests.
Qed.

(** The entries of a list before its first 0 are the list itself when a 0
    follows it and it holds none. *)
Lemma visited_app_zero (l rest : list Z) :
  (forall i, In i l -> i <> 0) -> visited (l ++ 0 :: rest) = l.
Proof.
  induction l as [|a l IH]; intros Hnz; [reflexivity|].
  cbn [app visited].
  assert (Ha : a <> 0) by (apply Hnz; now left).
  apply Z.eqb_neq in Ha as ->. f_equal. apply IH. intros i Hi. apply Hnz. now right.
Qed.

Lemma index_array_nth n (index : buf Z) c :
  (c < Z.to_nat n)%nat -> nth c (index_array n index) 0 = index (Z.of_nat c).
Proof.
  intros Hc. unfold index_array.
  rewrite (nth_indep _ 0 (index (Z.of_nat 0)))
    by (now rewrite length_map, length_seq).
  rewrite (map_nth (fun c => index (Z.of_nat c))), seq_nth by exact Hc.
  reflexivity.
Qed.

Lemma index_array_length n (index : buf Z) :
  length (index_array n index) = Z.to_nat n.
Proof. unfold index_array. now rewrite length_map, length_seq. Qed.

(** The index array [mix_init] builds is the kept ids followed by zeros. *)
Lemma mix_init_index_array {ops : FloatOps} perm n k is_input index z V :
  1 <= n ->
  let ids := free_ids perm is_input (Z.to_nat (n - 1)) in
  index_array n (snd (mix_init perm n k is_input index z V))
  = ids ++ repeat 0 (Z.to_nat n - length ids).
Proof.
  intros Hn ids.
  pose proof (free_ids_length perm is_input (Z.to_nat (n - 1))) as Hlen.
  fold ids in Hlen.
  apply (nth_ext _ _ 0 0).
  - rewrite index_array_length, length_app, repeat_length. lia.
  - intros c Hc. rewrite index_array_length in Hc.
    rewrite index_array_nth by exact Hc.
    rewrite (mix_init_index_spec perm n k is_input index z V Hn). cbv zeta.
    fold ids.
    destruct (Nat.lt_ge_cases c (length ids)) as [Hlt|Hge].
    + replace ((0 <=? Z.of_nat c) && (Z.of_nat c <? Z.of_nat (length ids)))
        with true by (symmetry; apply andb_true_iff; split;
                      [apply Z.leb_le | apply Z.ltb_lt]; lia).
      rewrite Nat2Z.id, app_nth1 by exact Hlt. reflexivity.
    + replace ((0 <=? Z.of_nat c) && (Z.of_nat c <? Z.of_nat (length ids)))
        with false by (symmetry; apply andb_false_iff; right;
                       apply Z.ltb_ge; lia).
      replace ((0 <=? Z.of_nat c) && (Z.of_nat c <? n))
        with true by (symmetry; apply andb_true_iff; split;
                      [apply Z.leb_le | apply Z.ltb_lt]; lia).
      rewrite app_nth2 by exact Hge. symmetry. apply nth_repeat.
Qed.

(** X8.  The index array [mix_init] builds for [n >= 1] variables always
    ends in the sentinel: its last cell [index[n-1]] is 0, so a sweep meets a
    0 inside the array.  The function writes the [n] cells of the array and
    no other cell of [index]. *)
Theorem mix_init_index_has_sentinel {ops : FloatOps} perm n k is_input index z V :
  1 <= n ->
  snd (mix_init perm n k is_input index z V) (n - 1) = 0
  /\ In 0 (index_array n (snd (mix_init perm n k is_input index z V)))
  /\ (forall c, c < 0 \/ n <= c ->
        snd (mix_init perm n k is_input index z V) c = index c).
Proof.
  intros Hn.
  pose proof (free_ids_length perm is_input (Z.to_nat (n - 1))) as Hlen.
  assert (Hlast : snd (mix_init perm n k is_input index z V) (n - 1) = 0).
  { rewrite (mix_init_index_spec perm n k is_input index z V Hn). cbv zeta.
    replace ((0 <=? n - 1)
             && (n - 1 <? Z.of_nat (length (free_ids perm is_input (Z.to_nat (n - 1))))))
      with false by (symmetry; apply andb_false_iff; right; apply Z.ltb_ge; lia).
    ztests. }
  split; [exact Hlast | split].
  - rewrite <- Hlast at 1.
    replace (n - 1) with (Z.of_nat (Z.to_nat (n - 1))) at 1 by lia.
    unfold index_array.
    apply (in_map (fun c => snd (mix_init perm n k is_input index z V) (Z.of_nat c))).
    apply in_seq. lia.
  - intros c Hc.
    rewrite (mix_init_index_spec perm n k is_input index z V Hn). cbv zeta.
    ztests.
Qed.

(** X9.  When no [perm[i_] + 1] is 0, the ids a sweep visits on the index
    array of [mix_init] are exactly the ids [perm[0] + 1, ..., perm[n-2] + 1]
    that are not flagged as inputs, in the order of [perm]. *)
Theorem mix_init_visits_free_in_order {ops : FloatOps} perm n k is_input index z V :
  1 <= n ->
  (forall i_, 0 <= i_ < n - 1 -> perm i_ + 1 <> 0) ->
  visited (index_array n (snd (mix_init perm n k is_input index z V)))
  = free_ids perm is_input (Z.to_nat (n - 1)).
Proof.
  intros Hn Hperm.
  rewrite (mix_init_index_array perm n k is_input index z V Hn). cbv zeta.
  pose proof (free_ids_length perm is_input (Z.to_nat (n - 1))) as Hlen.
  set (ids := free_ids perm is_input (Z.to_nat (n - 1))) in *.
  destruct (Z.to_nat n - length ids)%nat as [|r] eqn:Er; [lia|].
  cbn [repeat]. apply visited_app_zero.
  intros i Hi. unfold ids, free_ids in Hi.
  apply filter_In in Hi as [Hi _]. apply in_map_iff in Hi as (c & <- & Hc).
  apply in_seq in Hc. apply Hperm. lia.
Qed.

Section InitializerRows.
Context {ops : FloatOps}.

(** [sdot] reads the lanes of its rounds and nothing else. *)
Lemma sdot_loop_ext :
  forall n s (x x' : buf float) xo (y y' : buf float) yo,
    (forall c, xo <= c < xo + 4 * Z.of_nat n -> x c = x' c) ->
    (forall c, yo <= c < yo + 4 * Z.of_nat n -> y c = y' c) ->
    sdot_loop n s x xo y yo = sdot_loop n s x' xo y' yo.
Proof.
  induction n as [|n IH]; intros s x x' xo y y' yo Hx Hy; [reflexivity|].
  cbn [sdot_loop]. unfold dp_ps.
  rewrite <- !Hx, <- !Hy by lia.
  apply IH; intros c Hc; [apply Hx | apply Hy]; lia.
Qed.

Lemma sdot_ext (x x' : buf float) xo (y y' : buf float) yo l :
  0 <= l -> l mod 4 = 0 ->
  (forall c, xo <= c < xo + l -> x c = x' c) ->
  (forall c, yo <= c < yo + l -> y c = y' c) ->
  sdot x xo y yo l = sdot x' xo y' yo l.
Proof.
  intros Hl Hpad Hx Hy. unfold sdot.
  pose proof (simd_rounds_exact l Hl Hpad) as E.
  apply sdot_loop_ext; intros c Hc; [apply Hx | apply Hy]; lia.
Qed.

(** Row [i] of [mix_init] writes the [k >= 2] cells of its row only. *)
Lemma mix_init_row_frame k is_input z i (V : buf float) j :
  2 <= k -> ~ (i * k <= j < i * k + k) ->
  mix_init_row k is_input z i V j = V j.
Proof.
  intros Hk Hj. unfold mix_init_row.
  destruct (negb (is_input i =? 0)).
  - cbv zeta. unfold store, szero. ztests.
  - cbv zeta. rewrite sscal_spec. ztests.
Qed.

(** What it writes depends on the cells of that row only, when the row is a
    whole number of lane groups. *)
Lemma mix_init_row_ext k is_input z i (V V' : buf float) j :
  0 <= k -> k mod 4 = 0 ->
  (forall c, i * k <= c < i * k + k -> V c = V' c) ->
  i * k <= j < i * k + k ->
  mix_init_row k is_input z i V j = mix_init_row k is_input z i V' j.
Proof.
  intros Hk Hpad HV Hj. unfold mix_init_row.
  assert (4 <= k).
  { destruct (Z.eq_dec k 0) as [->|]; [lia|].
    pose proof (Z.div_mod k 4 ltac:(lia)). lia. }
  destruct (negb (is_input i =? 0)).
  - cbv zeta. rewrite (HV (i * k + 1)) by lia.
    unfold store, szero. ztests.
  - cbv zeta. rewrite !sscal_spec.
    rewrite (sdot_ext V V' (i * k) V V' (i * k) k Hk Hpad HV HV).
    rewrite HV by lia. reflexivity.
Qed.

(** The first loop of [mix_init] after [t] rows. *)
Lemma mix_init_rows k is_input z (V : buf float) t j :
  0 < k -> k mod 4 = 0 -> 0 <= t ->
  for_upto 0 t (mix_init_row k is_input z) V j
  = if (0 <=? j / k) && (j / k <? t)
    then mix_init_row k is_input z (j / k) V j else V j.
Proof.
  intros Hk Hpad Ht.
  assert (4 <= k) by (pose proof (Z.div_mod k 4 ltac:(lia)); lia).
  revert j.
  apply (for_upto_inv
           (fun t (V' : buf float) =>
              forall j,
                V' j = if (0 <=? j / k) && (j / k <? t)
                       then mix_init_row k is_input z (j / k) V j else V j));
    [lia | intros j; ztests |].
  intros i V' Hi HV' j.
  pose proof (Z.div_mod j k ltac:(lia)) as Hdm.
  pose proof (Z.mod_pos_bound j k Hk) as Hmb.
  destruct (Z.eq_dec (j / k) i) as [E|E].
  - replace ((0 <=? j / k) && (j / k <? i + 1)) with true
      by (symmetry; apply andb_true_iff; split;
          [apply Z.leb_le | apply Z.ltb_lt]; lia).
    rewrite E.
    apply mix_init_row_ext; [lia | exact Hpad | | nia].
    intros c Hc. rewrite HV'.
    assert (c / k = i) as -> by (symmetry; apply (Z.div_unique c k i (c - i * k)); lia).
    ztests.
  - rewrite mix_init_row_frame by (try lia; nia).
    rewrite HV'. ztests.
Qed.

Lemma row_of_cell (i k c : Z) : 0 <= c < k -> (i * k + c) / k = i.
Proof.
  intros Hc. symmetry. apply (Z.div_unique (i * k + c) k i c); lia.
Qed.

(** A cell of row [i < n] after [mix_init]. *)
Lemma mix_init_cell perm n k is_input index z (V : buf float) i c :
  0 < k -> k mod 4 = 0 -> 0 <= i < n -> 0 <= c < k ->
  fst (mix_init perm n k is_input index z V) (i * k + c)
  = mix_init_row k is_input z i V (i * k + c).
Proof.
  intros Hk Hpad Hi Hc.
  assert (HV : fst (mix_init perm n k is_input index z V) (i * k + c)
               = for_upto 0 n (mix_init_row k is_input z) V (i * k + c)).
  { unfold mix_init. cbv zeta.
    destruct (for_upto 0 (n - 1) _ (index, 0)) as [index1 j1]. reflexivity. }
  rewrite HV, mix_init_rows by lia.
  rewrite row_of_cell by exact Hc. ztests.
Qed.

(** X10.  For rows of [k > 0] cells, [k] a multiple of 4, [mix_init] treats
    the [n] rows of [V] independently: what it leaves in row [i] is what its
    loop body computes for [i] from the rows the caller passed, and no cell
    outside the [n * k] cells of the matrix is written. *)
Theorem mix_init_rows_independent perm n k is_input index z (V : buf float) :
  0 < k -> k mod 4 = 0 -> 0 <= n ->
  (forall i c, 0 <= i < n -> 0 <= c < k ->
     fst (mix_init perm n k is_input index z V) (i * k + c)
     = mix_init_row k is_input z i V (i * k + c))
  /\ (forall j, j < 0 \/ n * k <= j ->
        fst (mix_init perm n k is_input index z V) j = V j).
Proof.
  intros Hk Hpad Hn.
  assert (HV : forall j,
             fst (mix_init perm n k is_input index z V) j
             = for_upto 0 n (mix_init_row k is_input z) V j).
  { intros j. unfold mix_init. cbv zeta.
    destruct (for_upto 0 (n - 1) _ (index, 0)) as [index1 j1]. reflexivity. }
  split.
  - intros i c Hi Hc. rewrite HV, mix_init_rows by assumption.
    rewrite row_of_cell by exact Hc. ztests.
  - intros j Hj. rewrite HV, mix_init_rows by assumption.
    pose proof (Z.div_mod j k ltac:(lia)) as Hdm.
    pose proof (Z.mod_pos_bound j k Hk) as Hmb.
    destruct Hj as [Hj|Hj].
    + replace ((0 <=? j / k) && (j / k <? n)) with false; [reflexivity|].
      symmetry. apply andb_false_iff. left. apply Z.leb_gt. nia.
    + replace ((0 <=? j / k) && (j / k <? n)) with false; [reflexivity|].
      symmetry. apply andb_false_iff. right. apply Z.ltb_ge. nia.
Qed.

(** The row [mix_init] writes for an input variable. *)
Lemma mix_init_row_input k is_input z i (V : buf float) c :
  2 <= k -> is_input i <> 0 -> 0 <= c < k ->
  mix_init_row k is_input z i V (i * k + c)
  = if c =? 0
    then float_of_double (dneg (cos_d (double_of_float (z i) *d M_PI)))
    else if c =? 1
    then float_of_double
           (copysign_d (sin_d (double_of_float (z i) *d M_PI))
              (double_of_float (V (i * k + 1))))
    else f0.
Proof.
  intros Hk Hin Hc. unfold mix_init_row.
  apply Z.eqb_neq in Hin as ->. cbn [negb]. cbv zeta.
  unfold store, szero. ztests.
Qed.

(** X11.  For an input variable [i], [mix_init] leaves the row
    [(-cos(z[i] pi), copysign(sin(z[i] pi), V[i][1]), 0, ..., 0)]: the first
    two cells computed in [double] and converted, the sign of the second
    taken from the cell the caller passed, every other cell +0. *)
Theorem mix_init_input_row perm n k is_input index z (V : buf float) i c :
  0 < k -> k mod 4 = 0 -> 0 <= i < n -> is_input i <> 0 -> 0 <= c < k ->
  fst (mix_init perm n k is_input index z V) (i * k + c)
  = if c =? 0
    then float_of_double (dneg (cos_d (double_of_float (z i) *d M_PI)))
    else if c =? 1
    then float_of_double
           (copysign_d (sin_d (double_of_float (z i) *d M_PI))
              (double_of_float (V (i * k + 1))))
    else f0.
Proof.
  intros Hk Hpad Hi Hin Hc.
  assert (4 <= k) by (pose proof (Z.div_mod k 4 ltac:(lia)); lia).
  assert (HV : fst (mix_init perm n k is_input index z V) (i * k + c)
               = for_upto 0 n (mix_init_row k is_input z) V (i * k + c)).
  { unfold mix_init. cbv zeta.
    destruct (for_upto 0 (n - 1) _ (index, 0)) as [index1 j1]. reflexivity. }
  rewrite HV, mix_init_rows by lia.
  rewrite row_of_cell by exact Hc.
  replace ((0 <=? i) && (i <? n)) with true
    by (symmetry; apply andb_true_iff; split;
        [apply Z.leb_le | apply Z.ltb_lt]; lia).
  apply mix_init_row_input; [lia | exact Hin | exact Hc].
Qed.

End InitializerRows.

Section ExactInitializer.
#[local] Existing Instance Exact.ops.
Import Exact.
Local Open Scope R_scope.

Lemma rsum_two_cells (p : nat) (f : Z -> R) :
  (forall c, (2 <= c < Z.of_nat (2 + p))%Z -> f c = 0) ->
  rsum (2 + p) f = f 0%Z + f 1%Z.
Proof.
  induction p as [|p IH]; intros Hf.
  - cbn. ring.
  - replace (2 + S p)%nat with (S (2 + p)) by lia.
    cbn [rsum]. rewrite IH by (intros c Hc; apply Hf; lia).
    rewrite (Hf (Z.of_nat (2 + p))) by lia. ring.
Qed.

(** X12.  In exact arithmetic [mix_init] leaves unit rows: the row of an
    input variable has squared norm [cos^2 + sin^2 = 1], and the row of any
    other variable is the caller's row divided by its norm, provided that
    norm is not 0. *)
Theorem mix_init_unit_rows perm n k is_input index (z V : buf R) i :
  (0 < k)%Z -> (k mod 4 = 0)%Z -> (0 <= i < n)%Z ->
  (is_input i = 0%Z -> row_norm2 k V i <> 0) ->
  row_norm2 k (fst (mix_init perm n k is_input index z V)) i = 1.
Proof.
  intros Hk Hpad Hi Hseed.
  assert (4 <= k)%Z by (pose proof (Z.div_mod k 4 ltac:(lia)); lia).
  unfold row_norm2 in *.
  destruct (Z.eq_dec (is_input i) 0) as [Hfree|Hin].
  - specialize (Hseed Hfree).
    set (s := rsum (Z.to_nat k) (fun kk => V (i * k + kk)%Z * V (i * k + kk)%Z)) in *.
    assert (Hs : sdot V (i * k) V (i * k) k = s).
    { rewrite sdot_exact, padded_rounds by exact Hpad. reflexivity. }
    assert (Hpos : 0 < s).
    { assert (0 <= s) by (apply rsum_nonneg; intros c; nra). lra. }
    rewrite (rsum_ext _ _
               (fun c => (1 / sqrt s * (1 / sqrt s))
                         * (V (i * k + c)%Z * V (i * k + c)%Z))).
    + rewrite rsum_scal. fold s.
      pose proof (sqrt_sqrt s ltac:(lra)) as Hsq.
      assert (sqrt s <> 0) by (intros E; rewrite E in Hsq; lra).
      field_simplify_eq; [|assumption]. lra.
    + intros c Hc. rewrite mix_init_cell by lia.
      unfold mix_init_row. rewrite Hfree. cbn [Z.eqb negb]. cbv zeta.
      rewrite sscal_spec, Hs. real_ops.
      replace ((i * k <=? i * k + c)%Z && (i * k + c <? i * k + k)%Z) with true
        by (symmetry; apply andb_true_iff; split;
            [apply Z.leb_le | apply Z.ltb_lt]; lia).
      change (@f1 Exact.ops) with 1. ring.
  - replace (Z.to_nat k) with (2 + (Z.to_nat k - 2))%nat by lia.
    rewrite rsum_two_cells.
    + rewrite !mix_init_cell by lia.
      rewrite !mix_init_row_input by lia.
      cbn [Z.eqb Pos.eqb]. real_ops.
      change (@float_of_double Exact.ops) with (fun x : R => x).
      change (@double_of_float Exact.ops) with (fun x : R => x).
      change (@copysign_d Exact.ops)
        with (fun x y : R => if Rlt_dec y 0 then - Rabs x else Rabs x).
      cbv beta.
      pose proof (sin2_cos2 (z i * PI)) as E. unfold Rsqr in E.
      set (sn := sin (z i * PI)) in *. set (cs := cos (z i * PI)) in *.
      assert (Habs : Rabs sn * Rabs sn = sn * sn).
      { unfold Rabs. destruct (Rcase_abs sn); ring. }
      destruct (Rlt_dec (V (i * k + 1)%Z) 0); nra.
    + intros c Hc.
      rewrite mix_init_cell, mix_init_row_input by lia.
      replace (c =? 0)%Z with false by (symmetry; apply Z.eqb_neq; lia).
      replace (c =? 1)%Z with false by (symmetry; apply Z.eqb_neq; lia).
      change (@f0 Exact.ops) with 0. ring.
Qed.

End ExactInitializer.

Section IEEEInitializer.
Variable lm : IEEE.libm.

(** The binary32 dot product of a row of zeros with itself is +0, whatever
    the signs of the zeros. *)
Lemma sdot_loop_zero_row (x : buf spec_float) :
  forall n xo,
    (forall c, xo <= c < xo + 4 * Z.of_nat n -> exists s, x c = S754_zero s) ->
    sdot_loop (ops := IEEE.ops lm) n (S754_zero false) x xo x xo = S754_zero false.
Proof.
  induction n as [|n IH]; intros xo Hx; [reflexivity|].
  cbn [sdot_loop].
  assert (E : @fadd (IEEE.ops lm) (S754_zero false)
                (dp_ps (ops := IEEE.ops lm) x xo x xo)
              = S754_zero false).
  { unfold dp_ps.
    destruct (Hx xo ltac:(lia)) as [s0 ->].
    destruct (Hx (xo + 1) ltac:(lia)) as [s1 ->].
    destruct (Hx (xo + 2) ltac:(lia)) as [s2 ->].
    destruct (Hx (xo + 3) ltac:(lia)) as [s3 ->].
    destruct s0, s1, s2, s3; reflexivity. }
  rewrite E. apply IH. intros c Hc. apply Hx. lia.
Qed.

(** X13.  In binary32 a variable that is not an input and whose row the
    caller seeds with zeros gets a row of NaN from [mix_init]: the sum of
    squares is +0, [1 / sqrtf(+0)] is +infinity, and every cell becomes
    [0 * infinity]. *)
Theorem mix_init_zero_seed_nan perm n k is_input index z (V : buf spec_float) i :
  0 < k -> k mod 4 = 0 -> 0 <= i < n -> is_input i = 0 ->
  (forall c, 0 <= c < k -> exists s, V (i * k + c) = S754_zero s) ->
  forall c, 0 <= c < k ->
    fst (mix_init (ops := IEEE.ops lm) perm n k is_input index z V) (i * k + c)
    = S754_nan.
Proof.
  intros Hk Hpad Hi Hfree Hseed c Hc.
  rewrite mix_init_cell by assumption.
  unfold mix_init_row. rewrite Hfree. cbn [Z.eqb negb]. cbv zeta.
  rewrite sscal_spec.
  replace ((i * k <=? i * k + c) && (i * k + c <? i * k + k)) with true
    by (symmetry; apply andb_true_iff; split;
        [apply Z.leb_le | apply Z.ltb_lt]; lia).
  assert (Hs : sdot (ops := IEEE.ops lm) V (i * k) V (i * k) k = S754_zero false).
  { unfold sdot. apply sdot_loop_zero_row.
    intros c0 Hc0.
    pose proof (simd_rounds_exact k ltac:(lia) Hpad) as E.
    replace c0 with (i * k + (c0 - i * k)) by lia. apply Hseed. lia. }
  rewrite Hs. destruct (Hseed c Hc) as [s ->].
  destruct s; reflexivity.
Qed.

End IEEEInitializer.

(** ** What the kernel writes *)

Section KernelFrames.
Context {ops : FloatOps}.

Lemma fill_loop_frame (f : Z -> float) (k : Z) (g : buf float) j :
  j < 0 \/ k <= j ->
  for_upto 0 k (fun kk g => store g kk (f kk)) g j = g j.
Proof.
  intros Hj.
  destruct (Z_le_gt_dec k 0) as [Hk|Hk]; [now rewrite for_upto_empty|].
  apply (for_upto_inv (fun _ (g' : buf float) => g' j = g j)); [lia | reflexivity |].
  intros c g' Hc E. unfold store. rewrite E. ztests.
Qed.

Lemma accumulate_loop_frame (i m k : Z) (Smat g W : buf float) j :
  0 <= m -> m mod 4 = 0 -> j < 0 \/ k * m <= j ->
  for_upto 0 k (fun kk W => saxpy W (kk * m) (g kk) Smat (i * m) m) W j = W j.
Proof.
  intros Hm Hpad Hj.
  destruct (Z_le_gt_dec k 0) as [Hk|Hk]; [now rewrite for_upto_empty|].
  apply (for_upto_inv (fun _ (W' : buf float) => W' j = W j)); [lia | reflexivity |].
  intros c W' Hc E.
  rewrite saxpy_spec, simd_rounds_exact, E by assumption.
  ztests; nia.
Qed.

Section Step.
Variables (is_forward : bool) (prox_lam : float) (m k : Z).
Variables (Smat dz Vproj Snrms : buf float) (i : Z) (b : kernel_bufs) (delta : float).

Let step := mix_kernel_step is_forward prox_lam m k Smat dz Vproj Snrms i (b, delta).
Let dir := kernel_direction is_forward prox_lam m k Smat dz Vproj Snrms i b.

(** The scratch vector after the step: the movement of row [i]. *)
Lemma mix_kernel_step_g kk :
  kg (fst step) kk
  = if (0 <=? kk) && (kk <? k) then snd dir kk -f kV b (i * k + kk) else snd dir kk.
Proof.
  unfold step, dir, mix_kernel_step, kernel_direction, kernel_gradient.
  destruct is_forward; cbv zeta;
    match goal with
    | |- context [for_upto 0 k ?body (?g0, kV b)] =>
        destruct (exchange_upto_spec i k g0 (kV b)) as [Hg _];
        cbv zeta in Hg; specialize (Hg kk);
        destruct (for_upto 0 k body (g0, kV b)) as [g' V'] eqn:EL
    end;
    cbn [fst] in Hg; cbn [fst snd kg]; rewrite Hg; reflexivity.
Qed.

(** The value returned: in forward mode the running sum grows by
    [gnrmi * sdot(g, g, k)], in adjoint mode it stays. *)
Lemma mix_kernel_step_delta :
  snd step
  = if is_forward
    then delta +f fst dir *f sdot (kg (fst step)) 0 (kg (fst step)) 0 k
    else delta.
Proof.
  unfold step, dir, mix_kernel_step, kernel_direction, kernel_gradient.
  destruct is_forward; cbv zeta;
    match goal with
    | |- context [for_upto 0 k ?body (?g0, kV b)] =>
        destruct (for_upto 0 k body (g0, kV b)) as [g' V']
    end; reflexivity.
Qed.

Lemma kernel_direction_frame j :
  0 < k -> k mod 4 = 0 -> j < 0 \/ k <= j ->
  snd dir j = kg b j.
Proof.
  intros Hk Hpad Hj.
  unfold dir, kernel_direction, kernel_gradient.
  destruct is_forward; cbv zeta; cbn [snd].
  - rewrite !sscal_spec, saxpy_spec, simd_rounds_exact, fill_loop_frame
      by (assumption || lia).
    ztests.
  - rewrite sscal_spec, store_other by lia.
    rewrite saxpy_spec, sscal_spec, saxpy_spec, simd_rounds_exact, fill_loop_frame
      by (assumption || lia).
    ztests.
Qed.

Lemma mix_kernel_step_g_frame j :
  0 < k -> k mod 4 = 0 -> j < 0 \/ k <= j ->
  kg (fst step) j = kg b j.
Proof.
  intros Hk Hpad Hj. rewrite mix_kernel_step_g, kernel_direction_frame by assumption.
  ztests.
Qed.

Lemma mix_kernel_step_W_frame j :
  0 <= m -> m mod 4 = 0 -> j < 0 \/ k * m <= j ->
  kW (fst step) j = kW b j.
Proof.
  intros Hm Hpad Hj.
  unfold step, mix_kernel_step.
  destruct is_forward; cbv zeta;
    match goal with
    | |- context [for_upto 0 k ?body (?g0, kV b)] =>
        destruct (for_upto 0 k body (g0, kV b)) as [g' V']
    end;
    cbn [fst snd kW]; apply accumulate_loop_frame; assumption.
Qed.

Lemma mix_kernel_step_gnrm_frame j :
  j <> i -> kgnrm (fst step) j = kgnrm b j.
Proof.
  intros Hj. unfold step. rewrite mix_kernel_step_gnrm.
  destruct is_forward; [apply store_other; exact Hj | reflexivity].
Qed.

End Step.

(** Invariants of a sweep are invariants of each of its steps. *)
Lemma mix_kernel_inv (P : kernel_bufs -> Prop)
    is_forward prox_lam m k index Smat dz Vproj Snrms b :
  P b ->
  (forall i b delta,
     In i (visited index) -> P b ->
     P (fst (mix_kernel_step is_forward prox_lam m k Smat dz Vproj Snrms i (b, delta)))) ->
  P (fst (mix_kernel is_forward prox_lam m k index Smat dz Vproj Snrms b)).
Proof.
  unfold mix_kernel. generalize f0 as delta. revert b.
  induction (visited index) as [|i l IH]; intros b delta Hb Hstep; [exact Hb|].
  cbn [fold_left].
  destruct (mix_kernel_step is_forward prox_lam m k Smat dz Vproj Snrms i (b, delta))
    as [b1 delta1] eqn:E.
  apply IH.
  - pose proof (Hstep i b delta (or_introl eq_refl) Hb) as H1.
    rewrite E in H1. exact H1.
  - intros i' b' delta' Hi'. apply Hstep. now right.
Qed.

(** The cells a sweep leaves alone, as one relation between the buffers
    before and after. *)
Lemma mix_kernel_frames is_forward prox_lam m k index Smat dz Vproj Snrms b :
  0 <= m -> m mod 4 = 0 -> 0 < k -> k mod 4 = 0 ->
  let b' := fst (mix_kernel is_forward prox_lam m k index Smat dz Vproj Snrms b) in
  (forall j, (forall i, In i (visited index) -> ~ (i * k <= j < i * k + k)) ->
     kV b' j = kV b j)
  /\ (forall j, j < 0 \/ k * m <= j -> kW b' j = kW b j)
  /\ (forall j, ~ In j (visited index) -> kgnrm b' j = kgnrm b j)
  /\ (forall j, j < 0 \/ k <= j -> kg b' j = kg b j).
Proof.
  intros Hm Hmpad Hk Hkpad. cbv zeta. repeat split.
  - intros j Hj. apply mix_kernel_V_frame. exact Hj.
  - intros j Hj.
    apply (mix_kernel_inv (fun b' => kW b' j = kW b j)); [reflexivity|].
    intros i b0 delta _ E. rewrite mix_kernel_step_W_frame by assumption. exact E.
  - intros j Hj.
    apply (mix_kernel_inv (fun b' => kgnrm b' j = kgnrm b j)); [reflexivity|].
    intros i b0 delta Hi E. rewrite mix_kernel_step_gnrm_frame; [exact E|].
    intros ->. exact (Hj Hi).
  - intros j Hj.
    apply (mix_kernel_inv (fun b' => kg b' j = kg b j)); [reflexivity|].
    intros i b0 delta _ E. rewrite mix_kernel_step_g_frame by assumption. exact E.
Qed.

(** X14.  The cells one call of [mix_kernel] may write, for [m] and [k]
    multiples of 4: in [V] the rows of the visited ids; in [W] the [k * m]
    cells of the matrix; in [gnrm] the cells of the visited ids; in the
    scratch vector [g] its first [k] cells.  Every other cell is left as the
    caller passed it. *)
Theorem mix_kernel_write_set is_forward prox_lam m k index Smat dz Vproj Snrms b :
  0 <= m -> m mod 4 = 0 -> 0 < k -> k mod 4 = 0 ->
  let b' := fst (mix_kernel is_forward prox_lam m k index Smat dz Vproj Snrms b) in
  (forall j, (forall i, In i (visited index) -> ~ (i * k <= j < i * k + k)) ->
     kV b' j = kV b j)
  /\ (forall j, j < 0 \/ k * m <= j -> kW b' j = kW b j)
  /\ (forall j, ~ In j (visited index) -> kgnrm b' j = kgnrm b j)
  /\ (forall j, j < 0 \/ k <= j -> kg b' j = kg b j).
Proof.
  intros Hm Hmpad Hk Hkpad.
  exact (mix_kernel_frames is_forward prox_lam m k index Smat dz Vproj Snrms b
           Hm Hmpad Hk Hkpad).
Qed.

End KernelFrames.

(** ** The backward pass *)

Section BackwardPass.
Context {ops : FloatOps}.

(** The result of [mix_backward] when neither test flags the instance. *)
Lemma mix_backward_valid prox_lam n m k is_input index niter Smat dS z dz V U W Phi
    gnrm Snrms cache :
  let rb :=
    mix_backward prox_lam n m k is_input index niter Smat dS z dz V U W Phi gnrm
      Snrms cache in
  let dz1 := fst (rescale_dz index z gnrm dz) in
  let r1 :=
    adjoint_sweeps prox_lam m k index niter Smat dz1 V Snrms
      ({| kV := U; kW := Phi; kgnrm := gnrm; kg := cache |}, []) in
  bw_invalid rb = false ->
  rb = {| bw_dS := accumulate_dS n m k (kV (fst r1)) V W (kW (fst r1)) dS;
          bw_dz := input_gradients n m k is_input Smat z V (kW (fst r1)) dz1;
          bw_U := kV (fst r1);
          bw_Phi := kW (fst r1);
          bw_cache := kg (fst r1);
          bw_invalid := false;
          bw_calls := snd r1 |}.
Proof.
  cbv zeta. unfold mix_backward.
  destruct (rescale_dz index z gnrm dz) as [dz1 flag1]. cbn [fst].
  destruct flag1; [discriminate|].
  destruct (adjoint_sweeps prox_lam m k index niter Smat dz1 V Snrms
              ({| kV := U; kW := Phi; kgnrm := gnrm; kg := cache |}, []))
    as [b1 calls1]. cbn [fst snd].
  destruct (nonfinite_U n k (kV b1)); [discriminate | reflexivity].
Qed.

(** The last loop of [mix_backward], cell by cell: every entry is computed
    from the value the loop found there. *)
Lemma input_gradients_cell n m k is_input Smat z V Phi (dz : buf float) i :
  1 <= i < n ->
  input_gradients n m k is_input Smat z V Phi dz i
  = if is_input i =? 0 then f0 else input_gradient m k Smat z V Phi dz i.
Proof.
  intros Hi. unfold input_gradients.
  assert (H : forall j,
             for_upto 1 n
               (fun i dz =>
                  if is_input i =? 0 then store dz i f0
                  else store dz i (input_gradient m k Smat z V Phi dz i)) dz j
             = if (1 <=? j) && (j <? n)
               then if is_input j =? 0 then f0
                    else input_gradient m k Smat z V Phi dz j
               else dz j).
  { apply (for_upto_inv
             (fun t (d : buf float) =>
                forall j,
                  d j = if (1 <=? j) && (j <? t)
                        then if is_input j =? 0 then f0
                             else input_gradient m k Smat z V Phi dz j
                        else dz j)); [lia | intros j; ztests |].
    intros c d Hc Hd j.
    assert (Hdc : d c = dz c) by (rewrite Hd; ztests).
    destruct (Z.eq_dec j c) as [->|Hne].
    - replace ((1 <=? c) && (c <? c + 1)) with true
        by (symmetry; apply andb_true_iff; split;
            [apply Z.leb_le | apply Z.ltb_lt]; lia).
      destruct (is_input c =? 0); rewrite store_same; [reflexivity|].
      unfold input_gradient. rewrite Hdc. reflexivity.
    - destruct (is_input c =? 0); rewrite store_other by exact Hne;
        rewrite Hd; ztests. }
  unfold input_gradient in H. rewrite H. ztests.
Qed.

(** X15.  [mix_backward] flags an instance exactly when the rescaling loop
    meets a visited id whose rescaled gradient is NaN or infinite or whose
    [gnrm] is below [MEPS], or a cell of [U], as the pass leaves it, is NaN
    or infinite.  The ids of the index array are taken to be distinct. *)
Theorem mix_backward_flags_exactly prox_lam n m k is_input index niter Smat dS z dz
    V U W Phi gnrm Snrms cache :
  NoDup (visited index) ->
  let rb :=
    mix_backward prox_lam n m k is_input index niter Smat dS z dz V U W Phi gnrm
      Snrms cache in
  bw_invalid rb = true
  <-> (exists i, In i (visited index) /\ degenerate z gnrm dz i = true)
      \/ (exists ik, 0 <= ik < n * k
                     /\ (isnan (bw_U rb ik) || isinf (bw_U rb ik)) = true).
Proof.
  intros Hnd. cbv zeta.
  pose proof (rescale_dz_flag_spec index z gnrm dz Hnd) as Hflag.
  rewrite bw_invalid_spec.
  destruct (snd (rescale_dz index z gnrm dz)) eqn:E1.
  - cbn [orb]. split; [|reflexivity]. intros _. left. now apply Hflag.
  - cbn [orb]. rewrite nonfinite_U_spec.
    assert (HU : bw_U (mix_backward prox_lam n m k is_input index niter Smat dS z dz
                         V U W Phi gnrm Snrms cache)
                 = kV (fst (adjoint_sweeps prox_lam m k index niter Smat
                              (fst (rescale_dz index z gnrm dz)) V Snrms
                              ({| kV := U; kW := Phi; kgnrm := gnrm; kg := cache |},
                               [])))).
    { unfold mix_backward.
      destruct (rescale_dz index z gnrm dz) as [dz1 flag1]. cbn [fst snd] in *.
      subst flag1.
      destruct (adjoint_sweeps prox_lam m k index niter Smat dz1 V Snrms
                  ({| kV := U; kW := Phi; kgnrm := gnrm; kg := cache |}, []))
        as [b1 calls1]. cbn [fst].
      now destruct (nonfinite_U n k (kV b1)). }
    rewrite HU. split.
    + intros H. now right.
    + intros [H|H]; [|exact H].
      apply Hflag in H. discriminate.
Qed.

(** X16.  When [mix_backward] does not flag the instance, the gradient it
    returns on [z[i]], [1 <= i < n], is +0 for a variable that is not an
    input; for an input the index array does not visit it is the value of
    the formula of the last loop, computed from the incoming [dz[i]] and the
    final [Phi]. *)
Theorem mix_backward_valid_gradients prox_lam n m k is_input index niter Smat dS z dz
    V U W Phi gnrm Snrms cache i :
  let rb :=
    mix_backward prox_lam n m k is_input index niter Smat dS z dz V U W Phi gnrm
      Snrms cache in
  bw_invalid rb = false -> 1 <= i < n ->
  (is_input i = 0 -> bw_dz rb i = f0)
  /\ (is_input i <> 0 -> ~ In i (visited index) ->
      bw_dz rb i = input_gradient m k Smat z V (bw_Phi rb) dz i).
Proof.
  cbv zeta. intros Hv Hi.
  rewrite (mix_backward_valid _ _ _ _ _ _ _ _ _ _ _ _ _ _ _ _ _ _ Hv).
  cbn [bw_dz bw_Phi]. rewrite input_gradients_cell by exact Hi. split.
  - intros ->. reflexivity.
  - intros Hin Hnv. apply Z.eqb_neq in Hin as ->.
    unfold input_gradient. rewrite rescale_dz_frame by exact Hnv. reflexivity.
Qed.

End BackwardPass.

Section ExactPasses.
#[local] Existing Instance Exact.ops.
Import Exact.
Local Open Scope R_scope.

(** The two [saxpy] calls of [mix_backward] for row [i], over [t] columns. *)
Lemma accumulate_row_exact (m k i : Z) (U V W Phi : buf R) (t : Z) (dS : buf R) p :
  (0 <= m)%Z -> (m mod 4 = 0)%Z -> (0 <= t)%Z ->
  for_upto 0 t
    (fun kk dS =>
       let dS := saxpy dS (i * m) (U (i * k + kk)%Z) W (kk * m) m in
       saxpy dS (i * m) (V (i * k + kk)%Z) Phi (kk * m) m)
    dS p
  = if ((i * m <=? p) && (p <? i * m + m))%Z
    then dS p
         + rsum (Z.to_nat t)
             (fun kk => U (i * k + kk)%Z * W (kk * m + (p - i * m))%Z
                        + V (i * k + kk)%Z * Phi (kk * m + (p - i * m))%Z)
    else dS p.
Proof.
  intros Hm Hpad Ht. revert p.
  apply (for_upto_inv
           (fun t (d : buf R) =>
              forall p,
                d p = if ((i * m <=? p) && (p <? i * m + m))%Z
                      then dS p
                           + rsum (Z.to_nat t)
                               (fun kk =>
                                  U (i * k + kk)%Z * W (kk * m + (p - i * m))%Z
                                  + V (i * k + kk)%Z * Phi (kk * m + (p - i * m))%Z)
                      else dS p)); [exact Ht | |].
  - intros p. cbn [Z.to_nat rsum]. destruct (_ && _); ring.
  - intros c d Hc Hd p. cbv zeta.
    rewrite !saxpy_spec, simd_rounds_exact, Hd by assumption.
    replace (Z.to_nat (c + 1)) with (S (Z.to_nat c)) by lia.
    cbn [rsum]. rewrite Z2Nat.id by lia. real_ops.
    destruct ((i * m <=? p) && (p <? i * m + m))%Z; ring.
Qed.

(** The accumulation loop of [mix_backward], cell by cell. *)
Lemma accumulate_dS_exact (n m k : Z) (U V W Phi dS : buf R) i j :
  (0 <= m)%Z -> (m mod 4 = 0)%Z -> (0 <= k)%Z -> (0 <= i < n)%Z -> (0 <= j < m)%Z ->
  accumulate_dS n m k U V W Phi dS (i * m + j)%Z
  = dS (i * m + j)%Z
    + rsum (Z.to_nat k)
        (fun kk => U (i * k + kk)%Z * W (kk * m + j)%Z
                   + V (i * k + kk)%Z * Phi (kk * m + j)%Z).
Proof.
  intros Hm Hpad Hk Hi Hj. unfold accumulate_dS.
  set (p := (i * m + j)%Z).
  assert (H : for_upto 0 n
                (fun i dS =>
                   for_upto 0 k
                     (fun kk dS =>
                        let dS := saxpy dS (i * m) (U (i * k + kk)%Z) W (kk * m) m in
                        saxpy dS (i * m) (V (i * k + kk)%Z) Phi (kk * m) m)
                     dS)
                dS p
              = if (i <? n)%Z
                then dS p
                     + rsum (Z.to_nat k)
                         (fun kk => U (i * k + kk)%Z * W (kk * m + j)%Z
                                    + V (i * k + kk)%Z * Phi (kk * m + j)%Z)
                else dS p).
  { apply (for_upto_inv
             (fun t (d : buf R) =>
                d p = if (i <? t)%Z
                      then dS p
                           + rsum (Z.to_nat k)
                               (fun kk => U (i * k + kk)%Z * W (kk * m + j)%Z
                                          + V (i * k + kk)%Z * Phi (kk * m + j)%Z)
                      else dS p)); [lia | |].
    - replace (i <? 0)%Z with false by (symmetry; apply Z.ltb_ge; lia). reflexivity.
    - intros c d Hc Hd.
      rewrite accumulate_row_exact by assumption. rewrite Hd.
      destruct (Z.eq_dec c i) as [->|Hne].
      + replace ((i * m <=? p) && (p <? i * m + m))%Z with true
          by (symmetry; apply andb_true_iff; split;
              [apply Z.leb_le | apply Z.ltb_lt]; unfold p; lia).
        replace (i <? i)%Z with false by (symmetry; apply Z.ltb_ge; lia).
        replace (i <? i + 1)%Z with true by (symmetry; apply Z.ltb_lt; lia).
        f_equal. apply rsum_ext. intros kk _.
        replace (p - i * m)%Z with j by (unfold p; lia). reflexivity.
      + replace ((c * m <=? p) && (p <? c * m + m))%Z with false.
        * destruct (Z.ltb_spec i c), (Z.ltb_spec i (c + 1)); try reflexivity; lia.
        * symmetry. apply andb_false_iff. unfold p.
          destruct (Z_lt_ge_dec c i); [right; apply Z.ltb_ge | left; apply Z.leb_gt]; nia. }
  refine (eq_trans H _).
  replace (i <? n)%Z with true by (symmetry; apply Z.ltb_lt; lia). reflexivity.
Qed.

(** X17.  In exact arithmetic, when [mix_backward] does not flag the
    instance it adds [U W + V Phi] to [dS]: cell [(i, j)] grows by the sum
    over the [k] coordinates of [U[i][kk] W[kk][j] + V[i][kk] Phi[kk][j]],
    with the [U] and [Phi] the pass leaves. *)
Theorem mix_backward_dS_exact prox_lam n m k is_input index niter
    (Smat dS z dz V U W Phi gnrm Snrms cache : buf R) i j :
  (0 <= m)%Z -> (m mod 4 = 0)%Z -> (0 <= k)%Z -> (0 <= i < n)%Z -> (0 <= j < m)%Z ->
  let rb :=
    mix_backward prox_lam n m k is_input index niter Smat dS z dz V U W Phi gnrm
      Snrms cache in
  bw_invalid rb = false ->
  bw_dS rb (i * m + j)%Z
  = dS (i * m + j)%Z
    + rsum (Z.to_nat k)
        (fun kk => bw_U rb (i * k + kk)%Z * W (kk * m + j)%Z
                   + V (i * k + kk)%Z * bw_Phi rb (kk * m + j)%Z).
Proof.
  intros Hm Hpad Hk Hi Hj. cbv zeta. intros Hv.
  rewrite (mix_backward_valid _ _ _ _ _ _ _ _ _ _ _ _ _ _ _ _ _ _ Hv).
  cbn [bw_dS bw_U bw_Phi]. apply accumulate_dS_exact; assumption.
Qed.

Lemma forward_step_delta_nonneg prox_lam m k (Smat dz Vproj Snrms : buf R) i b
    (delta : float) :
  0 <= delta ->
  0 <= snd (mix_kernel_step true prox_lam m k Smat dz Vproj Snrms i (b, delta)).
Proof.
  intros Hd. rewrite mix_kernel_step_delta. rewrite sdot_exact. real_ops.
  assert (0 <= fst (kernel_direction true prox_lam m k Smat dz Vproj Snrms i b)).
  { unfold kernel_direction. cbv zeta. cbn [fst]. unfold snrm2. apply sqrt_pos. }
  match goal with
  | |- 0 <= _ + _ * rsum ?n ?f =>
      assert (0 <= rsum n f) by (apply rsum_nonneg; intros c; nra)
  end.
  nra.
Qed.

(** X18.  In exact arithmetic the value a forward sweep returns is never
    negative: it is a sum of terms [gnrmi * sdot(g, g, k)], a square root
    times a sum of squares. *)
Theorem forward_sweep_delta_nonneg prox_lam m k index (Smat dz Vproj Snrms : buf R) b :
  0 <= snd (mix_kernel true prox_lam m k index Smat dz Vproj Snrms b).
Proof.
  unfold mix_kernel.
  assert (H : forall (l : list Z) b (delta : float),
             0 <= delta ->
             0 <= snd (fold_left
                         (fun acc i =>
                            mix_kernel_step true prox_lam m k Smat dz Vproj Snrms i acc)
                         l (b, delta))).
  { induction l as [|i l IH]; intros b0 delta Hd; [exact Hd|].
    cbn [fold_left].
    pose proof (forward_step_delta_nonneg prox_lam m k Smat dz Vproj Snrms i b0 delta Hd)
      as Hs.
    destruct (mix_kernel_step true prox_lam m k Smat dz Vproj Snrms i (b0, delta))
      as [b1 delta1].
    apply IH. exact Hs. }
  apply H. change (@f0 Exact.ops) with 0. lra.
Qed.

End ExactPasses.

(** ** What the two passes write *)

Section PassFrames.
Context {ops : FloatOps}.

Lemma sweep_bufs_frames m k index Smat Snrms b :
  0 <= m -> m mod 4 = 0 -> 0 < k -> k mod 4 = 0 ->
  forall t,
    let b' := sweep_bufs m k index Smat Snrms t b in
    (forall j, (forall i, In i (visited index) -> ~ (i * k <= j < i * k + k)) ->
       kV b' j = kV b j)
    /\ (forall j, j < 0 \/ k * m <= j -> kW b' j = kW b j)
    /\ (forall j, ~ In j (visited index) -> kgnrm b' j = kgnrm b j)
    /\ (forall j, j < 0 \/ k <= j -> kg b' j = kg b j).
Proof.
  intros Hm Hmpad Hk Hkpad.
  induction t as [|t IH]; cbv zeta; [repeat split; reflexivity|].
  cbv zeta in IH. destruct IH as (IV & IW & Ign & Ig).
  cbn [sweep_bufs]. unfold forward_sweep.
  destruct (mix_kernel_frames true f0 m k index Smat null_buf null_buf Snrms
              (sweep_bufs m k index Smat Snrms t b) Hm Hmpad Hk Hkpad)
    as (SV & SW & Sgn & Sg).
  cbv zeta in SV, SW, Sgn, Sg.
  repeat split; intros j Hj.
  - rewrite SV by exact Hj. now apply IV.
  - rewrite SW by exact Hj. now apply IW.
  - rewrite Sgn by exact Hj. now apply Ign.
  - rewrite Sg by exact Hj. now apply Ig.
Qed.

Lemma adjoint_sweeps_frames prox_lam m k index niter Smat dz V Snrms b calls :
  0 <= m -> m mod 4 = 0 -> 0 < k -> k mod 4 = 0 ->
  let b' := fst (adjoint_sweeps prox_lam m k index niter Smat dz V Snrms (b, calls)) in
  (forall j, (forall i, In i (visited index) -> ~ (i * k <= j < i * k + k)) ->
     kV b' j = kV b j)
  /\ (forall j, j < 0 \/ k * m <= j -> kW b' j = kW b j)
  /\ (forall j, j < 0 \/ k <= j -> kg b' j = kg b j).
Proof.
  intros Hm Hmpad Hk Hkpad. cbv zeta. unfold adjoint_sweeps.
  destruct (Z_le_gt_dec 0 niter) as [Hn|Hn];
    [|rewrite for_upto_empty by lia; repeat split; reflexivity].
  apply (for_upto_inv
           (fun _ (bc : kernel_bufs * list bool) =>
              (forall j, (forall i, In i (visited index) -> ~ (i * k <= j < i * k + k)) ->
                 kV (fst bc) j = kV b j)
              /\ (forall j, j < 0 \/ k * m <= j -> kW (fst bc) j = kW b j)
              /\ (forall j, j < 0 \/ k <= j -> kg (fst bc) j = kg b j)));
    [exact Hn | repeat split; reflexivity |].
  intros c [b0 calls0] _ (IV & IW & Ig). cbn [fst] in *.
  destruct (mix_kernel_frames false prox_lam m k index Smat dz V Snrms b0
              Hm Hmpad Hk Hkpad) as (SV & SW & _ & Sg).
  cbv zeta in SV, SW, Sg.
  repeat split; intros j Hj.
  - rewrite SV by exact Hj. now apply IV.
  - rewrite SW by exact Hj. now apply IW.
  - rewrite Sg by exact Hj. now apply Ig.
Qed.

(** [dS] outside its [n * m] cells is not written. *)
Lemma accumulate_dS_frame n m k (U V W Phi dS : buf float) j :
  0 <= m -> m mod 4 = 0 -> j < 0 \/ n * m <= j ->
  accumulate_dS n m k U V W Phi dS j = dS j.
Proof.
  intros Hm Hpad Hj. unfold accumulate_dS.
  destruct (Z_le_gt_dec n 0) as [Hn|Hn]; [now rewrite for_upto_empty|].
  apply (for_upto_inv (fun _ (d : buf float) => d j = dS j)); [lia | reflexivity |].
  intros i d Hi Hd.
  destruct (Z_le_gt_dec k 0) as [Hk|Hk]; [now rewrite for_upto_empty|].
  apply (for_upto_inv (fun _ (d' : buf float) => d' j = dS j)); [lia | exact Hd |].
  intros kk d' Hkk Hd'. cbv zeta.
  rewrite !saxpy_spec, simd_rounds_exact, Hd' by assumption.
  ztests; nia.
Qed.

(** X19.  The cells [mix_forward] may write in the kernel buffers, for [m]
    and [k] multiples of 4: rows of visited ids in [V], the [k * m] cells of
    [W], the entries of visited ids in [gnrm], the first [k] cells of
    [cache].  Everything else is as at the call. *)
Theorem mix_forward_write_set max_iter eps n m k index Smat z b Snrms :
  0 <= m -> m mod 4 = 0 -> 0 < k -> k mod 4 = 0 ->
  let r := mix_forward max_iter eps n m k index Smat z b Snrms in
  (forall j, (forall i, In i (visited index) -> ~ (i * k <= j < i * k + k)) ->
     kV (fw_bufs r) j = kV b j)
  /\ (forall j, j < 0 \/ k * m <= j -> kW (fw_bufs r) j = kW b j)
  /\ (forall j, ~ In j (visited index) -> kgnrm (fw_bufs r) j = kgnrm b j)
  /\ (forall j, j < 0 \/ k <= j -> kg (fw_bufs r) j = kg b j).
Proof.
  intros Hm Hmpad Hk Hkpad. cbv zeta.
  destruct (mix_forward_sweeps max_iter eps n m k index Smat z b Snrms)
    as (s & conv & _ & -> & _).
  apply sweep_bufs_frames; assumption.
Qed.

(** The cells [mix_backward] leaves alone. *)
Lemma mix_backward_frames prox_lam n m k is_input index niter Smat dS z dz V U W
    Phi gnrm Snrms cache :
  0 <= m -> m mod 4 = 0 -> 0 < k -> k mod 4 = 0 ->
  let rb :=
    mix_backward prox_lam n m k is_input index niter Smat dS z dz V U W Phi gnrm
      Snrms cache in
  (forall j, (forall i, In i (visited index) -> ~ (i * k <= j < i * k + k)) ->
     bw_U rb j = U j)
  /\ (forall j, j < 0 \/ k * m <= j -> bw_Phi rb j = Phi j)
  /\ (forall j, j < 0 \/ k <= j -> bw_cache rb j = cache j)
  /\ (forall j, j < 0 \/ n * m <= j -> bw_dS rb j = dS j)
  /\ (forall j, j < 0 \/ n <= j -> ~ In j (visited index) -> bw_dz rb j = dz j).
Proof.
  intros Hm Hmpad Hk Hkpad. cbv zeta. unfold mix_backward.
  pose proof (rescale_dz_frame index z gnrm dz) as Hdz.
  destruct (rescale_dz index z gnrm dz) as [dz1 flag1]. cbn [fst] in Hdz.
  assert (Hzero : forall j, j < 0 \/ n <= j -> ~ In j (visited index) ->
                    szero dz1 0 n j = dz j).
  { intros j Hj Hnv. unfold szero. rewrite <- (Hdz j Hnv). ztests. }
  destruct flag1.
  - cbn [bw_U bw_Phi bw_cache bw_dS bw_dz]. repeat split; auto.
  - destruct (adjoint_sweeps_frames prox_lam m k index niter Smat dz1 V Snrms
                {| kV := U; kW := Phi; kgnrm := gnrm; kg := cache |} []
                Hm Hmpad Hk Hkpad) as (FV & FW & Fg).
    cbv zeta in FV, FW, Fg. cbn [kV kW kg] in FV, FW, Fg.
    destruct (adjoint_sweeps prox_lam m k index niter Smat dz1 V Snrms
                ({| kV := U; kW := Phi; kgnrm := gnrm; kg := cache |}, []))
      as [b1 calls1]. cbn [fst] in FV, FW, Fg.
    destruct (nonfinite_U n k (kV b1));
      cbn [bw_U bw_Phi bw_cache bw_dS bw_dz]; repeat split; auto.
    + intros j Hj. apply accumulate_dS_frame; assumption.
    + intros j Hj Hnv. rewrite input_gradients_frame by lia. now apply Hdz.
Qed.

(** X20.  The cells [mix_backward] may write, for [m] and [k] multiples of
    4: rows of visited ids in [U], the [k * m] cells of [Phi], the first [k]
    cells of [cache], the [n * m] cells of [dS], and in [dz] its [n] entries
    and those of the visited ids.  Everything else is as at the call. *)
Theorem mix_backward_write_set prox_lam n m k is_input index niter Smat dS z dz V U W
    Phi gnrm Snrms cache :
  0 <= m -> m mod 4 = 0 -> 0 < k -> k mod 4 = 0 ->
  let rb :=
    mix_backward prox_lam n m k is_input index niter Smat dS z dz V U W Phi gnrm
      Snrms cache in
  (forall j, (forall i, In i (visited index) -> ~ (i * k <= j < i * k + k)) ->
     bw_U rb j = U j)
  /\ (forall j, j < 0 \/ k * m <= j -> bw_Phi rb j = Phi j)
  /\ (forall j, j < 0 \/ k <= j -> bw_cache rb j = cache j)
  /\ (forall j, j < 0 \/ n * m <= j -> bw_dS rb j = dS j)
  /\ (forall j, j < 0 \/ n <= j -> ~ In j (visited index) -> bw_dz rb j = dz j).
Proof.
  intros Hm Hmpad Hk Hkpad.
  exact (mix_backward_frames prox_lam n m k is_input index niter Smat dS z dz V U W Phi
           gnrm Snrms cache Hm Hmpad Hk Hkpad).
Qed.

End PassFrames.

(** ** The batch launcher of the initializer *)

(** Updates of disjoint slices of [N] cells, one slice per id of a list
    without repetition: each slice ends up as its own update leaves it when
    run on the initial buffer, in whatever order the ids come. *)
Lemma fold_slices {T : Type} (N : Z) (F : Z -> buf T -> buf T) (R : Z -> Z -> T)
    (V : buf T) :
  0 < N ->
  (forall i (V' : buf T) p, ~ (i * N <= p < i * N + N) -> F i V' p = V' p) ->
  (forall i (V' : buf T) c,
     0 <= c < N ->
     (forall c', 0 <= c' < N -> V' (i * N + c') = V (i * N + c')) ->
     F i V' (i * N + c) = R i c) ->
  forall schedule,
    NoDup schedule ->
    (forall i c, In i schedule -> 0 <= c < N ->
       fold_left (fun V' i => F i V') schedule V (i * N + c) = R i c)
    /\ (forall p, (forall i, In i schedule -> ~ (i * N <= p < i * N + N)) ->
          fold_left (fun V' i => F i V') schedule V p = V p).
Proof.
  intros HN Hframe Hlocal schedule.
  induction schedule as [|i0 l IH] using rev_ind; intros Hnd.
  - cbn. split; [intros i c []|reflexivity].
  - apply NoDup_remove in Hnd as [Hnd Hnotin]. rewrite app_nil_r in Hnd, Hnotin.
    destruct (IH Hnd) as [IHin IHout].
    rewrite fold_left_app. cbn [fold_left]. split.
    + intros i c Hi Hc. apply in_app_or in Hi as [Hi|[<-|[]]].
      * rewrite Hframe by (assert (i <> i0) by (intros ->; exact (Hnotin Hi)); nia).
        apply IHin; assumption.
      * apply Hlocal; [exact Hc|].
        intros c' Hc'. apply IHout.
        intros i Hi. assert (i <> i0) by (intros ->; exact (Hnotin Hi)). nia.
    + intros p Hp.
      rewrite Hframe by (apply Hp, in_or_app; right; now left).
      apply IHout. intros i Hi. apply Hp, in_or_app. now left.
Qed.

Section InitLauncher.
Context {ops : FloatOps}.

(** The rows [mix_init] leaves do not depend on the index array it is
    given, nor does the index array it builds depend on [z] and [V]. *)
Lemma mix_init_fst perm n k is_input index z (V : buf float) :
  fst (mix_init perm n k is_input index z V)
  = for_upto 0 n (mix_init_row k is_input z) V.
Proof.
  unfold mix_init. cbv zeta.
  destruct (for_upto 0 (n - 1) _ (index, 0)) as [index1 j1]. reflexivity.
Qed.

Lemma mix_init_snd perm n k is_input index z z' (V V' : buf float) :
  snd (mix_init perm n k is_input index z V)
  = snd (mix_init perm n k is_input index z' V').
Proof.
  unfold mix_init. cbv zeta.
  destruct (for_upto 0 (n - 1) _ (index, 0)) as [index1 j1]. reflexivity.
Qed.

(** The rows depend on the [n * k] cells of [V] only. *)
Lemma mix_init_V_ext perm n k is_input index index' z (V V' : buf float) c :
  0 < k -> k mod 4 = 0 -> 0 <= n ->
  (forall c, 0 <= c < n * k -> V c = V' c) ->
  0 <= c < n * k ->
  fst (mix_init perm n k is_input index z V) c
  = fst (mix_init perm n k is_input index' z V') c.
Proof.
  intros Hk Hpad Hn HV Hc. rewrite !mix_init_fst, !mix_init_rows by assumption.
  pose proof (Z.div_mod c k ltac:(lia)) as Hdm.
  pose proof (Z.mod_pos_bound c k Hk) as Hmb.
  assert (Hrow : 0 <= c / k < n) by nia.
  replace ((0 <=? c / k) && (c / k <? n)) with true
    by (symmetry; apply andb_true_iff; split;
        [apply Z.leb_le | apply Z.ltb_lt]; lia).
  apply mix_init_row_ext; [lia | exact Hpad | | nia].
  intros c' Hc'. apply HV. nia.
Qed.

Lemma mix_init_V_frame perm n k is_input index z (V : buf float) j :
  0 < k -> k mod 4 = 0 -> 0 <= n -> j < 0 \/ n * k <= j ->
  fst (mix_init perm n k is_input index z V) j = V j.
Proof.
  intros Hk Hpad Hn Hj. rewrite mix_init_fst, mix_init_rows by assumption.
  pose proof (Z.div_mod j k ltac:(lia)) as Hdm.
  pose proof (Z.mod_pos_bound j k Hk) as Hmb.
  replace ((0 <=? j / k) && (j / k <? n)) with false; [reflexivity|].
  symmetry. apply andb_false_iff.
  destruct Hj; [left; apply Z.leb_gt | right; apply Z.ltb_ge]; nia.
Qed.

(** The [n] entries of the index array depend on neither the array passed
    in nor [z] and [V]. *)
Lemma mix_init_index_indep perm n k is_input index index' z z' (V V' : buf float) c :
  1 <= n -> 0 <= c < n ->
  snd (mix_init perm n k is_input index z V) c
  = snd (mix_init perm n k is_input index' z' V') c.
Proof.
  intros Hn Hc.
  rewrite (mix_init_index_spec perm n k is_input index z V Hn),
          (mix_init_index_spec perm n k is_input index' z' V' Hn).
  cbv zeta. ztests.
Qed.

Lemma mix_init_index_frame perm n k is_input index z (V : buf float) c :
  1 <= n -> c < 0 \/ n <= c ->
  snd (mix_init perm n k is_input index z V) c = index c.
Proof.
  intros Hn Hc.
  pose proof (free_ids_length perm is_input (Z.to_nat (n - 1))) as Hlen.
  rewrite (mix_init_index_spec perm n k is_input index z V Hn). cbv zeta.
  ztests.
Qed.

Section Batch.
Variables (perm : buf Z) (n k : Z) (is_input index0 : buf Z) (z V0 : buf float).

(** What one iteration does to [V] and to [index], separately. *)
Let step_V (i : Z) (V : buf float) : buf float :=
  unoffset
    (fst (mix_init perm n k (offset is_input (i * n)) (offset index0 (i * n))
            (offset z (i * n)) (offset V (i * (n * k)))))
    (i * (n * k)).

Let step_index (i : Z) (index : buf Z) : buf Z :=
  unoffset
    (snd (mix_init perm n k (offset is_input (i * n)) (offset index (i * n))
            (offset z (i * n)) (offset V0 (i * (n * k)))))
    (i * n).

Lemma mix_init_launcher_split :
  forall schedule (V : buf float) (index : buf Z),
    fold_left (fun st i => mix_init_iteration perm n k is_input z i st)
      schedule (V, index)
    = (fold_left (fun V i => step_V i V) schedule V,
       fold_left (fun index i => step_index i index) schedule index).
Proof.
  induction schedule as [|i l IH]; intros V index; [reflexivity|].
  cbn [fold_left]. rewrite <- IH. f_equal.
  unfold mix_init_iteration, step_V, step_index.
  replace (i * n * k) with (i * (n * k)) by ring.
  rewrite (surjective_pairing
             (mix_init perm n k (offset is_input (i * n)) (offset index (i * n))
                (offset z (i * n)) (offset V (i * (n * k))))).
  f_equal.
  - f_equal. rewrite !mix_init_fst. reflexivity.
  - f_equal. apply mix_init_snd.
Qed.

Lemma step_V_frame i (V : buf float) p :
  0 < k -> k mod 4 = 0 -> 0 <= n ->
  ~ (i * (n * k) <= p < i * (n * k) + n * k) -> step_V i V p = V p.
Proof.
  intros Hk Hpad Hn Hp. unfold step_V, unoffset.
  rewrite mix_init_V_frame by (assumption || lia).
  unfold offset. f_equal. lia.
Qed.

Lemma step_V_local i (V : buf float) c :
  0 < k -> k mod 4 = 0 -> 0 <= n ->
  0 <= c < n * k ->
  (forall c', 0 <= c' < n * k -> V (i * (n * k) + c') = V0 (i * (n * k) + c')) ->
  step_V i V (i * (n * k) + c)
  = fst (mix_init perm n k (offset is_input (i * n)) (offset index0 (i * n))
           (offset z (i * n)) (offset V0 (i * (n * k)))) c.
Proof.
  intros Hk Hpad Hn Hc HV. unfold step_V, unoffset.
  replace (i * (n * k) + c - i * (n * k)) with c by lia.
  apply mix_init_V_ext; assumption.
Qed.

Lemma step_index_frame i (index : buf Z) p :
  1 <= n -> ~ (i * n <= p < i * n + n) -> step_index i index p = index p.
Proof.
  intros Hn Hp. unfold step_index, unoffset.
  rewrite mix_init_index_frame by (assumption || lia).
  unfold offset. f_equal. lia.
Qed.

Lemma step_index_local i (index : buf Z) c :
  1 <= n -> 0 <= c < n ->
  step_index i index (i * n + c)
  = snd (mix_init perm n k (offset is_input (i * n)) (offset index0 (i * n))
           (offset z (i * n)) (offset V0 (i * (n * k)))) c.
Proof.
  intros Hn Hc. unfold step_index, unoffset.
  replace (i * n + c - i * n) with c by lia.
  apply mix_init_index_indep; assumption.
Qed.

(** X21.  [mix_init_launcher_cpu] over a batch of [b] elements, with the
    iterations of its parallel loop taken one at a time in any order: every
    batch element ends up with the rows and the index array that [mix_init]
    computes from the slices of that element as the caller passed them, so
    the order plays no part; no cell outside the [b * n * k] cells of [V]
    and the [b * n] cells of [index] is written.  Rows have [k > 0] cells,
    [k] a multiple of 4, and [n >= 1]. *)
Theorem mix_init_launcher_any_order schedule b :
  0 < k -> k mod 4 = 0 -> 1 <= n ->
  NoDup schedule -> (forall i, In i schedule <-> 0 <= i < b) ->
  let r := mix_init_launcher_cpu schedule perm n k is_input index0 z V0 in
  let alone i :=
    mix_init perm n k (offset is_input (i * n)) (offset index0 (i * n))
      (offset z (i * n)) (offset V0 (i * n * k)) in
  (forall i c, 0 <= i < b -> 0 <= c < n * k ->
     fst r (i * n * k + c) = fst (alone i) c)
  /\ (forall i c, 0 <= i < b -> 0 <= c < n ->
        snd r (i * n + c) = snd (alone i) c)
  /\ (forall p, p < 0 \/ b * n * k <= p -> fst r p = V0 p)
  /\ (forall p, p < 0 \/ b * n <= p -> snd r p = index0 p).
Proof.
  intros Hk Hpad Hn Hnd Hall. cbv zeta.
  unfold mix_init_launcher_cpu. rewrite mix_init_launcher_split. cbn [fst snd].
  assert (HN : 0 < n * k) by nia.
  assert (FV : forall i (V : buf float) p,
             ~ (i * (n * k) <= p < i * (n * k) + n * k) -> step_V i V p = V p).
  { intros i V p Hp. apply step_V_frame; (assumption || lia). }
  assert (LV : forall i (V : buf float) c,
             0 <= c < n * k ->
             (forall c', 0 <= c' < n * k ->
                V (i * (n * k) + c') = V0 (i * (n * k) + c')) ->
             step_V i V (i * (n * k) + c)
             = fst (mix_init perm n k (offset is_input (i * n))
                      (offset index0 (i * n)) (offset z (i * n))
                      (offset V0 (i * (n * k)))) c).
  { intros i V c Hc HV. apply step_V_local; (assumption || lia). }
  destruct (fold_slices (n * k) step_V _ V0 HN FV LV schedule Hnd) as [HVin HVout].
  assert (FI : forall i (index : buf Z) p,
             ~ (i * n <= p < i * n + n) -> step_index i index p = index p).
  { intros i index p Hp. apply step_index_frame; assumption. }
  assert (LI : forall i (index : buf Z) c,
             0 <= c < n ->
             (forall c', 0 <= c' < n -> index (i * n + c') = index0 (i * n + c')) ->
             step_index i index (i * n + c)
             = snd (mix_init perm n k (offset is_input (i * n))
                      (offset index0 (i * n)) (offset z (i * n))
                      (offset V0 (i * (n * k)))) c).
  { intros i index c Hc _. apply step_index_local; assumption. }
  destruct (fold_slices n step_index _ index0 ltac:(lia) FI LI schedule Hnd)
    as [HIin HIout].
  repeat split.
  - intros i c Hi Hc. replace (i * n * k) with (i * (n * k)) by ring.
    apply HVin; [now apply Hall | exact Hc].
  - intros i c Hi Hc. replace (i * n * k) with (i * (n * k)) by ring.
    apply HIin; [now apply Hall | exact Hc].
  - intros p Hp. apply HVout. intros i Hi. apply Hall in Hi. nia.
  - intros p Hp. apply HIout. intros i Hi. apply Hall in Hi. nia.
Qed.

End Batch.

End InitLauncher.

(** ** Exact arithmetic: the adjoint sweep projects *)

Section ExactAdjoint.
#[local] Existing Instance Exact.ops.
Import Exact.
Local Open Scope R_scope.

Lemma rsum_add n (f g : Z -> R) :
  rsum n (fun c => f c + g c) = rsum n f + rsum n g.
Proof.
  induction n as [|n IH]; cbn [rsum]; [ring|]. rewrite IH. ring.
Qed.

Lemma rsum_at_0 n (a : R) :
  (0 < n)%nat -> rsum n (fun c => if (c =? 0)%Z then a else 0) = a.
Proof.
  intros Hn.
  rewrite (rsum_update n (fun _ => 0) _ 0%Z); [|lia|].
  - assert (Hz : rsum n (fun _ : Z => 0) = 0).
    { clear Hn. induction n as [|n IH]; cbn [rsum]; [reflexivity|]. rewrite IH. ring. }
    rewrite Hz. cbn [Z.eqb]. ring.
  - intros c Hc. apply Z.eqb_neq in Hc as ->. reflexivity.
Qed.

(** The row an adjoint step computes for variable [i] is orthogonal to the
    row [i] of the projection matrix when that row is a unit vector. *)
Lemma adjoint_direction_orthogonal prox_lam m k (Smat dz Vproj Snrms : buf R) i b :
  (0 < k)%Z -> (k mod 4 = 0)%Z ->
  row_norm2 k Vproj i = 1 ->
  rsum (Z.to_nat k)
    (fun kk =>
       snd (kernel_direction false prox_lam m k Smat dz Vproj Snrms i b) kk
       * Vproj (i * k + kk)%Z)
  = 0.
Proof.
  intros Hk Hpad Hunit. unfold row_norm2 in Hunit.
  unfold kernel_direction. cbv zeta.
  set (g := kernel_gradient (ops := Exact.ops) m k Smat Snrms i b).
  cbn [fst snd].
  set (gn := @fadd Exact.ops (kgnrm b i) prox_lam).
  assert (Hc : sdot Vproj (i * k) g 0 k
               = rsum (Z.to_nat k) (fun kk => Vproj (i * k + kk)%Z * g kk)).
  { rewrite sdot_exact, padded_rounds by exact Hpad.
    apply rsum_ext. intros c _. rewrite Z.add_0_l. reflexivity. }
  set (c := @fadd Exact.ops (sdot (ops := Exact.ops) Vproj (i * k) g 0 k)
              (@fmul Exact.ops (dz i) (Vproj (i * k)%Z))) in *.
  assert (Hcv : c = rsum (Z.to_nat k) (fun kk => Vproj (i * k + kk)%Z * g kk)
                    + dz i * Vproj (i * k)%Z).
  { unfold c. rewrite Hc. reflexivity. }
  clearbody c.
  rewrite (rsum_ext _ _
             (fun kk =>
                (if (kk =? 0)%Z then - dz i * (1 / gn) * Vproj (i * k)%Z else 0)
                + (1 / gn) * (c * (Vproj (i * k + kk)%Z * Vproj (i * k + kk)%Z)
                              + -1 * (Vproj (i * k + kk)%Z * g kk)))).
  - rewrite rsum_add, rsum_at_0, rsum_scal, rsum_add, !rsum_scal, Hunit by lia.
    rewrite Hcv. ring.
  - intros kk Hkk.
    rewrite sscal_spec.
    replace ((0 <=? kk)%Z && (kk <? 0 + k)%Z) with true
      by (symmetry; apply andb_true_iff; split;
          [apply Z.leb_le | apply Z.ltb_lt]; lia).
    unfold store.
    rewrite !saxpy_spec, !sscal_spec, simd_rounds_exact by (assumption || lia).
    replace ((0 <=? kk)%Z && (kk <? 0 + k)%Z) with true
      by (symmetry; apply andb_true_iff; split;
          [apply Z.leb_le | apply Z.ltb_lt]; lia).
    replace ((0 <=? 0)%Z && (0 <? 0 + k)%Z) with true
      by (symmetry; apply andb_true_iff; split;
          [apply Z.leb_le | apply Z.ltb_lt]; lia).
    unfold f1. real_ops.
    destruct (Z.eqb_spec kk 0) as [->|Hne].
    + replace (i * k + (0 - 0))%Z with (i * k)%Z by lia.
      replace (i * k + 0)%Z with (i * k)%Z by lia. ring.
    + replace (i * k + (kk - 0))%Z with (i * k + kk)%Z by lia. ring.
Qed.

(** An adjoint step leaves row [i] of [U] orthogonal to row [i] of [V], and
    keeps what was established for the other rows. *)
Lemma adjoint_step_orthogonal prox_lam m k (Smat dz Vproj Snrms : buf R) i0 b
    (delta : float) i :
  (0 < k)%Z -> (k mod 4 = 0)%Z ->
  row_norm2 k Vproj i = 1 ->
  i = i0
  \/ rsum (Z.to_nat k) (fun kk => kV b (i * k + kk)%Z * Vproj (i * k + kk)%Z) = 0 ->
  rsum (Z.to_nat k)
    (fun kk =>
       kV (fst (mix_kernel_step false prox_lam m k Smat dz Vproj Snrms i0 (b, delta)))
         (i * k + kk)%Z
       * Vproj (i * k + kk)%Z)
  = 0.
Proof.
  intros Hk Hpad Hunit Hi.
  destruct (Z.eq_dec i i0) as [->|Hne].
  - rewrite <- (adjoint_direction_orthogonal prox_lam m k Smat dz Vproj Snrms i0 b
                  Hk Hpad Hunit).
    apply rsum_ext. intros c Hc.
    rewrite mix_kernel_step_V, in_row_iff, Z.eqb_refl by lia.
    replace (i0 * k + c - i0 * k)%Z with c by lia. reflexivity.
  - destruct Hi as [Hi|Hi]; [contradiction|].
    rewrite <- Hi. apply rsum_ext. intros c Hc.
    rewrite mix_kernel_step_V, in_row_iff by lia.
    apply Z.eqb_neq in Hne as ->. reflexivity.
Qed.

(** X22.  In exact arithmetic one adjoint sweep leaves, for every visited
    id [i] whose row of [V] is a unit vector, the row [i] of [U] orthogonal
    to the row [i] of [V]: the update is a projection onto the complement of
    [V_i].  Rows have [k > 0] cells, [k] a multiple of 4. *)
Theorem adjoint_sweep_orthogonal_rows prox_lam m k index (Smat dz V Snrms : buf R) b i :
  (0 < k)%Z -> (k mod 4 = 0)%Z ->
  In i (visited index) ->
  row_norm2 k V i = 1 ->
  rsum (Z.to_nat k)
    (fun kk =>
       kV (fst (mix_kernel false prox_lam m k index Smat dz V Snrms b)) (i * k + kk)%Z
       * V (i * k + kk)%Z)
  = 0.
Proof.
  intros Hk Hpad Hin Hunit. unfold mix_kernel.
  assert (H : forall (l : list Z) b0 (delta : float),
             In i l
             \/ rsum (Z.to_nat k)
                  (fun kk => kV b0 (i * k + kk)%Z * V (i * k + kk)%Z) = 0 ->
             rsum (Z.to_nat k)
               (fun kk =>
                  kV (fst (fold_left
                             (fun acc i =>
                                mix_kernel_step false prox_lam m k Smat dz V Snrms i acc)
                             l (b0, delta))) (i * k + kk)%Z
                  * V (i * k + kk)%Z)
             = 0).
  { induction l as [|a l IH]; intros b0 delta Hi.
    - cbn [fold_left fst]. destruct Hi as [[]|Hi]; exact Hi.
    - cbn [fold_left].
      pose proof (adjoint_step_orthogonal prox_lam m k Smat dz V Snrms a b0 delta i
                    Hk Hpad Hunit) as Hs.
      destruct (mix_kernel_step false prox_lam m k Smat dz V Snrms a (b0, delta))
        as [b1 d1].
      cbn [fst] in Hs. apply IH.
      destruct (in_dec Z.eq_dec i l) as [Hl|Hl]; [now left | right].
      apply Hs. destruct Hi as [[->|Hl']|Hi]; [now left | contradiction | now right]. }
  apply H. now left.
Qed.

End ExactAdjoint.

(** ** Closed instances of the further properties *)

Section FurtherInstances.
Import Sample Probe.

Lemma saxpy_padded_witness :
  0 <= 4 /\ 4 mod 4 = 0
  /\ saxpy (ops := IEEE.annex_ops) zeros 0 (fl 2) ramp 0 4 1
     = if (0 <=? 1) && (1 <? 0 + 4)
       then @fadd IEEE.annex_ops (@fmul IEEE.annex_ops (fl 2) (ramp (0 + (1 - 0))))
              (zeros 1)
       else zeros 1.
Proof.
  assert (H0 : 0 <= 4) by lia.
  assert (H4 : 4 mod 4 = 0) by reflexivity.
  exact (conj H0 (conj H4
           (saxpy_padded (ops := IEEE.annex_ops) zeros 0 (fl 2) ramp 0 4 1 H0 H4))).
Defined.

Lemma saxpy_overruns_unpadded_witness :
  0 < 3 /\ 3 mod 4 <> 0
  /\ saxpy (ops := IEEE.annex_ops) zeros 0 (fl 2) ramp 0 3 (0 + 3)
     = @fadd IEEE.annex_ops (@fmul IEEE.annex_ops (fl 2) (ramp (0 + 3)))
         (zeros (0 + 3)).
Proof.
  assert (H0 : 0 < 3) by lia.
  assert (H3 : 3 mod 4 <> 0) by (cbv; discriminate).
  exact (conj H0 (conj H3
           (saxpy_overruns_unpadded (ops := IEEE.annex_ops) zeros 0 (fl 2) ramp 0 3
              H0 H3))).
Defined.

Lemma sdot_is_the_inner_product_witness :
  4 mod 4 = 0
  /\ sdot (ops := Exact.ops) rramp 0 rramp 4 4
     = Exact.rsum (Z.to_nat 4) (fun c => Rmult (rramp (0 + c)) (rramp (4 + c))).
Proof.
  assert (H4 : 4 mod 4 = 0) by reflexivity.
  exact (conj H4 (sdot_is_the_inner_product rramp rramp 0 4 4 H4)).
Defined.

Lemma snrm2_is_the_norm_witness :
  4 mod 4 = 0
  /\ (0 <= snrm2 (ops := Exact.ops) rramp 0 4)%R
  /\ Rmult (snrm2 (ops := Exact.ops) rramp 0 4) (snrm2 (ops := Exact.ops) rramp 0 4)
     = Exact.rsum (Z.to_nat 4) (fun c => Rmult (rramp (0 + c)) (rramp (0 + c))).
Proof.
  assert (H4 : 4 mod 4 = 0) by reflexivity.
  destruct (snrm2_is_the_norm rramp 0 4 H4) as (Hpos & Hsq & _).
  exact (conj H4 (conj Hpos Hsq)).
Defined.

Lemma saturate_of_nonfinite_witness :
  IEEE.is_finite (S754_infinity false) = false
  /\ saturate (ops := IEEE.annex_ops) (S754_infinity false) = S754_nan.
Proof.
  assert (H : IEEE.is_finite (S754_infinity false) = false) by reflexivity.
  exact (conj H (saturate_of_nonfinite IEEE.annex_f (S754_infinity false) H)).
Defined.

Lemma mix_init_index_has_sentinel_witness :
  1 <= 3
  /\ snd (mix_init (ops := IEEE.annex_ops) perm_id 3 4 input_01 index_blank zeros
            V_e0_e1) (3 - 1) = 0
  /\ In 0 (index_array 3
             (snd (mix_init (ops := IEEE.annex_ops) perm_id 3 4 input_01 index_blank
                     zeros V_e0_e1))).
Proof.
  assert (H : 1 <= 3) by lia.
  destruct (mix_init_index_has_sentinel (ops := IEEE.annex_ops) perm_id 3 4 input_01
              index_blank zeros V_e0_e1 H) as (H1 & H2 & _).
  exact (conj H (conj H1 H2)).
Defined.

Lemma mix_init_visits_free_in_order_witness :
  1 <= 3
  /\ (forall i_, 0 <= i_ < 3 - 1 -> perm_id i_ + 1 <> 0)
  /\ visited (index_array 3
                (snd (mix_init (ops := IEEE.annex_ops) perm_id 3 4 input_0 index_blank
                        zeros V_e0_e1)))
     = free_ids perm_id input_0 (Z.to_nat (3 - 1)).
Proof.
  assert (H : 1 <= 3) by lia.
  assert (Hp : forall i_, 0 <= i_ < 3 - 1 -> perm_id i_ + 1 <> 0)
    by (intros i_ Hi; unfold perm_id; lia).
  exact (conj H (conj Hp
           (mix_init_visits_free_in_order (ops := IEEE.annex_ops) perm_id 3 4 input_0
              index_blank zeros V_e0_e1 H Hp))).
Defined.

Lemma mix_init_rows_independent_witness :
  0 < 4 /\ 4 mod 4 = 0 /\ 0 <= 2
  /\ (forall i c, 0 <= i < 2 -> 0 <= c < 4 ->
        fst (mix_init (ops := IEEE.annex_ops) perm_id 2 4 input_0 index_blank zeros
               V_seed34) (i * 4 + c)
        = mix_init_row (ops := IEEE.annex_ops) 4 input_0 zeros i V_seed34 (i * 4 + c))
  /\ (forall j, j < 0 \/ 2 * 4 <= j ->
        fst (mix_init (ops := IEEE.annex_ops) perm_id 2 4 input_0 index_blank zeros
               V_seed34) j = V_seed34 j).
Proof.
  assert (Hk : 0 < 4) by lia.
  assert (H4 : 4 mod 4 = 0) by reflexivity.
  assert (Hn : 0 <= 2) by lia.
  exact (conj Hk (conj H4 (conj Hn
           (mix_init_rows_independent (ops := IEEE.annex_ops) perm_id 2 4 input_0
              index_blank zeros V_seed34 Hk H4 Hn)))).
Defined.

Lemma mix_init_input_row_witness :
  0 < 4 /\ 4 mod 4 = 0 /\ 0 <= 0 < 2 /\ input_0 0 <> 0 /\ 0 <= 1 < 4
  /\ fst (mix_init (ops := IEEE.annex_ops) perm_id 2 4 input_0 index_blank zeros
            V_seed34) (0 * 4 + 1)
     = S754_zero false.
Proof.
  assert (Hk : 0 < 4) by lia.
  assert (H4 : 4 mod 4 = 0) by reflexivity.
  assert (Hi : 0 <= 0 < 2) by lia.
  assert (Hin : input_0 0 <> 0) by (cbv; discriminate).
  assert (Hc : 0 <= 1 < 4) by lia.
  exact (conj Hk (conj H4 (conj Hi (conj Hin (conj Hc
           (mix_init_input_row (ops := IEEE.annex_ops) perm_id 2 4 input_0 index_blank
              zeros V_seed34 0 1 Hk H4 Hi Hin Hc)))))).
Defined.

Lemma mix_init_unit_rows_witness :
  0 < 4 /\ 4 mod 4 = 0 /\ 0 <= 1 < 2
  /\ (input_0 1 = 0 -> Exact.row_norm2 4 rramp 1 <> 0%R)
  /\ Exact.row_norm2 4
       (fst (mix_init (ops := Exact.ops) perm_id 2 4 input_0 index_blank rzeros rramp))
       1 = 1%R.
Proof.
  assert (Hk : 0 < 4) by lia.
  assert (H4 : 4 mod 4 = 0) by reflexivity.
  assert (Hi : 0 <= 1 < 2) by lia.
  assert (Hs : input_0 1 = 0 -> Exact.row_norm2 4 rramp 1 <> 0%R).
  { intros _. real_eval. lra. }
  exact (conj Hk (conj H4 (conj Hi (conj Hs
           (mix_init_unit_rows perm_id 2 4 input_0 index_blank rzeros rramp 1
              Hk H4 Hi Hs))))).
Defined.

Lemma mix_init_zero_seed_nan_witness :
  0 < 4 /\ 4 mod 4 = 0 /\ 0 <= 1 < 2 /\ input_0 1 = 0
  /\ (forall c, 0 <= c < 4 -> exists s, zeros (1 * 4 + c) = S754_zero s)
  /\ (forall c, 0 <= c < 4 ->
        fst (mix_init (ops := IEEE.annex_ops) perm_id 2 4 input_0 index_blank zeros
               zeros) (1 * 4 + c) = S754_nan).
Proof.
  assert (Hk : 0 < 4) by lia.
  assert (H4 : 4 mod 4 = 0) by reflexivity.
  assert (Hi : 0 <= 1 < 2) by lia.
  assert (Hf : input_0 1 = 0) by reflexivity.
  assert (Hz : forall c, 0 <= c < 4 -> exists s, zeros (1 * 4 + c) = S754_zero s)
    by (intros c _; exists false; reflexivity).
  exact (conj Hk (conj H4 (conj Hi (conj Hf (conj Hz
           (mix_init_zero_seed_nan IEEE.annex_f perm_id 2 4 input_0 index_blank zeros
              zeros 1 Hk H4 Hi Hf Hz)))))).
Defined.

Lemma mix_kernel_write_set_witness :
  0 <= 4 /\ 4 mod 4 = 0 /\ 0 < 4
  /\ (forall j, j < 0 \/ 4 * 4 <= j ->
        kW (fst (mix_kernel (ops := IEEE.annex_ops) true (fl 0) 4 4 index_free pull_S
                   zeros zeros pull_Snrms (pull_start IEEE.annex_f))) j
        = pull_W j)
  /\ (forall j, j < 0 \/ 4 <= j ->
        kg (fst (mix_kernel (ops := IEEE.annex_ops) true (fl 0) 4 4 index_free pull_S
                   zeros zeros pull_Snrms (pull_start IEEE.annex_f))) j
        = zeros j).
Proof.
  assert (Hm : 0 <= 4) by lia.
  assert (H4 : 4 mod 4 = 0) by reflexivity.
  assert (Hk : 0 < 4) by lia.
  destruct (mix_kernel_write_set (ops := IEEE.annex_ops) true (fl 0) 4 4 index_free
              pull_S zeros zeros pull_Snrms (pull_start IEEE.annex_f) Hm H4 Hk H4)
    as (_ & HW & _ & Hg).
  exact (conj Hm (conj H4 (conj Hk (conj HW Hg)))).
Defined.

Lemma mix_backward_flags_exactly_witness :
  NoDup (visited index_free)
  /\ (bw_invalid
        (mix_backward (ops := IEEE.annex_ops) (fl 0) 2 4 4 input_0 index_free 3 pull_S
           ones zeros dz_1 V_e0_e1 zeros pull_W zeros gnrm_1 pull_Snrms zeros) = true
      <-> (exists i, In i (visited index_free)
                     /\ degenerate (ops := IEEE.annex_ops) zeros gnrm_1 dz_1 i = true)
          \/ (exists ik, 0 <= ik < 2 * 4
                /\ (IEEE.is_nan
                      (bw_U (mix_backward (ops := IEEE.annex_ops) (fl 0) 2 4 4 input_0
                               index_free 3 pull_S ones zeros dz_1 V_e0_e1 zeros pull_W
                               zeros gnrm_1 pull_Snrms zeros) ik)
                    || IEEE.is_inf
                         (bw_U (mix_backward (ops := IEEE.annex_ops) (fl 0) 2 4 4
                                  input_0 index_free 3 pull_S ones zeros dz_1 V_e0_e1
                                  zeros pull_W zeros gnrm_1 pull_Snrms zeros) ik))
                   = true)).
Proof.
  assert (Hnd : NoDup (visited index_free)).
  { cbn. constructor; [intros [] | constructor]. }
  exact (conj Hnd
           (mix_backward_flags_exactly (ops := IEEE.annex_ops) (fl 0) 2 4 4 input_0
              index_free 3 pull_S ones zeros dz_1 V_e0_e1 zeros pull_W zeros gnrm_1
              pull_Snrms zeros Hnd)).
Defined.

Lemma mix_backward_valid_gradients_witness :
  let rb :=
    mix_backward (ops := IEEE.annex_ops) (fl 0) 2 4 4 input_01 index_none 2 pull_S zeros
      zeros dz_7_1 V_e0_e1 zeros pull_W zeros gnrm_1 pull_Snrms zeros in
  bw_invalid rb = false /\ 1 <= 1 < 2
  /\ (input_01 1 <> 0 -> ~ In 1 (visited index_none) ->
      bw_dz rb 1
      = input_gradient (ops := IEEE.annex_ops) 4 4 pull_S zeros V_e0_e1 (bw_Phi rb)
          dz_7_1 1).
Proof.
  cbv zeta.
  assert (E : bw_invalid
                (mix_backward (ops := IEEE.annex_ops) (fl 0) 2 4 4 input_01 index_none 2
                   pull_S zeros zeros dz_7_1 V_e0_e1 zeros pull_W zeros gnrm_1
                   pull_Snrms zeros) = false)
    by (vm_compute; reflexivity).
  assert (Hi : 1 <= 1 < 2) by lia.
  destruct (mix_backward_valid_gradients (ops := IEEE.annex_ops) (fl 0) 2 4 4 input_01
              index_none 2 pull_S zeros zeros dz_7_1 V_e0_e1 zeros pull_W zeros gnrm_1
              pull_Snrms zeros 1 E Hi) as [_ H2].
  exact (conj E (conj Hi H2)).
Defined.

Lemma mix_backward_dS_exact_witness :
  let rb :=
    mix_backward (ops := Exact.ops) 0%R 2 4 4 input_01 index_none 2 rpull_S rzeros
      rzeros rdz rV_e0_e1 rV_e0_e1 rpull_W rzeros rgnrm rpull_Snrms rzeros in
  0 <= 4 /\ 4 mod 4 = 0 /\ 0 <= 0 < 2 /\ 0 <= 0 < 4
  /\ bw_invalid rb = false
  /\ bw_dS rb (0 * 4 + 0)
     = Rplus (rzeros (0 * 4 + 0))
         (Exact.rsum (Z.to_nat 4)
            (fun kk => Rplus (Rmult (bw_U rb (0 * 4 + kk)) (rpull_W (kk * 4 + 0)))
                         (Rmult (rV_e0_e1 (0 * 4 + kk)) (bw_Phi rb (kk * 4 + 0))))).
Proof.
  cbv zeta.
  assert (Hm : 0 <= 4) by lia.
  assert (H4 : 4 mod 4 = 0) by reflexivity.
  assert (Hi : 0 <= 0 < 2) by lia.
  assert (Hj : 0 <= 0 < 4) by lia.
  assert (E : bw_invalid
                (mix_backward (ops := Exact.ops) 0%R 2 4 4 input_01 index_none 2 rpull_S
                   rzeros rzeros rdz rV_e0_e1 rV_e0_e1 rpull_W rzeros rgnrm
                   rpull_Snrms rzeros) = false)
    by (rewrite bw_invalid_spec; reflexivity).
  exact (conj Hm (conj H4 (conj Hi (conj Hj (conj E
           (mix_backward_dS_exact 0%R 2 4 4 input_01 index_none 2 rpull_S rzeros
              rzeros rdz rV_e0_e1 rV_e0_e1 rpull_W rzeros rgnrm rpull_Snrms rzeros
              0 0 Hm H4 Hm Hi Hj E)))))).
Defined.

Lemma mix_forward_write_set_witness :
  0 <= 4 /\ 4 mod 4 = 0 /\ 0 < 4
  /\ (forall j, j < 0 \/ 4 * 4 <= j ->
        kW (fw_bufs (mix_forward (ops := IEEE.annex_ops) 3 eps10 2 4 4 index_free
                       pull_S zeros (pull_start IEEE.annex_f) pull_Snrms)) j
        = pull_W j)
  /\ (forall j, ~ In j (visited index_free) ->
        kgnrm (fw_bufs (mix_forward (ops := IEEE.annex_ops) 3 eps10 2 4 4 index_free
                          pull_S zeros (pull_start IEEE.annex_f) pull_Snrms)) j
        = zeros j).
Proof.
  assert (Hm : 0 <= 4) by lia.
  assert (H4 : 4 mod 4 = 0) by reflexivity.
  assert (Hk : 0 < 4) by lia.
  destruct (mix_forward_write_set (ops := IEEE.annex_ops) 3 eps10 2 4 4 index_free
              pull_S zeros (pull_start IEEE.annex_f) pull_Snrms Hm H4 Hk H4)
    as (_ & HW & Hgn & _).
  exact (conj Hm (conj H4 (conj Hk (conj HW Hgn)))).
Defined.

Lemma mix_backward_write_set_witness :
  let rb :=
    mix_backward (ops := IEEE.annex_ops) (fl 0) 2 4 4 input_01 index_none 2 pull_S ones
      zeros dz_7_1 V_e0_e1 zeros pull_W zeros gnrm_1 pull_Snrms zeros in
  0 <= 4 /\ 4 mod 4 = 0 /\ 0 < 4
  /\ (forall j, j < 0 \/ 2 * 4 <= j -> bw_dS rb j = ones j)
  /\ (forall j, j < 0 \/ 4 * 4 <= j -> bw_Phi rb j = zeros j).
Proof.
  cbv zeta.
  assert (Hm : 0 <= 4) by lia.
  assert (H4 : 4 mod 4 = 0) by reflexivity.
  assert (Hk : 0 < 4) by lia.
  destruct (mix_backward_write_set (ops := IEEE.annex_ops) (fl 0) 2 4 4 input_01
              index_none 2 pull_S ones zeros dz_7_1 V_e0_e1 zeros pull_W zeros gnrm_1
              pull_Snrms zeros Hm H4 Hk H4) as (_ & HPhi & _ & HdS & _).
  exact (conj Hm (conj H4 (conj Hk (conj HdS HPhi)))).
Defined.

Lemma mix_init_launcher_any_order_witness :
  let r :=
    mix_init_launcher_cpu (ops := IEEE.annex_ops) [1; 0] perm_id 1 4 input_0
      index_blank zeros V_seed34 in
  0 < 4 /\ 4 mod 4 = 0 /\ 1 <= 1 /\ NoDup [1; 0]
  /\ (forall i, In i [1; 0] <-> 0 <= i < 2)
  /\ (forall i c, 0 <= i < 2 -> 0 <= c < 1 * 4 ->
        fst r (i * 1 * 4 + c)
        = fst (mix_init (ops := IEEE.annex_ops) perm_id 1 4 (offset input_0 (i * 1))
                 (offset index_blank (i * 1)) (offset zeros (i * 1))
                 (offset V_seed34 (i * 1 * 4))) c)
  /\ (forall p, p < 0 \/ 2 * 1 <= p -> snd r p = index_blank p).
Proof.
  cbv zeta.
  assert (Hk : 0 < 4) by lia.
  assert (H4 : 4 mod 4 = 0) by reflexivity.
  assert (Hn : 1 <= 1) by lia.
  assert (Hnd : NoDup [1; 0]).
  { constructor; [intros [H|[]]; discriminate H | constructor; [intros [] | constructor]]. }
  assert (Hall : forall i, In i [1; 0] <-> 0 <= i < 2).
  { intros i. cbn [In]. split; [intros [<-|[<-|[]]]; lia|].
    intros Hi. destruct (Z.eq_dec i 1) as [->|]; [now left | right; left; lia]. }
  destruct (mix_init_launcher_any_order (ops := IEEE.annex_ops) perm_id 1 4 input_0
              index_blank zeros V_seed34 [1; 0] 2 Hk H4 Hn Hnd Hall)
    as (HV & _ & _ & HI).
  exact (conj Hk (conj H4 (conj Hn (conj Hnd (conj Hall (conj HV HI)))))).
Defined.

Lemma adjoint_sweep_orthogonal_rows_witness :
  0 < 4 /\ 4 mod 4 = 0 /\ In 1 (visited index_free)
  /\ Exact.row_norm2 4 rproj 1 = 1%R
  /\ Exact.rsum (Z.to_nat 4)
       (fun kk =>
          Rmult
            (kV (fst (mix_kernel (ops := Exact.ops) false 0%R 4 4 index_free rpull_S
                        rdz rproj rpull_Snrms radjoint_start)) (1 * 4 + kk))
            (rproj (1 * 4 + kk)))
     = 0%R.
Proof.
  assert (Hk : 0 < 4) by lia.
  assert (H4 : 4 mod 4 = 0) by reflexivity.
  assert (Hin : In 1 (visited index_free)) by (cbn; auto).
  assert (Hu : Exact.row_norm2 4 rproj 1 = 1%R) by (real_eval; lra).
  exact (conj Hk (conj H4 (conj Hin (conj Hu
           (adjoint_sweep_orthogonal_rows 0%R 4 4 index_free rpull_S rdz rproj
              rpull_Snrms radjoint_start 1 Hk H4 Hin Hu))))).
Defined.

End FurtherInstances.

(** ** The kernel works on the cells of its instance *)

Lemma same_on_refl {T : Type} lo hi (x : buf T) : same_on lo hi x x.
Proof. intros j _. reflexivity. Qed.

Lemma same_on_sym {T : Type} lo hi (x y : buf T) :
  same_on lo hi x y -> same_on lo hi y x.
Proof. intros H j Hj. symmetry. now apply H. Qed.

Lemma same_on_trans {T : Type} lo hi (x y z : buf T) :
  same_on lo hi x y -> same_on lo hi y z -> same_on lo hi x z.
Proof. intros H1 H2 j Hj. rewrite H1 by exact Hj. now apply H2. Qed.

Section KernelLocal.
Context {ops : FloatOps}.
Variables (n m k : Z).
Hypotheses (Hm : 0 <= m) (Hmpad : m mod 4 = 0) (Hk : 0 < k) (Hkpad : k mod 4 = 0).

Lemma fill_loop_spec (f : Z -> float) (g : buf float) j :
  for_upto 0 k (fun kk g => store g kk (f kk)) g j
  = if (0 <=? j) && (j <? k) then f j else g j.
Proof.
  revert j.
  apply (for_upto_inv
           (fun t (g' : buf float) =>
              forall j, g' j = if (0 <=? j) && (j <? t) then f j else g j));
    [lia | intros j; ztests |].
  intros c g' Hc Hg j. unfold store. rewrite Hg. ztests. subst. reflexivity.
Qed.

Lemma kernel_bufs_agree_refl b : kernel_bufs_agree n m k b b.
Proof. repeat split; apply same_on_refl. Qed.

Lemma kernel_bufs_agree_sym b b' :
  kernel_bufs_agree n m k b b' -> kernel_bufs_agree n m k b' b.
Proof. intros (H1 & H2 & H3 & H4). repeat split; now apply same_on_sym. Qed.

Lemma kernel_bufs_agree_trans b1 b2 b3 :
  kernel_bufs_agree n m k b1 b2 -> kernel_bufs_agree n m k b2 b3 ->
  kernel_bufs_agree n m k b1 b3.
Proof.
  intros (H1 & H2 & H3 & H4) (G1 & G2 & G3 & G4).
  repeat split; eapply same_on_trans; eassumption.
Qed.

Section Step.
Variables (is_forward : bool) (prox_lam : float).
Variables (Smat Snrms dz dz' Vproj Vproj' : buf float) (i : Z) (b b' : kernel_bufs).
Hypotheses (Hi : 0 <= i < n) (Hb : kernel_bufs_agree n m k b b').
Hypotheses (Hdz : dz i = dz' i) (HVp : same_on 0 (n * k) Vproj Vproj').

Lemma kernel_gradient_local kk :
  0 <= kk < k ->
  kernel_gradient m k Smat Snrms i b kk = kernel_gradient m k Smat Snrms i b' kk.
Proof.
  intros Hkk. destruct Hb as (HV & HW & _ & _).
  unfold kernel_gradient.
  rewrite !saxpy_spec, simd_rounds_exact, !fill_loop_spec by (assumption || lia).
  replace ((0 <=? kk) && (kk <? 0 + k)) with true
    by (symmetry; apply andb_true_iff; split;
        [apply Z.leb_le | apply Z.ltb_lt]; lia).
  replace ((0 <=? kk) && (kk <? k)) with true
    by (symmetry; apply andb_true_iff; split;
        [apply Z.leb_le | apply Z.ltb_lt]; lia).
  rewrite (HV (i * k + (kk - 0))) by nia.
  rewrite (sdot_ext Smat Smat (i * m) (kW b) (kW b') (kk * m) m Hm Hmpad);
    [reflexivity | intros c _; reflexivity |].
  intros c Hc. apply HW. nia.
Qed.

Lemma kernel_direction_local :
  fst (kernel_direction is_forward prox_lam m k Smat dz Vproj Snrms i b)
  = fst (kernel_direction is_forward prox_lam m k Smat dz' Vproj' Snrms i b')
  /\ forall kk, 0 <= kk < k ->
       snd (kernel_direction is_forward prox_lam m k Smat dz Vproj Snrms i b) kk
       = snd (kernel_direction is_forward prox_lam m k Smat dz' Vproj' Snrms i b') kk.
Proof.
  pose proof kernel_gradient_local as Hg.
  destruct Hb as (_ & _ & Hgn & _).
  unfold kernel_direction. cbv zeta.
  set (g := kernel_gradient m k Smat Snrms i b) in *.
  set (g' := kernel_gradient m k Smat Snrms i b') in *.
  assert (Hin : forall kk, 0 <= kk < k -> ((0 <=? kk) && (kk <? 0 + k)) = true).
  { intros kk Hkk. apply andb_true_iff. split; [apply Z.leb_le | apply Z.ltb_lt]; lia. }
  destruct is_forward; cbn [fst snd].
  - assert (E : snrm2 g 0 k = snrm2 g' 0 k).
    { unfold snrm2. cbv zeta. f_equal.
      apply sdot_ext; try assumption; try lia; intros c Hc; apply Hg; lia. }
    split; [exact E|].
    intros kk Hkk. rewrite !sscal_spec, Hin, E, Hg by exact Hkk. reflexivity.
  - assert (Ec : sdot Vproj (i * k) g 0 k +f dz i *f Vproj (i * k)
                 = sdot Vproj' (i * k) g' 0 k +f dz' i *f Vproj' (i * k)).
    { rewrite Hdz, (HVp (i * k)) by nia. f_equal.
      apply sdot_ext; try assumption; try lia.
      intros c Hc. apply HVp. nia. }
    split; [rewrite (Hgn i) by lia; reflexivity|].
    intros kk Hkk. rewrite !sscal_spec, Hin by exact Hkk.
    rewrite (Hgn i) by lia. f_equal.
    unfold store.
    rewrite !saxpy_spec, !sscal_spec, simd_rounds_exact, !Hin by (assumption || lia).
    rewrite Ec, Hdz, !Hg by lia.
    rewrite (HVp (i * k + (0 - 0))), (HVp (i * k + (kk - 0))) by nia.
    reflexivity.
Qed.

Lemma mix_kernel_step_local (delta : float) :
  kernel_bufs_agree n m k
    (fst (mix_kernel_step is_forward prox_lam m k Smat dz Vproj Snrms i (b, delta)))
    (fst (mix_kernel_step is_forward prox_lam m k Smat dz' Vproj' Snrms i (b', delta)))
  /\ snd (mix_kernel_step is_forward prox_lam m k Smat dz Vproj Snrms i (b, delta))
     = snd (mix_kernel_step is_forward prox_lam m k Smat dz' Vproj' Snrms i (b', delta)).
Proof.
  destruct kernel_direction_local as [Hd1 Hd2].
  pose proof Hb as (HV & HW & Hgn & Hg).
  assert (HG : same_on 0 k
                 (kg (fst (mix_kernel_step is_forward prox_lam m k Smat dz Vproj Snrms
                             i (b, delta))))
                 (kg (fst (mix_kernel_step is_forward prox_lam m k Smat dz' Vproj'
                             Snrms i (b', delta))))).
  { intros kk Hkk. rewrite !mix_kernel_step_g.
    rewrite Hd2 by exact Hkk. rewrite (HV (i * k + kk)) by nia.
    destruct ((0 <=? kk) && (kk <? k)); reflexivity. }
  split; [repeat split|].
  - intros j Hj. rewrite !mix_kernel_step_V.
    destruct ((i * k <=? j) && (j <? i * k + k)) eqn:E.
    + apply andb_true_iff in E as [E1 E2].
      apply Z.leb_le in E1. apply Z.ltb_lt in E2. apply Hd2. lia.
    + now apply HV.
  - intros p Hp.
    assert (0 < m) by nia.
    pose proof (Z.div_mod p m ltac:(lia)) as Hdm.
    pose proof (Z.mod_pos_bound p m ltac:(lia)) as Hmb.
    replace p with (p / m * m + p mod m) by lia.
    rewrite !mix_kernel_step_W by (assumption || lia).
    assert (Hrow : 0 <= p / m < k) by nia.
    rewrite Hd2 by exact Hrow.
    rewrite (HV (i * k + p / m)) by nia.
    rewrite (HW (p / m * m + p mod m)) by lia.
    reflexivity.
  - intros j Hj. rewrite !mix_kernel_step_gnrm.
    destruct is_forward; [|now apply Hgn].
    unfold store. rewrite Hd1, (Hgn j) by exact Hj. reflexivity.
  - exact HG.
  - rewrite !mix_kernel_step_delta. destruct is_forward; [|reflexivity].
    rewrite Hd1. do 2 f_equal.
    apply sdot_ext; try assumption; try lia; intros c Hc; apply HG; lia.
Qed.

End Step.

(** One sweep: equal results on the cells of the instance from equal values
    there, the visited ids being ids of the instance. *)
Lemma mix_kernel_local is_forward prox_lam index Smat Snrms dz dz' Vproj Vproj' b b' :
  (forall i, In i (visited index) -> 0 <= i < n) ->
  kernel_bufs_agree n m k b b' ->
  same_on 0 n dz dz' -> same_on 0 (n * k) Vproj Vproj' ->
  kernel_bufs_agree n m k
    (fst (mix_kernel is_forward prox_lam m k index Smat dz Vproj Snrms b))
    (fst (mix_kernel is_forward prox_lam m k index Smat dz' Vproj' Snrms b'))
  /\ snd (mix_kernel is_forward prox_lam m k index Smat dz Vproj Snrms b)
     = snd (mix_kernel is_forward prox_lam m k index Smat dz' Vproj' Snrms b').
Proof.
  intros Hids Hb Hdz HVp. unfold mix_kernel.
  generalize f0 as delta. revert b b' Hb Hids.
  induction (visited index) as [|i l IH]; intros b b' Hb Hids delta.
  - cbn [fold_left fst snd]. split; [exact Hb | reflexivity].
  - cbn [fold_left].
    destruct (mix_kernel_step_local is_forward prox_lam Smat Snrms dz dz' Vproj Vproj'
                i b b' (Hids i (or_introl eq_refl)) Hb
                (Hdz i (Hids i (or_introl eq_refl))) HVp delta) as [Hb1 Hd1].
    destruct (mix_kernel_step is_forward prox_lam m k Smat dz Vproj Snrms i (b, delta))
      as [b1 d1].
    destruct (mix_kernel_step is_forward prox_lam m k Smat dz' Vproj' Snrms i (b', delta))
      as [b1' d1'].
    cbn [fst snd] in Hb1, Hd1. subst d1'.
    apply IH; [exact Hb1|].
    intros i' Hi'. apply Hids. now right.
Qed.

End KernelLocal.

(** ** The forward pass works on the cells of its instance *)

(** A loop over ids whose round [i] works on the part [i] of a state alone
    leaves every part as that round leaves it on the initial state, in
    whatever order the ids come. *)
Lemma fold_local {St : Type} (F : Z -> St -> St) (same : Z -> St -> St -> Prop)
    (dom : Z -> Prop) :
  (forall j s, same j s s) ->
  (forall j s1 s2 s3, same j s1 s2 -> same j s2 s3 -> same j s1 s3) ->
  (forall i j s, dom i -> j <> i -> same j (F i s) s) ->
  (forall i s s', dom i -> same i s s' -> same i (F i s) (F i s')) ->
  forall schedule,
    NoDup schedule -> (forall i, In i schedule -> dom i) ->
    forall s0 j,
      (In j schedule -> same j (fold_left (fun s i => F i s) schedule s0) (F j s0))
      /\ (~ In j schedule -> same j (fold_left (fun s i => F i s) schedule s0) s0).
Proof.
  intros Hrefl Htrans Hframe Hlocal schedule.
  induction schedule as [|i0 l IH] using rev_ind; intros Hnd Hdom s0 j.
  - cbn. split; [intros [] | intros _; apply Hrefl].
  - apply NoDup_remove in Hnd as [Hnd Hnotin]. rewrite app_nil_r in Hnd, Hnotin.
    assert (Hdl : forall i, In i l -> dom i)
      by (intros i Hi; apply Hdom, in_or_app; now left).
    assert (Hd0 : dom i0) by (apply Hdom, in_or_app; right; now left).
    destruct (IH Hnd Hdl s0 j) as [IH1 IH2].
    rewrite fold_left_app. cbn [fold_left]. split.
    + intros Hj. destruct (Z.eq_dec j i0) as [->|Hne].
      * apply Hlocal; [exact Hd0 | now apply IH2].
      * apply (Htrans _ _ (fold_left (fun s i => F i s) l s0)).
        -- now apply Hframe.
        -- apply IH1. apply in_app_or in Hj as [Hj|[Hj|[]]]; [exact Hj | congruence].
    + intros Hj.
      assert (Hne : j <> i0) by (intros ->; apply Hj, in_or_app; right; now left).
      apply (Htrans _ _ (fold_left (fun s i => F i s) l s0)).
      * now apply Hframe.
      * apply IH2. intros Hl. apply Hj, in_or_app. now left.
Qed.

(** Slices seen through a pointer offset. *)
Lemma same_on_offset {T : Type} (x y : buf T) off N :
  same_on off (off + N) x y -> same_on 0 N (offset x off) (offset y off).
Proof. intros H j Hj. unfold offset. apply H. lia. Qed.

Lemma same_on_unoffset {T : Type} (v v' : buf T) off N :
  same_on 0 N v v' -> same_on off (off + N) (unoffset v off) (unoffset v' off).
Proof. intros H j Hj. unfold unoffset. apply H. lia. Qed.

Lemma unoffset_frame {T : Type} (x v : buf T) off N lo hi :
  (forall q, q < 0 \/ N <= q -> v q = offset x off q) ->
  (forall p, lo <= p < hi -> ~ (off <= p < off + N)) ->
  same_on lo hi (unoffset v off) x.
Proof.
  intros Hv Hout p Hp. unfold unoffset.
  rewrite Hv by (specialize (Hout p Hp); lia).
  unfold offset. f_equal. lia.
Qed.

Section ForwardLocal.
Context {ops : FloatOps}.
Variables (n m k : Z) (index : list Z) (Smat Snrms : buf float).
Hypotheses (Hm : 0 <= m) (Hmpad : m mod 4 = 0) (Hk : 0 < k) (Hkpad : k mod 4 = 0).
Hypothesis Hids : forall i, In i (visited index) -> 0 <= i < n.

Lemma forward_loop_local :
  forall fuel iter eps b b' calls,
    kernel_bufs_agree n m k b b' ->
    fst (fst (forward_loop m k index Smat Snrms fuel iter eps b calls))
    = fst (fst (forward_loop m k index Smat Snrms fuel iter eps b' calls))
    /\ kernel_bufs_agree n m k
         (snd (fst (forward_loop m k index Smat Snrms fuel iter eps b calls)))
         (snd (fst (forward_loop m k index Smat Snrms fuel iter eps b' calls)))
    /\ snd (forward_loop m k index Smat Snrms fuel iter eps b calls)
       = snd (forward_loop m k index Smat Snrms fuel iter eps b' calls).
Proof.
  induction fuel as [|fuel IH]; intros iter eps b b' calls Hb.
  - cbn [forward_loop fst snd]. split; [reflexivity | split; [exact Hb | reflexivity]].
  - cbn [forward_loop].
    destruct (mix_kernel_local n m k Hm Hmpad Hk Hkpad true f0 index Smat Snrms
                null_buf null_buf null_buf null_buf b b' Hids Hb
                (same_on_refl _ _ _) (same_on_refl _ _ _)) as [Hb1 Hd].
    destruct (mix_kernel true f0 m k index Smat null_buf null_buf Snrms b)
      as [b1 delta].
    destruct (mix_kernel true f0 m k index Smat null_buf null_buf Snrms b')
      as [b1' delta'].
    cbn [fst snd] in Hb1, Hd. subst delta'.
    destruct (negb (iter =? 0) && (delta <f eps)).
    + cbn [fst snd]. split; [reflexivity | split; [exact Hb1 | reflexivity]].
    + apply IH. exact Hb1.
Qed.

Lemma decode_local (V V' z z' : buf float) :
  same_on 0 (n * k) V V' -> same_on 0 n z z' ->
  same_on 0 n (decode k index V z) (decode k index V' z').
Proof.
  intros HV Hz j Hj. rewrite !decode_spec.
  destruct (in_dec Z.eq_dec j (visited index)) as [Hin|Hout]; [|now apply Hz].
  unfold decoded. rewrite (HV (j * k)) by nia. reflexivity.
Qed.

(** [mix_forward] computes the same on the cells of its instance from the
    same values there. *)
Lemma mix_forward_local max_iter eps (z z' : buf float) b b' :
  kernel_bufs_agree n m k b b' -> same_on 0 n z z' ->
  let r := mix_forward max_iter eps n m k index Smat z b Snrms in
  let r' := mix_forward max_iter eps n m k index Smat z' b' Snrms in
  fw_niter r = fw_niter r'
  /\ same_on 0 n (fw_z r) (fw_z r')
  /\ kernel_bufs_agree n m k (fw_bufs r) (fw_bufs r').
Proof.
  intros Hb Hz. cbv zeta. rewrite !mix_forward_unfold. cbv zeta.
  cbn [fw_niter fw_z fw_bufs].
  destruct (forward_loop_local (Z.to_nat max_iter) 0 eps b b' [] Hb)
    as (Hiter & Hb1 & _).
  repeat split; try exact Hiter; try apply Hb1.
  apply decode_local; [apply Hb1 | exact Hz].
Qed.

(** Outside the cells of its instance [mix_forward] writes nothing. *)
Lemma mix_forward_frames max_iter eps (z : buf float) b :
  let r := mix_forward max_iter eps n m k index Smat z b Snrms in
  (forall j, j < 0 \/ n <= j -> fw_z r j = z j)
  /\ (forall j, j < 0 \/ n * k <= j -> kV (fw_bufs r) j = kV b j)
  /\ (forall j, j < 0 \/ k * m <= j -> kW (fw_bufs r) j = kW b j)
  /\ (forall j, j < 0 \/ n <= j -> kgnrm (fw_bufs r) j = kgnrm b j)
  /\ (forall j, j < 0 \/ k <= j -> kg (fw_bufs r) j = kg b j).
Proof.
  cbv zeta.
  assert (Hz : forall j, j < 0 \/ n <= j ->
                 fw_z (mix_forward max_iter eps n m k index Smat z b Snrms) j = z j).
  { intros j Hj. rewrite mix_forward_unfold. cbv zeta. cbn [fw_z].
    rewrite decode_spec.
    destruct (in_dec Z.eq_dec j (visited index)) as [Hin|Hout]; [|reflexivity].
    apply Hids in Hin. lia. }
  destruct (mix_forward_sweeps max_iter eps n m k index Smat z b Snrms)
    as (s & conv & _ & E & _).
  rewrite E.
  destruct (sweep_bufs_frames m k index Smat Snrms b Hm Hmpad Hk Hkpad s)
    as (FV & FW & Fgn & Fg).
  cbv zeta in FV, FW, Fgn, Fg.
  repeat split; try assumption.
  - intros j Hj. apply FV. intros i Hi. apply Hids in Hi. nia.
  - intros j Hj. apply Fgn. intros Hi. apply Hids in Hi. lia.
Qed.

End ForwardLocal.

(** ** The batch launcher of the forward pass *)

Section ForwardLauncher.
Context {ops : FloatOps}.
Variables (max_iter : Z) (eps : float) (n m k : Z) (index : buf Z).
Variables (Smat Snrms : buf float) (batch : Z).
Hypotheses (Hn : 0 <= n) (Hm : 0 <= m) (Hmpad : m mod 4 = 0).
Hypotheses (Hk : 0 < k) (Hkpad : k mod 4 = 0).
Hypothesis Hids :
  forall i, 0 <= i < batch ->
    forall id, In id (visited (index_slice n index i)) -> 0 <= id < n.

Lemma forward_slice_same_refl j a : forward_slice_same n m k j a a.
Proof. repeat split; apply same_on_refl. Qed.

Lemma forward_slice_same_trans j a1 a2 a3 :
  forward_slice_same n m k j a1 a2 -> forward_slice_same n m k j a2 a3 ->
  forward_slice_same n m k j a1 a3.
Proof.
  intros (H0 & H1 & H2 & H3 & H4 & H5) (G0 & G1 & G2 & G3 & G4 & G5).
  repeat split; try (eapply same_on_trans; eassumption). congruence.
Qed.

Lemma mix_forward_iteration_frame i j a :
  0 <= i < batch -> j <> i ->
  forward_slice_same n m k j
    (mix_forward_iteration max_iter eps n m k index Smat Snrms i a) a.
Proof.
  intros Hi Hne. unfold mix_forward_iteration. cbv zeta.
  destruct (mix_forward_frames n m k (index_slice n index i) Smat Snrms
              Hm Hmpad Hk Hkpad (Hids i Hi) max_iter eps
              (offset (fa_z a) (i * n)) (forward_slices n m k a i))
    as (Fz & FV & FW & Fgn & Fg).
  cbv zeta in Fz, FV, FW, Fgn, Fg. cbn [forward_slices kV kW kgnrm kg] in *.
  repeat split; cbn [fa_niter fa_z fa_V fa_W fa_gnrm fa_cache].
  - apply store_other. exact Hne.
  - apply (unoffset_frame _ _ _ n); [exact Fz | intros p Hp; nia].
  - apply (unoffset_frame _ _ _ (n * k)); [exact FV | intros p Hp; nia].
  - apply (unoffset_frame _ _ _ (k * m)); [exact FW | intros p Hp; nia].
  - apply (unoffset_frame _ _ _ n); [exact Fgn | intros p Hp; nia].
  - apply (unoffset_frame _ _ _ k); [exact Fg | intros p Hp; nia].
Qed.

Lemma mix_forward_iteration_local i a a' :
  0 <= i < batch ->
  forward_slice_same n m k i a a' ->
  forward_slice_same n m k i
    (mix_forward_iteration max_iter eps n m k index Smat Snrms i a)
    (mix_forward_iteration max_iter eps n m k index Smat Snrms i a').
Proof.
  intros Hi (H0 & Hz & HV & HW & Hgn & Hg).
  unfold mix_forward_iteration. cbv zeta.
  destruct (mix_forward_local n m k (index_slice n index i) Smat Snrms
              Hm Hmpad Hk Hkpad (Hids i Hi) max_iter eps
              (offset (fa_z a) (i * n)) (offset (fa_z a') (i * n))
              (forward_slices n m k a i) (forward_slices n m k a' i))
    as (Eiter & Ez & EV & EW & Egn & Eg).
  { unfold forward_slices.
    repeat split; cbn [kV kW kgnrm kg]; now apply same_on_offset. }
  { now apply same_on_offset. }
  repeat split; cbn [fa_niter fa_z fa_V fa_W fa_gnrm fa_cache].
  - rewrite !store_same. exact Eiter.
  - now apply same_on_unoffset.
  - now apply same_on_unoffset.
  - now apply same_on_unoffset.
  - now apply same_on_unoffset.
  - now apply same_on_unoffset.
Qed.

(** X23.  [mix_forward_launcher_cpu] over a batch, with the iterations of
    its parallel loop taken one at a time in any order: the slices of every
    batch element ([niter], [z], [V], [W], [gnrm], [cache]) end as the call
    of [mix_forward] for that element alone leaves them when run on the
    arrays as the caller passed them, and the slices of any other index are
    untouched.  [m >= 0] and [k > 0] are multiples of 4; each element's
    index array holds its terminating 0 among its [n] entries, so that the
    sweeps of one element do not run on into the entries of the next, and
    the ids it visits are ids of the instance, [0 <= id < n]. *)
Theorem mix_forward_launcher_any_order schedule (a : forward_arrays) :
  NoDup schedule -> (forall i, In i schedule <-> 0 <= i < batch) ->
  (forall i, 0 <= i < batch -> In 0 (index_slice n index i)) ->
  let r := mix_forward_launcher_cpu schedule max_iter eps n m k index Smat Snrms a in
  (forall i, 0 <= i < batch ->
     forward_slice_same n m k i r
       (mix_forward_iteration max_iter eps n m k index Smat Snrms i a))
  /\ (forall i, ~ (0 <= i < batch) -> forward_slice_same n m k i r a).
Proof.
  intros Hnd Hall _. cbv zeta. unfold mix_forward_launcher_cpu.
  pose proof (fold_local
                (fun i a => mix_forward_iteration max_iter eps n m k index Smat Snrms i a)
                (forward_slice_same n m k) (fun i => 0 <= i < batch)
                forward_slice_same_refl forward_slice_same_trans
                (fun i j s Hi Hne => mix_forward_iteration_frame i j s Hi Hne)
                (fun i s s' Hi H => mix_forward_iteration_local i s s' Hi H)
                schedule Hnd (fun i Hi => proj1 (Hall i) Hi) a) as H.
  split; intros i Hi.
  - apply (H i). now apply Hall.
  - apply (H i). intros Hin. apply Hi. now apply Hall.
Qed.

End ForwardLauncher.

(** ** The backward pass works on the cells of its instance *)

(** Two runs of a loop keep a relation that every round keeps. *)
Lemma for_range_rel {A B : Type} (R : A -> B -> Prop)
    (body : Z -> A -> A) (body' : Z -> B -> B) :
  forall t i a a',
    R a a' ->
    (forall c x x', i <= c < i + Z.of_nat t -> R x x' -> R (body c x) (body' c x')) ->
    R (for_range t i body a) (for_range t i body' a').
Proof.
  induction t as [|t IH]; intros i a a' Ha Hstep; [exact Ha|].
  cbn [for_range]. apply IH.
  - apply Hstep; [lia | exact Ha].
  - intros c x x' Hc. apply Hstep. lia.
Qed.

Lemma for_upto_rel {A B : Type} (R : A -> B -> Prop)
    (body : Z -> A -> A) (body' : Z -> B -> B) lo hi a a' :
  R a a' ->
  (forall c x x', lo <= c < hi -> R x x' -> R (body c x) (body' c x')) ->
  R (for_upto lo hi body a) (for_upto lo hi body' a').
Proof.
  intros Ha Hstep. unfold for_upto. apply for_range_rel; [exact Ha|].
  intros c x x' Hc. apply Hstep. lia.
Qed.

Section BackwardLocal.
Context {ops : FloatOps}.
Variables (prox_lam : float) (n m k : Z) (is_input : buf Z) (index : list Z).
Variables (niter : Z) (Smat z V W gnrm Snrms : buf float).
Hypotheses (Hm : 0 <= m) (Hmpad : m mod 4 = 0) (Hk : 0 < k) (Hkpad : k mod 4 = 0).
Hypothesis Hids : forall i, In i (visited index) -> 0 <= i < n.

Lemma rescale_dz_local (dz dz' : buf float) :
  same_on 0 n dz dz' ->
  same_on 0 n (fst (rescale_dz index z gnrm dz)) (fst (rescale_dz index z gnrm dz'))
  /\ snd (rescale_dz index z gnrm dz) = snd (rescale_dz index z gnrm dz').
Proof.
  unfold rescale_dz. generalize false as flag. revert dz dz' Hids.
  induction (visited index) as [|i l IH]; intros dz dz' Hin flag Hdz.
  - cbn [fold_left fst snd]. split; [exact Hdz | reflexivity].
  - cbn [fold_left]. rewrite (Hdz i) by (apply Hin; now left).
    apply IH; [intros i' Hi'; apply Hin; now right|].
    intros j Hj. unfold store. rewrite (Hdz j) by exact Hj. reflexivity.
Qed.

Lemma adjoint_sweeps_local (dz dz' : buf float) b b' calls :
  same_on 0 n dz dz' -> kernel_bufs_agree n m k b b' ->
  kernel_bufs_agree n m k
    (fst (adjoint_sweeps prox_lam m k index niter Smat dz V Snrms (b, calls)))
    (fst (adjoint_sweeps prox_lam m k index niter Smat dz' V Snrms (b', calls))).
Proof.
  intros Hdz Hb. unfold adjoint_sweeps.
  apply (for_upto_rel
           (fun (x x' : kernel_bufs * list bool) =>
              kernel_bufs_agree n m k (fst x) (fst x'))); [exact Hb|].
  intros c [b0 calls0] [b0' calls0'] _ H0. cbn [fst] in *.
  apply (mix_kernel_local n m k Hm Hmpad Hk Hkpad false prox_lam index Smat Snrms
           dz dz' V V b0 b0' Hids H0 Hdz (same_on_refl _ _ _)).
Qed.

Lemma nonfinite_U_local (U U' : buf float) :
  same_on 0 (n * k) U U' -> nonfinite_U n k U = nonfinite_U n k U'.
Proof.
  intros HU. unfold nonfinite_U.
  apply (for_upto_rel (fun x x' : bool => x = x')); [reflexivity|].
  intros c x x' Hc ->. rewrite (HU c) by exact Hc. reflexivity.
Qed.

Lemma accumulate_dS_local (U U' Phi Phi' dS dS' : buf float) :
  same_on 0 (n * k) U U' -> same_on 0 (k * m) Phi Phi' ->
  same_on 0 (n * m) dS dS' ->
  same_on 0 (n * m) (accumulate_dS n m k U V W Phi dS)
    (accumulate_dS n m k U' V W Phi' dS').
Proof.
  intros HU HPhi HdS. unfold accumulate_dS.
  apply (for_upto_rel (fun x x' : buf float => same_on 0 (n * m) x x'));
    [exact HdS|].
  intros i d d' Hi Hd.
  apply (for_upto_rel (fun x x' : buf float => same_on 0 (n * m) x x'));
    [exact Hd|].
  intros kk e e' Hkk He j Hj. cbv zeta.
  rewrite !saxpy_spec, simd_rounds_exact by assumption.
  rewrite (HU (i * k + kk)) by nia. rewrite (He j) by exact Hj.
  destruct ((i * m <=? j) && (j <? i * m + m)) eqn:E; [|reflexivity].
  apply andb_true_iff in E as [E1 E2].
  apply Z.leb_le in E1. apply Z.ltb_lt in E2.
  rewrite (HPhi (kk * m + (j - i * m))) by nia. reflexivity.
Qed.

Lemma input_gradients_local (Phi Phi' dz dz' : buf float) :
  same_on 0 (k * m) Phi Phi' -> same_on 0 n dz dz' ->
  same_on 0 n (input_gradients n m k is_input Smat z V Phi dz)
    (input_gradients n m k is_input Smat z V Phi' dz').
Proof.
  intros HPhi Hdz j Hj.
  assert (4 <= k) by (pose proof (Z.div_mod k 4 ltac:(lia)); lia).
  destruct (Z_lt_ge_dec j 1) as [H0|H1].
  - rewrite !input_gradients_frame by lia. now apply Hdz.
  - rewrite !input_gradients_cell by lia.
    destruct (is_input j =? 0); [reflexivity|].
    unfold input_gradient. cbv zeta. rewrite (Hdz j) by exact Hj.
    rewrite (sdot_ext Smat Smat (j * m) Phi Phi' (0 * m) m Hm Hmpad),
            (sdot_ext Smat Smat (j * m) Phi Phi' (1 * m) m Hm Hmpad);
      try reflexivity; try (intros c _; reflexivity);
      intros c Hc; apply HPhi; nia.
Qed.

Lemma szero_local (dz dz' : buf float) :
  same_on 0 n dz dz' -> same_on 0 n (szero dz 0 n) (szero dz' 0 n).
Proof.
  intros Hdz j Hj. rewrite !szero_inside by lia. reflexivity.
Qed.

(** [mix_backward] computes the same on the cells of its instance from the
    same values there. *)
Lemma mix_backward_local (dS dS' dz dz' U U' Phi Phi' cache cache' : buf float) :
  same_on 0 (n * m) dS dS' -> same_on 0 n dz dz' ->
  same_on 0 (n * k) U U' -> same_on 0 (k * m) Phi Phi' ->
  same_on 0 k cache cache' ->
  let rb :=
    mix_backward prox_lam n m k is_input index niter Smat dS z dz V U W Phi gnrm
      Snrms cache in
  let rb' :=
    mix_backward prox_lam n m k is_input index niter Smat dS' z dz' V U' W Phi' gnrm
      Snrms cache' in
  same_on 0 (n * m) (bw_dS rb) (bw_dS rb')
  /\ same_on 0 n (bw_dz rb) (bw_dz rb')
  /\ same_on 0 (n * k) (bw_U rb) (bw_U rb')
  /\ same_on 0 (k * m) (bw_Phi rb) (bw_Phi rb')
  /\ same_on 0 k (bw_cache rb) (bw_cache rb').
Proof.
  intros HdS Hdz HU HPhi Hc. cbv zeta. unfold mix_backward.
  destruct (rescale_dz_local dz dz' Hdz) as [Hdz1 Hflag].
  destruct (rescale_dz index z gnrm dz) as [dz1 flag1].
  destruct (rescale_dz index z gnrm dz') as [dz1' flag1'].
  cbn [fst snd] in Hdz1, Hflag. subst flag1'.
  destruct flag1.
  - cbn [bw_dS bw_dz bw_U bw_Phi bw_cache].
    repeat split; try assumption. now apply szero_local.
  - assert (Hb : kernel_bufs_agree n m k
                   {| kV := U; kW := Phi; kgnrm := gnrm; kg := cache |}
                   {| kV := U'; kW := Phi'; kgnrm := gnrm; kg := cache' |}).
    { split; [exact HU | split; [exact HPhi | split; [apply same_on_refl | exact Hc]]]. }
    pose proof (adjoint_sweeps_local dz1 dz1' _ _ [] Hdz1 Hb) as (EV & EW & _ & Eg).
    destruct (adjoint_sweeps prox_lam m k index niter Smat dz1 V Snrms
                ({| kV := U; kW := Phi; kgnrm := gnrm; kg := cache |}, []))
      as [b1 calls1].
    destruct (adjoint_sweeps prox_lam m k index niter Smat dz1' V Snrms
                ({| kV := U'; kW := Phi'; kgnrm := gnrm; kg := cache' |}, []))
      as [b1' calls1'].
    cbn [fst] in EV, EW, Eg.
    rewrite (nonfinite_U_local (kV b1) (kV b1') EV).
    destruct (nonfinite_U n k (kV b1')); cbn [bw_dS bw_dz bw_U bw_Phi bw_cache].
    + repeat split; try assumption. now apply szero_local.
    + repeat split; try assumption.
      * now apply accumulate_dS_local.
      * now apply input_gradients_local.
Qed.

(** Outside the cells of its instance [mix_backward] writes nothing. *)
Lemma mix_backward_frames_in_range (dS dz U Phi cache : buf float) :
  let rb :=
    mix_backward prox_lam n m k is_input index niter Smat dS z dz V U W Phi gnrm
      Snrms cache in
  (forall j, j < 0 \/ n * m <= j -> bw_dS rb j = dS j)
  /\ (forall j, j < 0 \/ n <= j -> bw_dz rb j = dz j)
  /\ (forall j, j < 0 \/ n * k <= j -> bw_U rb j = U j)
  /\ (forall j, j < 0 \/ k * m <= j -> bw_Phi rb j = Phi j)
  /\ (forall j, j < 0 \/ k <= j -> bw_cache rb j = cache j).
Proof.
  cbv zeta.
  destruct (mix_backward_frames prox_lam n m k is_input index niter Smat dS z dz V U W
              Phi gnrm Snrms cache Hm Hmpad Hk Hkpad) as (FU & FPhi & Fc & FdS & Fdz).
  cbv zeta in FU, FPhi, Fc, FdS, Fdz.
  repeat split; try assumption.
  - intros j Hj. apply Fdz; [exact Hj|]. intros Hi. apply Hids in Hi. lia.
  - intros j Hj. apply FU. intros i Hi. apply Hids in Hi. nia.
Qed.

End BackwardLocal.

(** ** The batch launcher of the backward pass *)

Section BackwardLauncher.
Context {ops : FloatOps}.
Variables (prox_lam : float) (n m k : Z) (is_input index niter : buf Z).
Variables (Smat z V W gnrm Snrms : buf float) (batch : Z).
Hypotheses (Hm : 0 <= m) (Hmpad : m mod 4 = 0).
Hypotheses (Hk : 0 < k) (Hkpad : k mod 4 = 0).
Hypothesis Hids :
  forall i, 0 <= i < batch ->
    forall id, In id (visited (index_slice n index i)) -> 0 <= id < n.

Lemma backward_slice_same_refl j a : backward_slice_same n m k j a a.
Proof. repeat split; apply same_on_refl. Qed.

Lemma backward_slice_same_trans j a1 a2 a3 :
  backward_slice_same n m k j a1 a2 -> backward_slice_same n m k j a2 a3 ->
  backward_slice_same n m k j a1 a3.
Proof.
  intros (H1 & H2 & H3 & H4 & H5) (G1 & G2 & G3 & G4 & G5).
  repeat split; eapply same_on_trans; eassumption.
Qed.

Lemma mix_backward_iteration_frame i j a :
  0 <= i < batch -> j <> i ->
  backward_slice_same n m k j
    (mix_backward_iteration prox_lam n m k is_input index niter Smat z V W gnrm Snrms
       i a) a.
Proof.
  intros Hi Hne. unfold mix_backward_iteration. cbv zeta.
  destruct (mix_backward_frames_in_range prox_lam n m k (offset is_input (i * n))
              (index_slice n index i) (niter i) Smat (offset z (i * n))
              (offset V (i * n * k)) (offset W (i * m * k)) (offset gnrm (i * n)) Snrms
              Hm Hmpad Hk Hkpad (Hids i Hi)
              (offset (ba_dS a) (i * n * m)) (offset (ba_dz a) (i * n))
              (offset (ba_U a) (i * n * k)) (offset (ba_Phi a) (i * m * k))
              (offset (ba_cache a) (i * k)))
    as (FdS & Fdz & FU & FPhi & Fc).
  cbv zeta in FdS, Fdz, FU, FPhi, Fc.
  repeat split; cbn [ba_dS ba_dz ba_U ba_Phi ba_cache].
  - apply (unoffset_frame _ _ _ (n * m)); [exact FdS | intros p Hp; nia].
  - apply (unoffset_frame _ _ _ n); [exact Fdz | intros p Hp; nia].
  - apply (unoffset_frame _ _ _ (n * k)); [exact FU | intros p Hp; nia].
  - apply (unoffset_frame _ _ _ (k * m)); [exact FPhi | intros p Hp; nia].
  - apply (unoffset_frame _ _ _ k); [exact Fc | intros p Hp; nia].
Qed.

Lemma mix_backward_iteration_local i a a' :
  0 <= i < batch ->
  backward_slice_same n m k i a a' ->
  backward_slice_same n m k i
    (mix_backward_iteration prox_lam n m k is_input index niter Smat z V W gnrm Snrms
       i a)
    (mix_backward_iteration prox_lam n m k is_input index niter Smat z V W gnrm Snrms
       i a').
Proof.
  intros Hi (HdS & Hdz & HU & HPhi & Hc).
  unfold mix_backward_iteration. cbv zeta.
  destruct (mix_backward_local prox_lam n m k (offset is_input (i * n))
              (index_slice n index i) (niter i) Smat (offset z (i * n))
              (offset V (i * n * k)) (offset W (i * m * k)) (offset gnrm (i * n)) Snrms
              Hm Hmpad Hk Hkpad (Hids i Hi)
              (offset (ba_dS a) (i * n * m)) (offset (ba_dS a') (i * n * m))
              (offset (ba_dz a) (i * n)) (offset (ba_dz a') (i * n))
              (offset (ba_U a) (i * n * k)) (offset (ba_U a') (i * n * k))
              (offset (ba_Phi a) (i * m * k)) (offset (ba_Phi a') (i * m * k))
              (offset (ba_cache a) (i * k)) (offset (ba_cache a') (i * k)))
    as (EdS & Edz & EU & EPhi & Ec); try (now apply same_on_offset).
  repeat split; cbn [ba_dS ba_dz ba_U ba_Phi ba_cache]; now apply same_on_unoffset.
Qed.

(** X24.  [mix_backward_launcher_cpu] over a batch, with the iterations of
    its parallel loop taken one at a time in any order: the slices of every
    batch element ([dS], [dz], [U], [Phi], [cache]) end as the call of
    [mix_backward] for that element alone leaves them when run on the arrays
    as the caller passed them, and the slices of any other index are
    untouched.  [m >= 0] and [k > 0] are multiples of 4; each element's
    index array holds its terminating 0 among its [n] entries, and the ids
    it visits are ids of the instance, [0 <= id < n]. *)
Theorem mix_backward_launcher_any_order schedule (a : backward_arrays) :
  NoDup schedule -> (forall i, In i schedule <-> 0 <= i < batch) ->
  (forall i, 0 <= i < batch -> In 0 (index_slice n index i)) ->
  let r :=
    mix_backward_launcher_cpu schedule prox_lam n m k is_input index niter Smat z V W
      gnrm Snrms a in
  (forall i, 0 <= i < batch ->
     backward_slice_same n m k i r
       (mix_backward_iteration prox_lam n m k is_input index niter Smat z V W gnrm
          Snrms i a))
  /\ (forall i, ~ (0 <= i < batch) -> backward_slice_same n m k i r a).
Proof.
  intros Hnd Hall _. cbv zeta. unfold mix_backward_launcher_cpu.
  pose proof (fold_local
                (fun i a =>
                   mix_backward_iteration prox_lam n m k is_input index niter Smat z V
                     W gnrm Snrms i a)
                (backward_slice_same n m k) (fun i => 0 <= i < batch)
                backward_slice_same_refl backward_slice_same_trans
                (fun i j s Hi Hne => mix_backward_iteration_frame i j s Hi Hne)
                (fun i s s' Hi H => mix_backward_iteration_local i s s' Hi H)
                schedule Hnd (fun i Hi => proj1 (Hall i) Hi) a) as H.
  split; intros i Hi.
  - apply (H i). now apply Hall.
  - apply (H i). intros Hin. apply Hi. now apply Hall.
Qed.

End BackwardLauncher.

(** ** Closed instances for the launchers of the two passes *)

Section LauncherInstances.
Import Sample Batch.

Lemma index2_visits :
  forall i, 0 <= i < 2 ->
    forall id, In id (visited (index_slice 2 index2 i)) -> 0 <= id < 2.
Proof.
  intros i Hi id.
  assert (E0 : visited (index_slice 2 index2 0) = [1]) by (vm_compute; reflexivity).
  assert (E1 : visited (index_slice 2 index2 1) = [1]) by (vm_compute; reflexivity).
  assert (Hc : i = 0 \/ i = 1) by lia.
  destruct Hc as [-> | ->]; [rewrite E0 | rewrite E1]; intros [<-|[]]; lia.
Qed.

Lemma index2_sentinel :
  forall i, 0 <= i < 2 -> In 0 (index_slice 2 index2 i).
Proof.
  intros i Hi.
  assert (E0 : index_slice 2 index2 0 = [1; 0]) by (vm_compute; reflexivity).
  assert (E1 : index_slice 2 index2 1 = [1; 0]) by (vm_compute; reflexivity).
  assert (Hc : i = 0 \/ i = 1) by lia.
  destruct Hc as [-> | ->]; [rewrite E0 | rewrite E1]; right; now left.
Qed.

Lemma schedule_10 :
  NoDup [1; 0] /\ forall i, In i [1; 0] <-> 0 <= i < 2.
Proof.
  split.
  - constructor; [intros [H|[]]; discriminate H | constructor; [intros [] | constructor]].
  - intros i. cbn [In]. split; [intros [<-|[<-|[]]]; lia|].
    intros Hi. destruct (Z.eq_dec i 1) as [->|]; [now left | right; left; lia].
Qed.

Lemma mix_forward_launcher_any_order_witness :
  0 <= 2 /\ 0 <= 4 /\ 4 mod 4 = 0 /\ 0 < 4
  /\ (forall i, 0 <= i < 2 ->
        forall id, In id (visited (index_slice 2 index2 i)) -> 0 <= id < 2)
  /\ NoDup [1; 0] /\ (forall i, In i [1; 0] <-> 0 <= i < 2)
  /\ (forall i, 0 <= i < 2 -> In 0 (index_slice 2 index2 i))
  /\ (forall i, 0 <= i < 2 ->
        forward_slice_same 2 4 4 i
          (mix_forward_launcher_cpu (ops := IEEE.annex_ops) [1; 0] 3 eps10 2 4 4
             index2 pull_S pull_Snrms forward_start)
          (mix_forward_iteration (ops := IEEE.annex_ops) 3 eps10 2 4 4 index2 pull_S
             pull_Snrms i forward_start)).
Proof.
  assert (Hn : 0 <= 2) by lia.
  assert (Hm : 0 <= 4) by lia.
  assert (H4 : 4 mod 4 = 0) by reflexivity.
  assert (Hk : 0 < 4) by lia.
  destruct schedule_10 as [Hnd Hall].
  destruct (mix_forward_launcher_any_order (ops := IEEE.annex_ops) 3 eps10 2 4 4
              index2 pull_S pull_Snrms 2 Hn Hm H4 Hk H4 index2_visits [1; 0]
              forward_start Hnd Hall index2_sentinel) as [Hin _].
  exact (conj Hn (conj Hm (conj H4 (conj Hk (conj index2_visits
           (conj Hnd (conj Hall (conj index2_sentinel Hin)))))))).
Defined.

Lemma mix_backward_launcher_any_order_witness :
  0 <= 4 /\ 4 mod 4 = 0 /\ 0 < 4
  /\ (forall i, 0 <= i < 2 ->
        forall id, In id (visited (index_slice 2 index2 i)) -> 0 <= id < 2)
  /\ NoDup [1; 0] /\ (forall i, In i [1; 0] <-> 0 <= i < 2)
  /\ (forall i, 0 <= i < 2 -> In 0 (index_slice 2 index2 i))
  /\ (forall i, 0 <= i < 2 ->
        backward_slice_same 2 4 4 i
          (mix_backward_launcher_cpu (ops := IEEE.annex_ops) [1; 0] (fl 0) 2 4 4
             input_0 index2 niter2 pull_S zeros V_e0_e1 pull_W gnrm_1 pull_Snrms
             backward_start)
          (mix_backward_iteration (ops := IEEE.annex_ops) (fl 0) 2 4 4 input_0 index2
             niter2 pull_S zeros V_e0_e1 pull_W gnrm_1 pull_Snrms i backward_start)).
Proof.
  assert (Hm : 0 <= 4) by lia.
  assert (H4 : 4 mod 4 = 0) by reflexivity.
  assert (Hk : 0 < 4) by lia.
  destruct schedule_10 as [Hnd Hall].
  destruct (mix_backward_launcher_any_order (ops := IEEE.annex_ops) (fl 0) 2 4 4
              input_0 index2 niter2 pull_S zeros V_e0_e1 pull_W gnrm_1 pull_Snrms 2
              Hm H4 Hk H4 index2_visits [1; 0] backward_start Hnd Hall
              index2_sentinel) as [Hin _].
  exact (conj Hm (conj H4 (conj Hk (conj index2_visits
           (conj Hnd (conj Hall (conj index2_sentinel Hin))))))).
Defined.

End LauncherInstances.

(** ** The passes as wholes *)

(** X25.  The iteration count [mix_forward] records lies between 0 and
    [max_iter] (0 when [max_iter <= 0]), and it is at least 1 less than the
    number of sweeps made when the loop was left through its test. *)
Theorem mix_forward_niter_range {ops : FloatOps} max_iter eps n m k index Smat z b
    Snrms :
  let r := mix_forward max_iter eps n m k index Smat z b Snrms in
  0 <= fw_niter r <= Z.max 0 max_iter
  /\ (Z.of_nat (length (fw_calls r)) = fw_niter r
      \/ Z.of_nat (length (fw_calls r)) = fw_niter r + 1)
  /\ Z.of_nat (length (fw_calls r)) <= Z.max 0 max_iter.
Proof.
  cbv zeta.
  destruct (mix_forward_sweeps max_iter eps n m k index Smat z b Snrms)
    as (s & conv & -> & _ & -> & Hle & Hc & Hx).
  rewrite repeat_length.
  destruct conv.
  - destruct (Hc eq_refl) as (t & -> & Ht & _). lia.
  - specialize (Hx eq_refl). lia.
Qed.

Section ExactWholePasses.
#[local] Existing Instance Exact.ops.
Import Exact.
Local Open Scope R_scope.

(** X26.  In exact arithmetic every value [mix_forward] writes into [z]
    lies in [0, 1]. *)
Theorem mix_forward_outputs_in_unit_interval max_iter (eps : R) n m k index
    (Smat z Snrms : buf R) b i :
  In i (visited index) ->
  0 <= fw_z (mix_forward max_iter eps n m k index Smat z b Snrms) i <= 1.
Proof.
  intros Hi.
  rewrite (mix_forward_decodes (ops := Exact.ops) max_iter eps n m k index Smat z b Snrms i Hi).
  apply decoded_exact_range.
Qed.

Lemma sweep_bufs_accumulator_ok n m k index (Smat Snrms : buf R) b :
  (m mod 4 = 0)%Z ->
  (forall i, In i (visited index) -> (0 <= i < n)%Z) ->
  accumulator_ok n m k Smat (kV b) (kW b) ->
  forall t,
    accumulator_ok n m k Smat (kV (sweep_bufs m k index Smat Snrms t b))
      (kW (sweep_bufs m k index Smat Snrms t b)).
Proof.
  intros Hpad Hids Hb. induction t as [|t IH]; [exact Hb|].
  cbn [sweep_bufs]. unfold forward_sweep, mix_kernel.
  apply (fold_accumulator_ok true (@f0 Exact.ops) n m k Smat (@null_buf Exact.ops) (@null_buf Exact.ops) Snrms
           Hpad (visited index) _ (@f0 Exact.ops) Hids IH).
Qed.

(** X27.  In exact arithmetic [mix_forward] keeps the accumulator relation
    [W = sum_i V_i (x) S_i] through all its sweeps, for [m] a multiple of 4
    and an index array that visits ids of the instance. *)
Theorem mix_forward_keeps_accumulator max_iter (eps : R) n m k index
    (Smat z Snrms : buf R) b :
  (m mod 4 = 0)%Z ->
  (forall i, In i (visited index) -> (0 <= i < n)%Z) ->
  accumulator_ok n m k Smat (kV b) (kW b) ->
  accumulator_ok n m k Smat
    (kV (fw_bufs (mix_forward max_iter eps n m k index Smat z b Snrms)))
    (kW (fw_bufs (mix_forward max_iter eps n m k index Smat z b Snrms))).
Proof.
  intros Hpad Hids Hb.
  destruct (mix_forward_sweeps (ops := Exact.ops) max_iter eps n m k index Smat z b Snrms)
    as (s & conv & _ & -> & _).
  now apply sweep_bufs_accumulator_ok.
Qed.

(** X28.  In exact arithmetic [mix_backward] keeps the same relation between
    [U] and [Phi], [Phi = sum_i U_i (x) S_i], on every path through it. *)
Theorem mix_backward_keeps_accumulator (prox_lam : R) n m k is_input index niter
    (Smat dS z dz V U W Phi gnrm Snrms cache : buf R) :
  (m mod 4 = 0)%Z ->
  (forall i, In i (visited index) -> (0 <= i < n)%Z) ->
  accumulator_ok n m k Smat U Phi ->
  let rb :=
    mix_backward prox_lam n m k is_input index niter Smat dS z dz V U W Phi gnrm
      Snrms cache in
  accumulator_ok n m k Smat (bw_U rb) (bw_Phi rb).
Proof.
  intros Hpad Hids Hb. cbv zeta. unfold mix_backward.
  destruct (rescale_dz (ops := Exact.ops) index z gnrm dz) as [dz1 flag1].
  destruct flag1; [exact Hb|].
  assert (Hs : accumulator_ok n m k Smat
                 (kV (fst (adjoint_sweeps (ops := Exact.ops) prox_lam m k index niter Smat dz1 V Snrms
                             (@Build_kernel_bufs Exact.ops U Phi gnrm cache, []))))
                 (kW (fst (adjoint_sweeps (ops := Exact.ops) prox_lam m k index niter Smat dz1 V Snrms
                             (@Build_kernel_bufs Exact.ops U Phi gnrm cache, []))))).
  { unfold adjoint_sweeps.
    destruct (Z_le_gt_dec 0 niter) as [Hn|Hn];
      [|rewrite for_upto_empty by lia; exact Hb].
    apply (for_upto_inv
             (fun _ (bc : @kernel_bufs Exact.ops * list bool) =>
                accumulator_ok n m k Smat (kV (fst bc)) (kW (fst bc))));
      [exact Hn | exact Hb |].
    intros c [b0 calls0] _ H0. cbn [fst] in *. unfold mix_kernel.
    apply (fold_accumulator_ok false prox_lam n m k Smat dz1 V Snrms Hpad
             (visited index) b0 (@f0 Exact.ops) Hids H0). }
  destruct (adjoint_sweeps (ops := Exact.ops) prox_lam m k index niter Smat dz1 V Snrms
              (@Build_kernel_bufs Exact.ops U Phi gnrm cache, []))
    as [b1 calls1].
  cbn [fst] in Hs.
  destruct (nonfinite_U (ops := Exact.ops) n k (kV b1)); exact Hs.
Qed.

(** X29.  In exact arithmetic, after a forward pass of at least one sweep
    ([max_iter >= 1]) every visited row of [V] whose stored norm [gnrm[i]]
    is not 0 is a unit vector, for [k] a multiple of 4. *)
Theorem mix_forward_unit_rows max_iter (eps : R) n m k index (Smat z Snrms : buf R)
    b i :
  (k mod 4 = 0)%Z -> (1 <= max_iter)%Z ->
  In i (visited index) ->
  kgnrm (fw_bufs (mix_forward max_iter eps n m k index Smat z b Snrms)) i <> 0 ->
  row_norm2 k (kV (fw_bufs (mix_forward max_iter eps n m k index Smat z b Snrms))) i
  = 1.
Proof.
  intros Hpad Hmax Hi.
  destruct (mix_forward_sweeps (ops := Exact.ops) max_iter eps n m k index Smat z b Snrms)
    as (s & conv & _ & -> & _ & Hle & Hc & Hx).
  assert (Hs : exists t, s = S t).
  { destruct conv.
    - destruct (Hc eq_refl) as (t & -> & _). now exists t.
    - rewrite (Hx eq_refl). exists (Z.to_nat (max_iter - 1)). lia. }
  destruct Hs as [t ->]. cbn [sweep_bufs]. unfold forward_sweep, mix_kernel.
  apply (forward_fold_unit_rows (@f0 Exact.ops) m k Smat (@null_buf Exact.ops) (@null_buf Exact.ops) Snrms Hpad
           (visited index) (sweep_bufs (ops := Exact.ops) m k index Smat Snrms t b)
           (@f0 Exact.ops) i).
  now left.
Qed.

End ExactWholePasses.

(** ** Closed instances for the passes as wholes *)

Section WholePassInstances.
Import Sample.

Lemma index_free_in_range :
  forall i, In i (visited index_free) -> 0 <= i < 2.
Proof. cbn. intros i [<-|[]]. lia. Qed.

Lemma rzeros_accumulator_ok :
  Exact.accumulator_ok 2 4 4 rpull_S rzeros rzeros.
Proof.
  intros kk j Hkk Hj. unfold rzeros, cells.
  change (Z.to_nat 2) with 2%nat. cbn [Exact.rsum]. lra.
Qed.

Lemma mix_forward_outputs_in_unit_interval_witness :
  In 1 (visited index_free)
  /\ (0 <= fw_z (mix_forward (ops := Exact.ops) 3%Z (1 / 2) 2%Z 4%Z 4%Z index_free
                   rpull_S rzeros rpull_start rpull_Snrms) 1%Z <= 1)%R.
Proof.
  assert (Hin : In 1 (visited index_free)) by (cbn; auto).
  exact (conj Hin
           (mix_forward_outputs_in_unit_interval 3 (1 / 2)%R 2 4 4 index_free rpull_S
              rzeros rpull_Snrms rpull_start 1 Hin)).
Defined.

Lemma mix_forward_keeps_accumulator_witness :
  4 mod 4 = 0
  /\ (forall i, In i (visited index_free) -> 0 <= i < 2)
  /\ Exact.accumulator_ok 2 4 4 rpull_S rV_e0_e1 rpull_W
  /\ Exact.accumulator_ok 2 4 4 rpull_S
       (kV (fw_bufs (mix_forward (ops := Exact.ops) 3 (1 / 2)%R 2 4 4 index_free
                       rpull_S rzeros rpull_start rpull_Snrms)))
       (kW (fw_bufs (mix_forward (ops := Exact.ops) 3 (1 / 2)%R 2 4 4 index_free
                       rpull_S rzeros rpull_start rpull_Snrms))).
Proof.
  assert (H4 : 4 mod 4 = 0) by reflexivity.
  exact (conj H4 (conj index_free_in_range (conj rpull_accumulator_ok
           (mix_forward_keeps_accumulator 3 (1 / 2)%R 2 4 4 index_free rpull_S rzeros
              rpull_Snrms rpull_start H4 index_free_in_range rpull_accumulator_ok)))).
Defined.

Lemma mix_backward_keeps_accumulator_witness :
  let rb :=
    mix_backward (ops := Exact.ops) 0%R 2 4 4 input_0 index_free 3 rpull_S rzeros
      rzeros rdz rproj rzeros rpull_W rzeros rgnrm rpull_Snrms rzeros in
  4 mod 4 = 0
  /\ (forall i, In i (visited index_free) -> 0 <= i < 2)
  /\ Exact.accumulator_ok 2 4 4 rpull_S rzeros rzeros
  /\ Exact.accumulator_ok 2 4 4 rpull_S (bw_U rb) (bw_Phi rb).
Proof.
  cbv zeta.
  assert (H4 : 4 mod 4 = 0) by reflexivity.
  exact (conj H4 (conj index_free_in_range (conj rzeros_accumulator_ok
           (mix_backward_keeps_accumulator 0%R 2 4 4 input_0 index_free 3 rpull_S
              rzeros rzeros rdz rproj rzeros rpull_W rzeros rgnrm rpull_Snrms rzeros
              H4 index_free_in_range rzeros_accumulator_ok)))).
Defined.

Lemma mix_forward_unit_rows_witness :
  4 mod 4 = 0 /\ 1 <= 1 /\ In 1 (visited index_free)
  /\ kgnrm (fw_bufs (mix_forward (ops := Exact.ops) 1 (1 / 2)%R 2 4 4 index_free
                       rpull_S rzeros rpull_start rpull_Snrms)) 1 <> 0%R
  /\ Exact.row_norm2 4
       (kV (fw_bufs (mix_forward (ops := Exact.ops) 1 (1 / 2)%R 2 4 4 index_free
                       rpull_S rzeros rpull_start rpull_Snrms))) 1 = 1%R.
Proof.
  assert (H4 : 4 mod 4 = 0) by reflexivity.
  assert (H1 : 1 <= 1) by lia.
  assert (Hin : In 1 (visited index_free)) by (cbn; auto).
  assert (Hd : kgnrm (fw_bufs (mix_forward (ops := Exact.ops) 1 (1 / 2)%R 2 4 4
                                 index_free rpull_S rzeros rpull_start rpull_Snrms)) 1
               <> 0%R).
  { lazy -[Rplus Rmult Rminus Ropp Rdiv Rinv sqrt IZR Rlt_dec].
    match goal with
    | |- sqrt ?e = _ -> False => replace e with 1%R by lra
    end.
    rewrite sqrt_1. lra. }
  exact (conj H4 (conj H1 (conj Hin (conj Hd
           (mix_forward_unit_rows 1 (1 / 2)%R 2 4 4 index_free rpull_S rzeros
              rpull_Snrms rpull_start 1 H4 H1 Hin Hd))))).
Defined.

End WholePassInstances.
